(** * Verification of mcphone2004/cache: LRU engine, shard router, expiry map

    Shallow embedding of the Go sources:
    - [src/list/list.go] and [src/internal/list.go] (ordered container and the
      LRU queue wrapper with its eviction callback),
    - [src/lru/lru.go] (the LRU eviction engine),
    - [src/shard/options.go] and the shard router ([src/unnamed/part_004]),
    - the expiry map of [src/internal/list.go] and [src/heap/heap.go].

    Go's [int] and [uint] are 64-bit here; times are nanoseconds since
    Go's zero [time.Time] (so [time.Time{}] is 0). *)

From Stdlib Require Import ZArith Lia Sorting.Sorted.
From stdpp Require Import base gmap list sets.

Open Scope Z_scope.

(** ** Shared Go-level notions *)

(** Errors of [src/types/error.go]. *)
Inductive cache_error := ShutdownError | InvalidOptionsError.

(** The way a Go call ends: it returns a value, or a panic unwinds out of it. *)
Inductive outcome (A : Type) := Returned (a : A) | Panicked.
Arguments Returned {A} a.
Arguments Panicked {A}.

(** What the user's eviction callback does when it is invoked. *)
Inductive cb_result := CbReturn | CbPanic.

(** Go semantics of [recover()]: it returns [nil] unless it is called directly
    by a deferred function.  In [List.OnEvict] it is called in the body of a
    plain (not deferred) closure, so it always yields [nil]. *)
Definition recover_in_plain_call : option unit := None.

(** Go [uint] -> [int] conversion on 64 bits (two's complement wrap). *)
Definition int_of_uint (u : Z) : Z :=
  if u <? 2 ^ 63 then u else u - 2 ^ 64.

Module Lru.
Section Lru.
Context {K : Type} `{Countable K} {V : Type}.

(** [cachetypes.CBFunc]: only whether it returns or panics is observable. *)
Definition CBFunc := K -> V -> cb_result.

(** [internal.Entry{Key, Value}]. *)
Definition Entry := (K * V)%type.

(** A node of [list.List]: its identity (pointer) and its [Value]. *)
Definition Node := (nat * Entry)%type.

(** [internal.List]: the linked list [order] is modelled as the sequence of
    its nodes from the front (root.next) to the back (root.prev);
    [next_id] supplies fresh node identities. *)
Record List := mkList {
  order : list Node;
  next_id : nat;
  capacity : Z;
  onEvict : option CBFunc }.

(** [lru.Cache]. *)
Record Cache := mkCache {
  isShutdown : bool;
  items : gmap K nat;
  queue : List }.

Definition with_order (l : List) (o : list Node) : List :=
  mkList o (next_id l) (capacity l) (onEvict l).

(** [List.Size] / [List.Capacity]. *)
Definition Size (l : List) : Z := Z.of_nat (length (order l)).
Definition Capacity (l : List) : Z := capacity l.

(** The [Value] of the node [n] when [n] is linked in the list. *)
Fixpoint node_value (n : nat) (o : list Node) : option Entry :=
  match o with
  | [] => None
  | (m, e) :: o' => if decide (m = n) then Some e else node_value n o'
  end.

(** Unlinking node [n] ([list.remove]). *)
Definition unlink (n : nat) (o : list Node) : list Node :=
  filter (fun p : Node => p.1 <> n) o.

(** [internal.List.MoveToFront]: [list.MoveToFront] returns an error for a
    node of another list, which the wrapper turns into a panic ([None]). *)
Definition MoveToFront (l : List) (n : nat) : option List :=
  match node_value n (order l) with
  | None => None
  | Some e =>
      match order l with
      | (m, _) :: _ => if decide (m = n) then Some l
                       else Some (with_order l ((n, e) :: unlink n (order l)))
      | [] => Some l
      end
  end.

(** [elem.Value.Value = value]. *)
Definition set_value (n : nat) (v : V) (o : list Node) : list Node :=
  map (fun p : Node => if decide (p.1 = n) then (p.1, (p.2.1, v)) else p) o.

(** [internal.List.Remove]: reads [elem.Value] and unlinks the node
    ([list.Remove] is a no-op for a node that is not in the list). *)
Definition Remove (l : List) (n : nat) : List * option Entry :=
  (with_order l (unlink n (order l)), node_value n (order l)).

(** [internal.List.Back]. *)
Definition Back (l : List) : option Node := last (order l).

(** [internal.List.PushFront]: a fresh node at the front. *)
Definition PushFront (l : List) (k : K) (v : V) : List * nat :=
  (mkList ((next_id l, (k, v)) :: order l) (S (next_id l)) (capacity l) (onEvict l),
   next_id l).

(** [internal.List.Destroy]: the list is replaced by an empty one. *)
Definition Destroy (l : List) : List := with_order l [].

(** [internal.List.OnEvict]: returns the callback invocations it made and how
    it ended.  The [recover()] in the closure is not deferred, so a panic of
    the callback is not caught and unwinds out of [OnEvict]. *)
Definition OnEvict (l : List) (en : Entry) : list Entry * outcome unit :=
  match onEvict l with
  | None => ([], Returned tt)
  | Some f =>
      let _ := match recover_in_plain_call with
               | Some r => r (* fmt.Println("Recovered from panic:", r) *)
               | None => tt
               end in
      match f en.1 en.2 with
      | CbReturn => ([en], Returned tt)
      | CbPanic => ([en], Panicked)
      end
  end.

(** Result of a cache method: the new state, the entries passed to
    [c.queue.OnEvict] (in call order), the callback invocations, and how the
    method ended. *)
Record Step (R : Type) := mkStep {
  st : Cache;
  evicted : list Entry;
  invoked : list Entry;
  ret : outcome R }.
Arguments mkStep {R} _ _ _ _.
Arguments st {R} _.
Arguments evicted {R} _.
Arguments invoked {R} _.
Arguments ret {R} _.

Definition map_outcome {A B} (b : B) (o : outcome A) : outcome B :=
  match o with Returned _ => Returned b | Panicked => Panicked end.

(** [New]: [ToOptions] rejects capacity 0; the capacity is then converted
    with [int(o1.Capacity)].  [None] is the [InvalidOptionsError]. *)
Definition New (cap : Z) (cb : option CBFunc) : option Cache :=
  if cap =? 0 then None
  else Some (mkCache false ∅ (mkList [] 0 (int_of_uint cap) cb)).

(** [Cache.Get]: result [Some v] is [(v, true)]. *)
Definition Get (c : Cache) (key : K) : Step (option V * option cache_error) :=
  if isShutdown c then mkStep c [] [] (Returned (None, Some ShutdownError))
  else match items c !! key with
       | Some n =>
           match MoveToFront (queue c) n with
           | None => mkStep c [] [] Panicked
           | Some q' =>
               let c' := mkCache (isShutdown c) (items c) q' in
               match node_value n (order q') with
               | Some e => mkStep c' [] [] (Returned (Some e.2, None))
               | None => mkStep c' [] [] Panicked
               end
           end
       | None => mkStep c [] [] (Returned (None, None))
       end.

(** [Cache.evict]. *)
Definition evict (c : Cache) : Cache * option Entry :=
  match Back (queue c) with
  | Some (n, (k, _)) =>
      let '(q', en) := Remove (queue c) n in
      (mkCache (isShutdown c) (delete k (items c)) q', en)
  | None => (c, None)
  end.

(** [Cache.Put]. *)
Definition Put (c : Cache) (key : K) (value : V) : Step (option cache_error) :=
  if isShutdown c then mkStep c [] [] (Returned None)
  else match items c !! key with
       | Some n =>
           match MoveToFront (queue c) n with
           | None => mkStep c [] [] Panicked
           | Some q' =>
               mkStep (mkCache (isShutdown c) (items c)
                         (with_order q' (set_value n value (order q'))))
                 [] [] (Returned None)
           end
       | None =>
           let '(c1, ev) :=
             if Size (queue c) =? Capacity (queue c) then evict c else (c, None) in
           let '(q2, n) := PushFront (queue c1) key value in
           let c2 := mkCache (isShutdown c1) (<[key := n]> (items c1)) q2 in
           match ev with
           | None => mkStep c2 [] [] (Returned None)
           | Some en =>
               let '(inv, o) := OnEvict (queue c2) en in
               mkStep c2 [en] inv (map_outcome None o)
           end
       end.

(** [Cache.reset]: the loop evicts the back entry and calls [OnEvict] until
    the list is empty; [fuel] bounds the iterations (one more than the
    number of entries always suffices). *)
Fixpoint reset_loop (fuel : nat) (c : Cache)
  : Cache * list Entry * list Entry * outcome unit :=
  match fuel with
  | O => (c, [], [], Returned tt)
  | S f =>
      match evict c with
      | (c', None) => (c', [], [], Returned tt)
      | (c', Some en) =>
          let '(inv, o) := OnEvict (queue c') en in
          match o with
          | Panicked => (c', [en], inv, Panicked)
          | Returned _ =>
              let '(c'', evs, invs, o') := reset_loop f c' in
              (c'', en :: evs, inv ++ invs, o')
          end
      end
  end.

Definition reset (c : Cache) : Cache * list Entry * list Entry * outcome unit :=
  reset_loop (S (length (order (queue c)))) c.

(** [Cache.Reset]. *)
Definition Reset (c : Cache) : Step (option cache_error) :=
  if isShutdown c then mkStep c [] [] (Returned (Some ShutdownError))
  else let '(c', evs, inv, o) := reset c in mkStep c' evs inv (map_outcome None o).

(** [Cache.Delete]. *)
Definition Delete (c : Cache) (key : K) : Step (bool * option cache_error) :=
  if isShutdown c then mkStep c [] [] (Returned (false, Some ShutdownError))
  else match items c !! key with
       | None => mkStep c [] [] (Returned (false, None))
       | Some n =>
           let '(q', en) := Remove (queue c) n in
           let c' := mkCache (isShutdown c) (delete key (items c)) q' in
           match en with
           | None => mkStep c' [] [] Panicked (* nil entry dereferenced *)
           | Some e =>
               let '(inv, o) := OnEvict (queue c') e in
               mkStep c' [e] inv (map_outcome (true, None) o)
           end
       end.

(** [Cache.Shutdown]. *)
Definition Shutdown (c : Cache) : Step unit :=
  if isShutdown c then mkStep c [] [] (Returned tt)
  else let c1 := mkCache true (items c) (queue c) in
       let '(c2, evs, inv, o) := reset c1 in
       match o with
       | Panicked => mkStep c2 evs inv Panicked
       | Returned _ =>
           mkStep (mkCache true ∅ (Destroy (queue c2))) evs inv (Returned tt)
       end.

(** [Cache.Size] and [Cache.Capacity]. *)
Definition CacheSize (c : Cache) : Z * option cache_error :=
  if isShutdown c then (0, Some ShutdownError) else (Size (queue c), None).
Definition CacheCapacity (c : Cache) : Z * option cache_error :=
  if isShutdown c then (0, Some ShutdownError) else (Capacity (queue c), None).

(** [Cache.Traverse] with a visitor [fn] that has its own state [S]: the
    visited entries are returned with the final visitor state. *)
Fixpoint seq_visit {S : Type} (fn : S -> K -> V -> S * bool) (s : S) (o : list Node)
  : S * list Entry :=
  match o with
  | [] => (s, [])
  | (_, (k, v)) :: o' =>
      let '(s', cont) := fn s k v in
      if cont then let '(s'', vs) := seq_visit fn s' o' in (s'', (k, v) :: vs)
      else (s', [(k, v)])
  end.

Definition Traverse {S : Type} (c : Cache) (fn : S -> K -> V -> S * bool) (s : S)
  : S * list Entry * option cache_error :=
  if isShutdown c then (s, [], Some ShutdownError)
  else let '(s', vs) := seq_visit fn s (order (queue c)) in (s', vs, None).

End Lru.
Arguments mkStep {_ _ _ _ _} _ _ _ _.
Arguments st {_ _ _ _ _} _.
Arguments evicted {_ _ _ _ _} _.
Arguments invoked {_ _ _ _ _} _.
Arguments ret {_ _ _ _ _} _.

End Lru.

(** * The shard router: [src/shard/options.go] and [src/unnamed/part_004] *)
Module Shard.

(** ** Shard-count derivation ([src/shard/options.go]) *)

(** Go [uint] arithmetic wraps modulo [2^64]. *)
Definition u64 (x : Z) : Z := x mod 2 ^ 64.

(** [bits.Len]: the number of bits needed to represent [x]. *)
Definition bitsLen (x : Z) : Z := if x =? 0 then 0 else Z.log2 x + 1.

(** [nextPowerOfTwo]: [1 << bits.Len(n-1)] on [uint], so a shift by 64
    gives 0. *)
Definition nextPowerOfTwo (n : Z) : Z :=
  if n <=? 1 then 1 else u64 (Z.shiftl 1 (bitsLen (u64 (n - 1)))).

(** [computeMaxshards]. *)
Definition computeMaxshards (capacity targetPerShard minShards cpuCount : Z) : Z :=
  let minShards :=
    if minShards =? 0 then
      let rawByCapacity :=
        if 0 <? targetPerShard then u64 (capacity + targetPerShard - 1) / targetPerShard
        else 0 in
      let cpuCount := if cpuCount =? 0 then 1 else cpuCount in
      let cpuMultiplier := 4 in
      let rawByCPU := u64 (cpuCount * cpuMultiplier) in
      let rawMinShards := if rawByCPU >? rawByCapacity then rawByCPU else rawByCapacity in
      Z.min (nextPowerOfTwo rawMinShards) 256
    else minShards in
  nextPowerOfTwo minShards.

(** Reference notions for the derivation as the specification words it. *)
Definition ceil_div (a b : Z) : Z := (a + b - 1) / b.

Definition is_pow2 (p : Z) : Prop := exists j, 0 <= j /\ p = 2 ^ j.

(** [p] is [n] rounded up to a power of two: the least power of two [>= n]. *)
Definition round_up_pow2 (n p : Z) : Prop :=
  is_pow2 p /\ n <= p /\ (p = 1 \/ p < 2 * n).

(** ** The router ([Cache] of [src/unnamed/part_004]) *)

(** A slot of [shards]: a live shard (an LRU engine) or the [nop.Cache]
    that [Shutdown] puts in its place. *)
Inductive ShardSlot (K : Type) `{Countable K} (V : Type) :=
  | Live (c : @Lru.Cache K _ _ V)
  | NopCache.
Arguments Live {_ _ _ _} c.
Arguments NopCache {_ _ _ _}.

Record Router (K : Type) `{Countable K} (V : Type) := mkRouter {
  shardsFn : K -> Z;
  maxShards : Z;
  shards : list (ShardSlot K V) }.
Arguments mkRouter {_ _ _ _} _ _ _.
Arguments shardsFn {_ _ _ _} _ _.
Arguments maxShards {_ _ _ _} _.
Arguments shards {_ _ _ _} _.

Section Router.
Context {K : Type} `{Countable K} {V : Type}.

(** [Cache.isShutdown]: [shards[0]] is the [nop.Cache]. *)
Definition isShutdown (c : Router K V) : bool :=
  match shards c with NopCache :: _ => true | _ => false end.

(** [shard.Traverse(ctx, fn)] on one slot; the result of the LRU engine's
    [Traverse] is discarded, and the [nop.Cache] visits nothing. *)
Definition shard_Traverse {S : Type} (sh : ShardSlot K V) (fn : S -> K -> V -> S * bool) (s : S)
  : S * list (K * V) :=
  match sh with
  | Live c => let '(s', vs, _) := Lru.Traverse c fn s in (s', vs)
  | NopCache => (s, [])
  end.

(** The closure passed to each shard: it records in [stop] that [fn]
    returned [false]. *)
Definition stop_wrapper {S : Type} (fn : S -> K -> V -> S * bool) (x : S * bool) (k : K) (v : V)
  : (S * bool) * bool :=
  let '(s, stop) := x in
  let '(s', cont) := fn s k v in
  if cont then ((s', stop), true) else ((s', true), false).

(** The loop [for _, shard := range c.shards { stop := false; ...; if stop { break } }]. *)
Fixpoint traverse_shards {S : Type} (fn : S -> K -> V -> S * bool) (s : S)
    (shs : list (ShardSlot K V)) : S * list (K * V) :=
  match shs with
  | [] => (s, [])
  | sh :: shs' =>
      let '((s1, stop), vs) := shard_Traverse sh (stop_wrapper fn) (s, false) in
      if stop then (s1, vs)
      else let '(s2, vs2) := traverse_shards fn s1 shs' in (s2, vs ++ vs2)
  end.

(** [Cache.Traverse]: the visitor's final state and the entries it was
    called on, in call order. *)
Definition Traverse {S : Type} (c : Router K V) (fn : S -> K -> V -> S * bool) (s : S)
  : S * list (K * V) :=
  if isShutdown c then (s, []) else traverse_shards fn s (shards c).

(** The specification's traversal: visit a sequence in order, stopping
    entirely at the first entry on which [fn] returns [false]. *)
Fixpoint visit_in_order {S : Type} (fn : S -> K -> V -> S * bool) (s : S) (l : list (K * V))
  : S * list (K * V) :=
  match l with
  | [] => (s, [])
  | (k, v) :: l' =>
      let '(s', cont) := fn s k v in
      if cont then let '(s'', vs) := visit_in_order fn s' l' in (s'', (k, v) :: vs)
      else (s', [(k, v)])
  end.

(** [Some s'] when [fn] returns [true] on every entry of [l], from [s]. *)
Fixpoint continues {S : Type} (fn : S -> K -> V -> S * bool) (s : S) (l : list (K * V))
  : option S :=
  match l with
  | [] => Some s
  | (k, v) :: l' => let '(s', cont) := fn s k v in if cont then continues fn s' l' else None
  end.

(** The entries of a slot, most recently used first (front of the list). *)
Definition slot_entries (sh : ShardSlot K V) : list (K * V) :=
  match sh with
  | Live c => if Lru.isShutdown c then [] else map snd (Lru.order (Lru.queue c))
  | NopCache => []
  end.

End Router.

(** ** Construction: [New], [toOptions] and [newCache] *)

(** The user's [Options] (what the option setters of [New] fill in): a
    [nil] function is [None].  [CacherMaker]'s [n]-th call (counting from 0)
    with a per-shard capacity returns a shard or an error of type [E]. *)
Record Options (K : Type) `{Countable K} (V E : Type) := mkOptions {
  Capacity : Z;
  TargetPerShard : Z;
  MinShards : Z;
  ShardsFn : option (K -> Z -> Z);
  CacherMaker : option (nat -> Z -> ShardSlot K V + E) }.
Arguments mkOptions {_ _ _ _ _} _ _ _ _ _.
Arguments Capacity {_ _ _ _ _} _.
Arguments TargetPerShard {_ _ _ _ _} _.
Arguments MinShards {_ _ _ _ _} _.
Arguments ShardsFn {_ _ _ _ _} _.
Arguments CacherMaker {_ _ _ _ _} _.

(** The validated [options]: the closures [toOptions] builds. *)
Record options (K : Type) `{Countable K} (V E : Type) := mkoptions {
  opt_maxShards : Z;
  opt_shardsFn : K -> Z;
  opt_cacherMaker : nat -> ShardSlot K V + E }.
Arguments mkoptions {_ _ _ _ _} _ _ _.
Arguments opt_maxShards {_ _ _ _ _} _.
Arguments opt_shardsFn {_ _ _ _ _} _.
Arguments opt_cacherMaker {_ _ _ _ _} _.

(** The errors of construction: an [ErrorInvalidOptions], or the error
    returned by a [cacherMaker] call. *)
Inductive new_error (E : Type) := InvalidOptions | MakerError (e : E).
Arguments InvalidOptions {E}.
Arguments MakerError {E} e.

Section Construction.
Context {K : Type} `{Countable K} {V E : Type}.

(** [toOptions], with [numCPU] as [cpu].  The division computing
    [perShardCapacity] panics when [maxShards] is 0. *)
Definition toOptions (o : Options K V E) (cpu : Z) : outcome (options K V E + new_error E) :=
  if Capacity o =? 0 then Returned (inr InvalidOptions) else
  match ShardsFn o, CacherMaker o with
  | None, _ => Returned (inr InvalidOptions)
  | _, None => Returned (inr InvalidOptions)
  | Some sf, Some cm =>
      let maxShards := computeMaxshards (Capacity o) (TargetPerShard o) (MinShards o) cpu in
      if maxShards =? 0 then Panicked else
      let perShardCapacity := u64 (Capacity o + maxShards - 1) / maxShards in
      Returned (inl (mkoptions maxShards (fun k => sf k maxShards) (fun n => cm n perShardCapacity)))
  end.

(** The loop [for i := range maxShards { shards[i], err = cacherMaker() ... }]:
    calls [i], [i+1], ..., stopping at the first error. *)
Fixpoint make_shards (cm : nat -> ShardSlot K V + E) (i n : nat) : list (ShardSlot K V) + E :=
  match n with
  | O => inl []
  | S n' =>
      match cm i with
      | inr e => inr e
      | inl s => match make_shards cm (S i) n' with inl l => inl (s :: l) | inr e => inr e end
      end
  end.

(** [newCache]. *)
Definition newCache (maxShards : Z) (shardsFn : option (K -> Z))
    (cacherMaker : option (nat -> ShardSlot K V + E)) : Router K V + new_error E :=
  if maxShards =? 0 then inr InvalidOptions else
  match shardsFn, cacherMaker with
  | None, _ => inr InvalidOptions
  | _, None => inr InvalidOptions
  | Some sf, Some cm =>
      match make_shards cm 0 (Z.to_nat maxShards) with
      | inl shs => inl (mkRouter sf maxShards shs)
      | inr e => inr (MakerError e)
      end
  end.

(** [New]: [toOptions], then [newCache]. *)
Definition New (o : Options K V E) (cpu : Z) : outcome (Router K V + new_error E) :=
  match toOptions o cpu with
  | Panicked => Panicked
  | Returned (inr e) => Returned (inr e)
  | Returned (inl o1) =>
      Returned (newCache (opt_maxShards o1) (Some (opt_shardsFn o1)) (Some (opt_cacherMaker o1)))
  end.

(** [keyToShardIndex]; [idx % 0] panics. *)
Definition keyToShardIndex (c : Router K V) (key : K) : outcome Z :=
  let idx := shardsFn c key in
  if idx >=? maxShards c then
    if maxShards c =? 0 then Panicked else Returned (idx mod maxShards c)
  else Returned idx.

(** [c.shards[c.keyToShardIndex(key)]], as [Get], [Put] and [Delete] read
    it; an index out of range panics. *)
Definition shard_of (c : Router K V) (key : K) : outcome (ShardSlot K V) :=
  match keyToShardIndex c key with
  | Panicked => Panicked
  | Returned i => match shards c !! Z.to_nat i with Some s => Returned s | None => Panicked end
  end.

End Construction.

(** Two single-entry shards; the visitor counts calls and stops on key 1. *)
Definition witness_router : Router nat nat :=
  mkRouter (fun k => Z.of_nat k) 2
    [Live (Lru.mkCache false {[1%nat := 0%nat]} (Lru.mkList [(0%nat, (1%nat, 10%nat))] 1 1 None));
     Live (Lru.mkCache false {[2%nat := 0%nat]} (Lru.mkList [(0%nat, (2%nat, 20%nat))] 1 1 None))].

Definition witness_visitor (n : nat) (k v : nat) : nat * bool := (S n, negb (k =? 1)%nat).

(** A [CacherMaker] that builds an LRU engine of the per-shard capacity
    (whose [New] error, for capacity 0, is the maker's error). *)
Definition witness_maker (n : nat) (per : Z) : ShardSlot nat nat + unit :=
  match Lru.New (K:=nat) (V:=nat) per None with Some c => inl (Live c) | None => inr tt end.

(** Capacity 10, 3 entries per shard, the given minimum, keys routed by value. *)
Definition witness_options (minShards : Z) : Options nat nat unit :=
  mkOptions 10 3 minShards (Some (fun k _ => Z.of_nat k)) (Some witness_maker).

End Shard.

(** * The binary heap of [src/heap/heap.go] *)
Module Heap.
Section Heap.
Context {T : Type} (less : T -> T -> bool).

(** A heap is its slice [data]; [less] is the [LessFunc]. *)

(** [lessIndex]; indices are always in range where the code calls it. *)
Definition lessIndex (data : list T) (i j : nat) : bool :=
  match data !! i, data !! j with
  | Some a, Some b => less a b
  | _, _ => false
  end.

(** [swap]: [h.data[i], h.data[j] = h.data[j], h.data[i]]. *)
Definition swap (data : list T) (i j : nat) : list T :=
  match data !! i, data !! j with
  | Some a, Some b => <[j := a]> (<[i := b]> data)
  | _, _ => data
  end.

(** [up]: [i := (j - 1) / 2] is Go's truncating division, so [j = 0] gives
    [i = 0 = j] as the natural-number subtraction does.  The loop runs at
    most [j + 1] times, which is the fuel. *)
Fixpoint up_loop (fuel : nat) (data : list T) (j : nat) : list T :=
  match fuel with
  | O => data
  | S f =>
      let i := ((j - 1) / 2)%nat in
      if (i =? j)%nat || negb (lessIndex data j i) then data
      else up_loop f (swap data i j) i
  end.

Definition up (data : list T) (j : nat) : list T := up_loop (S j) data j.

(** [down]: the loop runs at most [n] times (the index grows and stays
    below [n]). *)
Fixpoint down_loop (fuel : nat) (data : list T) (i n : nat) : list T * nat :=
  match fuel with
  | O => (data, i)
  | S f =>
      let j1 := (2 * i + 1)%nat in
      if (n <=? j1)%nat then (data, i)
      else
        let j := if (j1 + 1 <? n)%nat && lessIndex data (j1 + 1) j1 then (j1 + 1)%nat else j1 in
        if negb (lessIndex data j i) then (data, i)
        else down_loop f (swap data i j) j n
  end.

Definition down (data : list T) (i0 n : nat) : list T * bool :=
  let '(d, i) := down_loop n data i0 n in (d, (i0 <? i)%nat).

(** [Push]: append, then [up(len(h.data) - 1)]. *)
Definition Push (data : list T) (x : T) : list T := up (data ++ [x]) (length data).

(** [Pop]: [None] is the panic on an empty heap. *)
Definition Pop (data : list T) : option (list T * T) :=
  match data with
  | [] => None
  | _ =>
      let n := (length data - 1)%nat in
      let d1 := swap data 0 n in
      let d2 := (down d1 0 n).1 in
      match d2 !! n with
      | Some x => Some (take n d2, x)
      | None => None
      end
  end.

(** [Peep]. *)
Definition Peep (data : list T) : option T := data !! 0%nat.

(** [Fix]: [down(i, len(h.data))], then [up(i)] if the element did not move
    down.  [None] is the panic of [up] reading [h.data[i]] past the end
    (for [i = 0] on an empty heap [up] stops at once). *)
Definition Fix (data : list T) (i : nat) : option (list T) :=
  let '(d, moved) := down data i (length data) in
  if moved then Some d
  else if (i =? 0)%nat || (i <? length data)%nat then Some (up d i) else None.

End Heap.
End Heap.

(** * The expiry map of [src/internal/list.go] *)
Module Expiry.
Section Expiry.
Context {K : Type} `{Countable K}.

(** [Handle]. *)
Record Handle := mkHandle { expiryTime : Z }.

(** Where the background goroutine [run] is: before [setupTimer], blocked
    in [waitEvent], before [getExpiryRecords], about to call [onExpiry] on
    the detached bucket [b] with key set [s], or returned. *)
Inductive Pc := PSetup | PWait | PExpire | PReport (b : Z) (s : gset K) | PDone.

(** [ExpiryMap] with the world around it: the clock [now], whether [quit]
    is closed, the one-slot [wakeUp] channel (full or empty), the [run]
    goroutine's armed timer (its firing instant) and position.  [setPool] is
    the [sync.Pool] of key sets (its [Get] takes the last [Put] set, or a
    new empty one); [onExpiry] is only observed as present or [nil]. *)
Record ExpiryMap := mkMap {
  now : Z;
  timeHeap : list Z;
  nextExpiryTime : Z;
  bucketSize : Z;
  expiryTimes : gmap Z (gset K);
  wakeUp : bool;
  quit : bool;
  timer : option Z;
  pc : Pc;
  setPool : list (gset K);
  avgSetSize : Z;
  onExpiry : bool }.

(** [avgSetSizeSmoothing]. *)
Definition avgSetSizeSmoothing : Z := 16.

(** [timeHeapLessThan]: [t1.Before(t2)]. *)
Definition timeHeapLessThan (t1 t2 : Z) : bool := t1 <? t2.

(** [time.Time.Truncate]: rounds down to a multiple of [d] since the zero
    time; [d <= 0] leaves [t] unchanged. *)
Definition truncate (t d : Z) : Z := if d <=? 0 then t else t - t mod d.

(** The rounding at the start of [Register]. *)
Definition normalize (d t : Z) : Z :=
  if truncate t d =? t then t else truncate (t + (d - 1)) d.

Definition pool_get (pool : list (gset K)) : gset K * list (gset K) :=
  match pool with
  | s :: p => (s, p)
  | [] => (∅, [])
  end.

(** [newIntern] and the start of [run], at clock [t0]. *)
Definition New (onExpiry : bool) (bucketSize t0 : Z) : ExpiryMap :=
  mkMap t0 [] 0 bucketSize ∅ false false None PSetup [] 64 onExpiry.

(** [Register]. *)
Definition Register (r : ExpiryMap) (key : K) (t : Z) : ExpiryMap * Handle :=
  let t := normalize (bucketSize r) t in
  match expiryTimes r !! t with
  | Some s =>
      (mkMap (now r) (timeHeap r) (nextExpiryTime r) (bucketSize r)
         (<[t := {[key]} ∪ s]> (expiryTimes r)) (wakeUp r) (quit r) (timer r) (pc r)
         (setPool r) (avgSetSize r) (onExpiry r), mkHandle t)
  | None =>
      let '(s, pool) := pool_get (setPool r) in
      let wake := (t <? nextExpiryTime r) || (nextExpiryTime r =? 0) in
      (mkMap (now r) (Heap.Push timeHeapLessThan (timeHeap r) t) (nextExpiryTime r) (bucketSize r)
         (<[t := {[key]} ∪ s]> (expiryTimes r)) (wakeUp r || wake) (quit r) (timer r) (pc r)
         pool (avgSetSize r) (onExpiry r), mkHandle t)
  end.

(** [Unregister]. *)
Definition Unregister (r : ExpiryMap) (h : Handle) (key : K) : ExpiryMap :=
  match expiryTimes r !! expiryTime h with
  | Some s =>
      let s := s ∖ {[key]} in
      if (size s =? 0)%nat then
        mkMap (now r) (timeHeap r) (nextExpiryTime r) (bucketSize r)
          (delete (expiryTime h) (expiryTimes r)) true (quit r) (timer r) (pc r)
          (if Z.of_nat (size s) <=? avgSetSize r * 2 then s :: setPool r else setPool r)
          (avgSetSize r) (onExpiry r)
      else
        mkMap (now r) (timeHeap r) (nextExpiryTime r) (bucketSize r)
          (<[expiryTime h := s]> (expiryTimes r)) (wakeUp r) (quit r) (timer r) (pc r)
          (setPool r) (avgSetSize r) (onExpiry r)
  | None => r
  end.

(** [setupTimer]: the timer fires [max 0 (expiredAt - now)] from now; with
    an empty heap it returns [nil]. *)
Definition setupTimer (r : ExpiryMap) : ExpiryMap :=
  match Heap.Peep (timeHeap r) with
  | None =>
      mkMap (now r) (timeHeap r) (nextExpiryTime r) (bucketSize r) (expiryTimes r)
        (wakeUp r) (quit r) None PWait (setPool r) (avgSetSize r) (onExpiry r)
  | Some expiredAt =>
      let delay := Z.max 0 (expiredAt - now r) in
      mkMap (now r) (timeHeap r) expiredAt (bucketSize r) (expiryTimes r)
        (wakeUp r) (quit r) (Some (now r + delay)) PWait (setPool r) (avgSetSize r) (onExpiry r)
  end.

(** The branch [waitEvent]'s [select] takes; it must be ready.  Timers
    follow Go 1.23 semantics (the module uses [iter]): after [Stop] no stale
    value is received. *)
Inductive WaitChoice := WQuit | WWake | WTick.

Definition waitEvent (r : ExpiryMap) (w : WaitChoice) : option ExpiryMap :=
  match w with
  | WQuit =>
      if quit r then
        Some (mkMap (now r) (timeHeap r) (nextExpiryTime r) (bucketSize r) (expiryTimes r)
                (wakeUp r) (quit r) None PDone (setPool r) (avgSetSize r) (onExpiry r))
      else None
  | WWake =>
      if wakeUp r then
        Some (mkMap (now r) (timeHeap r) (nextExpiryTime r) (bucketSize r) (expiryTimes r)
                false (quit r) None PSetup (setPool r) (avgSetSize r) (onExpiry r))
      else None
  | WTick =>
      match timer r with
      | Some f =>
          if f <=? now r then
            Some (mkMap (now r) (timeHeap r) (nextExpiryTime r) (bucketSize r) (expiryTimes r)
                    (wakeUp r) (quit r) None PExpire (setPool r) (avgSetSize r) (onExpiry r))
          else None
      | None => None
      end
  end.

(** [getExpiryRecords]: the detached bucket and its deadline, if any. *)
Definition getExpiryRecords (r : ExpiryMap) : ExpiryMap * option (Z * gset K) :=
  match Heap.Peep (timeHeap r) with
  | None => (r, None)
  | Some expiredAt =>
      let heap := match Heap.Pop timeHeapLessThan (timeHeap r) with
                  | Some (d, _) => d
                  | None => timeHeap r
                  end in
      match expiryTimes r !! expiredAt with
      | None =>
          (mkMap (now r) heap (nextExpiryTime r) (bucketSize r) (expiryTimes r)
             (wakeUp r) (quit r) (timer r) (pc r) (setPool r) (avgSetSize r) (onExpiry r), None)
      | Some s =>
          (mkMap (now r) heap (nextExpiryTime r) (bucketSize r) (delete expiredAt (expiryTimes r))
             (wakeUp r) (quit r) (timer r) (pc r) (setPool r)
             (Z.quot (avgSetSize r * (avgSetSizeSmoothing - 1) + Z.of_nat (size s)) avgSetSizeSmoothing)
             (onExpiry r), Some (expiredAt, s))
      end
  end.

(** What the system records: registrations (with the bucket deadline the
    handle carries), unregistrations, the detaching of a bucket by the
    worker at time [t], and the [onExpiry] call reporting a key set. *)
Inductive Event :=
  | EvRegister (k : K) (t : Z) (b : Z)
  | EvUnregister (b : Z) (k : K)
  | EvFire (t : Z) (b : Z) (s : gset K)
  | EvReport (t : Z) (b : Z) (s : gset K).

Definition with_pc (r : ExpiryMap) (p : Pc) : ExpiryMap :=
  mkMap (now r) (timeHeap r) (nextExpiryTime r) (bucketSize r) (expiryTimes r)
    (wakeUp r) (quit r) (timer r) p (setPool r) (avgSetSize r) (onExpiry r).

(** One atomic step of the [run] goroutine. *)
Definition worker_step (r : ExpiryMap) (w : WaitChoice) : option (ExpiryMap * list Event) :=
  match pc r with
  | PSetup => Some (setupTimer r, [])
  | PWait => r' ← waitEvent r w; Some (r', [])
  | PExpire =>
      let '(r', res) := getExpiryRecords r in
      match res with
      | None => Some (with_pc r' PSetup, [])
      | Some (b, s) =>
          if (size s =? 0)%nat then Some (with_pc r' PSetup, [EvFire (now r) b s])
          else Some (with_pc r' (PReport b s), [EvFire (now r) b s])
      end
  | PReport b s =>
      let evs := if onExpiry r then [EvReport (now r) b s] else [] in
      Some (mkMap (now r) (timeHeap r) (nextExpiryTime r) (bucketSize r) (expiryTimes r)
              (wakeUp r) (quit r) (timer r) PSetup
              (if Z.of_nat (size s) <=? avgSetSize r * 2 then ∅ :: setPool r else setPool r)
              (avgSetSize r) (onExpiry r), evs)
  | PDone => None
  end.

(** The interleaving of client calls, the clock and the worker. *)
Inductive Action :=
  | ARegister (k : K) (t : Z)
  | AUnregister (h : Handle) (k : K)
  | AAdvance (dt : Z)
  | AShutdown
  | AWorker (w : WaitChoice).

(** [None]: the action cannot happen (the worker is blocked or has
    returned, time cannot go back, [quit] cannot be closed twice). *)
Definition step (r : ExpiryMap) (a : Action) : option (ExpiryMap * list Event) :=
  match a with
  | ARegister k t => let '(r', h) := Register r k t in Some (r', [EvRegister k t (expiryTime h)])
  | AUnregister h k => Some (Unregister r h k, [EvUnregister (expiryTime h) k])
  | AAdvance dt =>
      if 0 <=? dt then
        Some (mkMap (now r + dt) (timeHeap r) (nextExpiryTime r) (bucketSize r) (expiryTimes r)
                (wakeUp r) (quit r) (timer r) (pc r) (setPool r) (avgSetSize r) (onExpiry r), [])
      else None
  | AShutdown =>
      if quit r then None
      else Some (mkMap (now r) (timeHeap r) (nextExpiryTime r) (bucketSize r) (expiryTimes r)
                   (wakeUp r) true (timer r) (pc r) (setPool r) (avgSetSize r) (onExpiry r), [])
  | AWorker w => worker_step r w
  end.

Fixpoint run_actions (r : ExpiryMap) (acts : list Action) : option (ExpiryMap * list Event) :=
  match acts with
  | [] => Some (r, [])
  | a :: acts' =>
      '(r1, evs1) ← step r a;
      '(r2, evs2) ← run_actions r1 acts';
      Some (r2, evs1 ++ evs2)
  end.

(** Whether [k] is in the bucket [b] after the events [rlog] (most recent
    first): the latest [Register] of [k] into [b], [Unregister] of [k] from
    [b] or detaching of [b] decides. *)
Fixpoint registered (k : K) (b : Z) (rlog : list Event) : bool :=
  match rlog with
  | [] => false
  | EvRegister k' _ b' :: r => if decide (k' = k /\ b' = b) then true else registered k b r
  | EvUnregister b' k' :: r => if decide (k' = k /\ b' = b) then false else registered k b r
  | EvFire _ b' _ :: r => if decide (b' = b) then false else registered k b r
  | EvReport _ _ _ :: r => registered k b r
  end.

(** Membership of [k] in the bucket [b]. *)
Definition in_bucket (m : gmap Z (gset K)) (b : Z) (k : K) : Prop :=
  match m !! b with Some s => k ∈ s | None => False end.

End Expiry.
End Expiry.

(** * Proofs about the LRU engine *)
Module LruSpec.
Import Lru.

(** ** Well-formedness of the LRU state and its abstract view *)
Section LruFacts.
Context {K : Type} `{Countable K} {V : Type}.
Implicit Types (c : @Cache K _ _ V) (o : list (@Node K V)) (l : list (@Entry K V)).

(** The entries from most- to least-recently used. *)
Definition view c : list Entry := map snd (order (queue c)).

(** Lookup in an association list (first match). *)
Fixpoint assoc (k : K) (l : list (K * V)) : option V :=
  match l with
  | [] => None
  | (k', v) :: l' => if decide (k = k') then Some v else assoc k l'
  end.

(** Invariant: node identities are distinct, [items] indexes exactly the
    linked nodes by their key, and identities are below [next_id]. *)
Definition WF c : Prop :=
  NoDup (map fst (order (queue c))) /\
  (forall k n, items c !! k = Some n <-> exists v, (n, (k, v)) ∈ order (queue c)) /\
  (forall n e, (n, e) ∈ order (queue c) -> (n < next_id (queue c))%nat).

(** *** The cache as an association list, most-recently-used first *)

Definition drop_key (k : K) (l : list (@Entry K V)) : list (@Entry K V) :=
  filter (fun e : Entry => e.1 <> k) l.

(** [Get]: a hit moves the entry to the front. *)
Definition abs_touch (k : K) (l : list (@Entry K V)) : list (@Entry K V) :=
  match assoc k l with
  | Some v => (k, v) :: drop_key k l
  | None => l
  end.

(** [Put]: the new contents and the evicted entries. *)
Definition abs_put (cap : Z) (k : K) (v : V) (l : list (@Entry K V)) : list (@Entry K V) * list (@Entry K V) :=
  match assoc k l with
  | Some _ => ((k, v) :: drop_key k l, [])
  | None =>
      if Z.of_nat (length l) =? cap then
        match last l with
        | Some e => ((k, v) :: removelast l, [e])
        | None => ([(k, v)], [])
        end
      else ((k, v) :: l, [])
  end.

(** [Delete]. *)
Definition abs_delete (k : K) (l : list (@Entry K V)) : list (@Entry K V) * list (@Entry K V) :=
  match assoc k l with
  | Some v => (drop_key k l, [(k, v)])
  | None => (l, [])
  end.

Definition params c : Z * option (@CBFunc K V) := (capacity (queue c), onEvict (queue c)).

(** The callback invocations made for a list of [OnEvict] calls. *)
Definition invocations (cb : option (@CBFunc K V)) (evs : list (@Entry K V)) : list (@Entry K V) :=
  match cb with Some _ => evs | None => [] end.

(** *** Client sessions: sequences of operations and their event log *)

(** The operations of [iface.Cache] on an [lru.Cache]. *)
Inductive Op :=
  | OGet (k : K) | OPut (k : K) (v : V) | ODelete (k : K) | OReset | OShutdown.

Inductive Reply :=
  | RGet (r : option V * option cache_error)
  | RPut (r : option cache_error)
  | RDelete (r : bool * option cache_error)
  | RReset (r : option cache_error)
  | RShutdown.

Definition map_step {A} (f : A -> Reply) (s : @Step K _ _ V A) : @Step K _ _ V Reply :=
  mkStep (st s) (evicted s) (invoked s)
    (match ret s with Returned a => Returned (f a) | Panicked => Panicked end).

Definition exec c (op : Op) : @Step K _ _ V Reply :=
  match op with
  | OGet k => map_step RGet (Get c k)
  | OPut k v => map_step RPut (Put c k v)
  | ODelete k => map_step RDelete (Delete c k)
  | OReset => map_step RReset (Reset c)
  | OShutdown => map_step (fun _ => RShutdown) (Shutdown c)
  end.

(** What a client observes: the operations, what [Get] returned, and the
    entries handed to the eviction path ([c.queue.OnEvict]). *)
Inductive Event :=
  | EvGet (k : K) (found : option V)
  | EvPut (k : K) (v : V)
  | EvDelete (k : K)
  | EvReset
  | EvShutdown
  | EvEvict (k : K) (v : V).

Definition op_event (op : Op) (r : outcome Reply) : Event :=
  match op with
  | OGet k => EvGet k (match r with Returned (RGet (Some v, _)) => Some v | _ => None end)
  | OPut k v => EvPut k v
  | ODelete k => EvDelete k
  | OReset => EvReset
  | OShutdown => EvShutdown
  end.

Definition evict_event (e : @Entry K V) : Event := EvEvict e.1 e.2.

(** The events of one operation: its evictions, then the operation itself. *)
Definition events c (op : Op) : list Event :=
  map evict_event (evicted (exec c op)) ++ [op_event op (ret (exec c op))].

(** Running a session from a state: the final state and the event log. *)
Fixpoint run c (ops : list Op) : Cache * list Event :=
  match ops with
  | [] => (c, [])
  | op :: ops' =>
      let '(c', log) := run (st (exec c op)) ops' in (c', events c op ++ log)
  end.

(** The events that decide whether [k] is stored: a [Put] of [k] stores it,
    an eviction or a [Delete] of [k] removes it. *)
Definition decides (k : K) (ev : Event) : bool :=
  match ev with
  | EvPut k' _ | EvDelete k' | EvEvict k' _ => bool_decide (k = k')
  | _ => false
  end.

(** The most recent deciding event for [k], in a log read backwards. *)
Fixpoint last_fate (k : K) (rlog : list Event) : option (option V) :=
  match rlog with
  | [] => None
  | ev :: r =>
      match ev with
      | EvPut k' v => if decide (k = k') then Some (Some v) else last_fate k r
      | EvDelete k' | EvEvict k' _ => if decide (k = k') then Some None else last_fate k r
      | _ => last_fate k r
      end
  end.

(** A key is touched by a [Put] of it and by a [Get] that finds it. *)
Definition touches (k : K) (ev : Event) : bool :=
  match ev with
  | EvPut k' _ | EvGet k' (Some _) => bool_decide (k = k')
  | _ => false
  end.

(** How many events ago [k] was last touched, in a log read backwards. *)
Fixpoint touch_age (k : K) (rlog : list Event) : option nat :=
  match rlog with
  | [] => None
  | ev :: r => if touches k ev then Some O else S <$> touch_age k r
  end.

Definition age_lt (log : list Event) (k1 k2 : K) : Prop :=
  exists a1 a2, touch_age k1 (rev log) = Some a1 /\ touch_age k2 (rev log) = Some a2 /\
    (a1 < a2)%nat.

(** The recency invariant: most recently touched first, every entry touched. *)
Definition age_sorted (log : list Event) (l : list (@Entry K V)) : Prop :=
  StronglySorted (fun e1 e2 : @Entry K V => age_lt log e1.1 e2.1) l /\
  forall e, e ∈ l -> is_Some (touch_age e.1 (rev log)).

(** The invariant of a session without [Shutdown], for the parameters [p]
    fixed by [New]. *)
Definition active_inv (p : Z * option (@CBFunc K V)) c (log : list Event) : Prop :=
  WF c /\ isShutdown c = false /\ params c = p /\
  (forall k, assoc k (view c) = match last_fate k (rev log) with Some r => r | None => None end) /\
  age_sorted log (view c).

Lemma node_value_sound n o e : node_value n o = Some e -> (n, e) ∈ o.
Proof.
  induction o as [|[m e'] o IH]; simpl; [discriminate|].
  case_decide; [intros [= <-]; subst; left|intros; right; auto].
Qed.

Lemma node_value_complete n o e :
  NoDup (map fst o) -> (n, e) ∈ o -> node_value n o = Some e.
Proof.
  induction o as [|[m e'] o IH]; simpl; intros Hnd Hin; [set_solver|].
  apply NoDup_cons in Hnd as [Hm Hnd].
  apply elem_of_cons in Hin as [Heq|Hin].
  - injection Heq as -> ->. by rewrite decide_True.
  - case_decide; [|auto]. subst. exfalso. apply Hm.
    apply list_elem_of_fmap. exists (n, e). auto.
Qed.

(** Under [WF], two nodes with the same key are the same node. *)
Lemma WF_keyed c m1 m2 k v1 v2 :
  WF c -> (m1, (k, v1)) ∈ order (queue c) -> (m2, (k, v2)) ∈ order (queue c) ->
  m1 = m2 /\ v1 = v2.
Proof.
  intros (Hnd & Hit & _) H1 H2.
  assert (items c !! k = Some m1) as E1 by (apply Hit; eauto).
  assert (items c !! k = Some m2) as E2 by (apply Hit; eauto).
  rewrite E1 in E2. injection E2 as <-. split; [done|].
  apply (node_value_complete _ _ _ Hnd) in H1, H2. congruence.
Qed.

Lemma NoDup_keys_of o :
  NoDup (map fst o) ->
  (forall m1 m2 k v1 v2, (m1, (k, v1)) ∈ o -> (m2, (k, v2)) ∈ o -> m1 = m2) ->
  NoDup (map fst (map snd o)).
Proof.
  induction o as [|[m [k v]] o IH]; simpl; intros Hnd Hk; [constructor|].
  apply NoDup_cons in Hnd as [Hm Hnd]. constructor.
  - intros Hin. apply list_elem_of_fmap in Hin as [[k' v'] [Ek Hin]].
    simpl in Ek; subst k'.
    apply list_elem_of_fmap in Hin as [[m' e'] [Ee Hin]]. simpl in Ee; subst e'.
    assert (m = m') as <- by (eapply Hk; [left|right; exact Hin]).
    apply Hm. apply list_elem_of_fmap. exists (m, (k, v')). auto.
  - apply IH; [done|]. intros. eapply Hk; right; eauto.
Qed.

Lemma WF_NoDup_keys c : WF c -> NoDup (map fst (view c)).
Proof.
  intros HW. unfold view. apply NoDup_keys_of; [apply HW|].
  intros. eapply WF_keyed; eauto.
Qed.

Lemma assoc_In k v l : assoc k l = Some v -> (k, v) ∈ l.
Proof.
  induction l as [|[k' v'] l IH]; simpl; [discriminate|].
  case_decide; [intros [= <-]; subst; left|intros; right; auto].
Qed.

Lemma assoc_complete k v l : NoDup (map fst l) -> (k, v) ∈ l -> assoc k l = Some v.
Proof.
  induction l as [|[k' v'] l IH]; simpl; intros Hnd Hin; [set_solver|].
  apply NoDup_cons in Hnd as [Hk Hnd].
  apply elem_of_cons in Hin as [Heq|Hin].
  - injection Heq as -> ->. by rewrite decide_True.
  - case_decide; [|auto]. subst. exfalso. apply Hk.
    apply list_elem_of_fmap. exists (k', v). auto.
Qed.

Lemma assoc_None k l : assoc k l = None <-> k ∉ map fst l.
Proof.
  induction l as [|[k' v'] l IH]; simpl; [set_solver|].
  case_decide; subst; [split; [discriminate|set_solver]|].
  rewrite IH. set_solver.
Qed.

Lemma unlink_not_in n o : n ∉ map fst o -> unlink n o = o.
Proof.
  unfold unlink. induction o as [|[m e] o IH]; simpl; intros Hn; [done|].
  rewrite filter_cons_True by (simpl; set_solver). f_equal. apply IH. set_solver.
Qed.

(** Unlinking the node of key [k] removes exactly the entries of key [k]. *)
Lemma unlink_view n k o :
  (forall m k' v', (m, (k', v')) ∈ o -> (m = n <-> k' = k)) ->
  map snd (unlink n o) = filter (fun e : Entry => e.1 <> k) (map snd o).
Proof.
  induction o as [|[m [k' v']] o IH]; simpl; intros Hiff; [done|].
  unfold unlink in *. rewrite filter_cons. simpl. rewrite filter_cons. simpl.
  pose proof (Hiff m k' v' ltac:(left)) as Hmk.
  assert (map snd (filter (fun p : Node => p.1 <> n) o) =
          filter (fun e : Entry => e.1 <> k) (map snd o)) as E
    by (apply IH; intros m0 k0 v0 Hin; apply (Hiff m0 k0 v0); right; exact Hin).
  destruct (decide (m <> n)) as [Hm|Hm]; destruct (decide (k' <> k)) as [Hk|Hk];
    simpl; rewrite ?E; try reflexivity; tauto.
Qed.

Lemma WF_unlink_view c n k v :
  WF c -> (n, (k, v)) ∈ order (queue c) ->
  map snd (unlink n (order (queue c))) = filter (fun e : Entry => e.1 <> k) (view c).
Proof.
  intros HW Hin. apply unlink_view. intros m k' v' Hin'. split.
  - intros ->. destruct HW as (Hnd & _). 
    apply (node_value_complete _ _ _ Hnd) in Hin, Hin'. congruence.
  - intros ->. eapply WF_keyed; eauto.
Qed.


Lemma unlink_elem x n o : x ∈ unlink n o <-> x.1 <> n /\ x ∈ o.
Proof. unfold unlink. rewrite list_elem_of_filter. done. Qed.

Lemma NoDup_unlink n o : NoDup (map fst o) -> NoDup (map fst (unlink n o)).
Proof.
  unfold unlink. induction o as [|[m e] o IH]; simpl; intros Hnd; [constructor|].
  apply NoDup_cons in Hnd as [Hm Hnd]. rewrite filter_cons.
  case_decide; simpl; [|auto]. constructor; [|auto].
  intros Hin. apply Hm. apply list_elem_of_fmap in Hin as [y [Ey Hy]].
  apply list_elem_of_filter in Hy as [_ Hy]. apply list_elem_of_fmap. eauto.
Qed.

Lemma not_in_unlink n o : n ∉ map fst (unlink n o).
Proof.
  intros Hin. apply list_elem_of_fmap in Hin as [y [Ey Hy]].
  apply unlink_elem in Hy as [Hy _]. auto.
Qed.

Lemma unlink_cons_same n e o : unlink n ((n, e) :: o) = unlink n o.
Proof. unfold unlink. rewrite filter_cons_False; simpl; tauto. Qed.

Lemma with_order_order (l : @List K V) : with_order l (order l) = l.
Proof. by destruct l. Qed.

(** [WF] only depends on the members of the order, given distinct identities. *)
Lemma WF_same_members c b o' :
  WF c -> NoDup (map fst o') -> (forall x, x ∈ o' <-> x ∈ order (queue c)) ->
  WF (mkCache b (items c) (with_order (queue c) o')).
Proof.
  intros (Hnd & Hit & Hlt) Hnd' Hmem. split; [done|]. simpl. split.
  - intros k n. rewrite Hit. split; intros [v Hv]; exists v; apply Hmem; done.
  - intros n e Hin. apply Hmem in Hin. eauto.
Qed.

Lemma move_members n e o :
  NoDup (map fst o) -> (n, e) ∈ o ->
  NoDup (map fst ((n, e) :: unlink n o)) /\
  (forall x, x ∈ (n, e) :: unlink n o <-> x ∈ o).
Proof.
  intros Hnd Hin. split.
  - simpl. constructor; [apply not_in_unlink|by apply NoDup_unlink].
  - intros [m e']. rewrite elem_of_cons, unlink_elem. simpl. split.
    + intros [[= -> ->]|[_ H']]; done.
    + intros H'. destruct (decide (m = n)) as [->|Hne]; [left|right; done].
      apply (node_value_complete _ _ _ Hnd) in Hin, H'. congruence.
Qed.

Lemma MoveToFront_spec c k n :
  WF c -> items c !! k = Some n ->
  exists v, (n, (k, v)) ∈ order (queue c) /\
    MoveToFront (queue c) n =
      Some (with_order (queue c) ((n, (k, v)) :: unlink n (order (queue c)))).
Proof.
  intros HW Hk. pose proof HW as (Hnd & Hit & _).
  apply Hit in Hk as [v Hin]. exists v. split; [done|].
  unfold MoveToFront. rewrite (node_value_complete _ _ _ Hnd Hin).
  destruct (order (queue c)) as [|[m e] rest] eqn:Eo; [set_solver|].
  case_decide as Hm; [|done]. subst m. f_equal.
  simpl in Hnd. apply NoDup_cons in Hnd as [Hn Hnd].
  assert (e = (k, v)) as ->.
  { pose proof (node_value_complete n ((n, e) :: rest) (k, v)) as Hc.
    simpl in Hc. rewrite decide_True in Hc by done.
    symmetry. injection (Hc ltac:(simpl; constructor; done) Hin). done. }
  rewrite unlink_cons_same, (unlink_not_in n rest Hn).
  transitivity (with_order (queue c) (order (queue c))).
  - symmetry. apply with_order_order.
  - by rewrite Eo.
Qed.

Lemma set_value_fst n v o : map fst (set_value n v o) = map fst o.
Proof.
  induction o as [|[m e] o IH]; simpl; [done|]. case_decide; simpl; by rewrite IH.
Qed.

Lemma set_value_keyed n v o m k :
  (exists v0, (m, (k, v0)) ∈ set_value n v o) <-> (exists v0, (m, (k, v0)) ∈ o).
Proof.
  induction o as [|[m' [k' v']] o IH]; simpl; [set_solver|].
  split.
  - intros [v0 Hv0]. case_decide; apply elem_of_cons in Hv0 as [E|Hv0];
      try (injection E as -> -> ->; eexists; left);
      try (assert (exists v1, (m, (k, v1)) ∈ o) as [v1 ?] by (apply IH; eauto);
           exists v1; right; done).
  - intros [v0 Hv0]. apply elem_of_cons in Hv0 as [E|Hv0].
    + injection E as -> -> ->. case_decide; eexists; left.
    + destruct (proj2 IH (ex_intro _ v0 Hv0)) as [v1 Hv1].
      exists v1. case_decide; right; done.
Qed.

Lemma set_value_not_in n v o : n ∉ map fst o -> set_value n v o = o.
Proof.
  induction o as [|[m e] o IH]; simpl; intros Hn; [done|].
  rewrite decide_False by set_solver. f_equal. apply IH. set_solver.
Qed.

(** Removing the node [n] of key [k] from the list and [k] from the index. *)
Lemma remove_node_WF c b n k v :
  WF c -> (n, (k, v)) ∈ order (queue c) ->
  WF (mkCache b (delete k (items c)) (with_order (queue c) (unlink n (order (queue c))))) /\
  view (mkCache b (delete k (items c)) (with_order (queue c) (unlink n (order (queue c)))))
    = filter (fun e : Entry => e.1 <> k) (view c).
Proof.
  intros HW Hin. split; [|apply (WF_unlink_view c n k v HW Hin)].
  pose proof HW as (Hnd & Hit & Hlt).
  split; [by apply NoDup_unlink|]. simpl. split.
  - intros k' m. destruct (decide (k' = k)) as [->|Hk].
    + rewrite lookup_delete_eq. split; [discriminate|].
      intros [v' Hv']. apply unlink_elem in Hv' as [Hm Hv']. simpl in Hm.
      destruct (WF_keyed c m n k v' v HW Hv' Hin). done.
    + rewrite lookup_delete_ne by done. rewrite Hit.
      split; intros [v' Hv']; exists v'.
      * apply unlink_elem. split; [|done]. simpl. intros ->.
        apply (node_value_complete _ _ _ Hnd) in Hin, Hv'. congruence.
      * apply unlink_elem in Hv' as [_ Hv']. done.
  - intros m e Hm. apply unlink_elem in Hm as [_ Hm]. eauto.
Qed.

(** Pushing a fresh node for a key that is not indexed. *)
Lemma push_front_WF c b k v :
  WF c -> items c !! k = None ->
  WF (mkCache b (<[k := next_id (queue c)]> (items c)) (PushFront (queue c) k v).1) /\
  view (mkCache b (<[k := next_id (queue c)]> (items c)) (PushFront (queue c) k v).1)
    = (k, v) :: view c.
Proof.
  intros (Hnd & Hit & Hlt) Hk. split; [|done].
  unfold WF. cbn [items queue order next_id PushFront fst]. split; [|split].
  - constructor; [|done]. intros Hin. apply list_elem_of_fmap in Hin as [[m e] [Em Hm]].
    simpl in Em. subst m. apply Hlt in Hm. lia.
  - intros k' m. destruct (decide (k' = k)) as [->|Hne].
    + rewrite lookup_insert_eq. split.
      * intros [= <-]. exists v. left.
      * intros [v' Hv']. apply elem_of_cons in Hv' as [E|Hv']; [congruence|].
        exfalso. assert (items c !! k = Some m) by (apply Hit; eauto). congruence.
    + rewrite lookup_insert_ne by congruence. rewrite Hit. split.
      * intros [v' Hv']. exists v'. right. done.
      * intros [v' Hv']. apply elem_of_cons in Hv' as [E|Hv']; [congruence|eauto].
  - intros m e Hm. apply elem_of_cons in Hm as [E|Hm]; [injection E as -> _; lia|].
    apply Hlt in Hm. lia.
Qed.


Lemma OnEvict_spec (q : @List K V) en inv r :
  OnEvict q en = (inv, r) ->
  inv = invocations (onEvict q) [en] /\
  (r = Panicked -> exists f, onEvict q = Some f /\ f en.1 en.2 = CbPanic).
Proof.
  unfold OnEvict, invocations. destruct (onEvict q) as [f|]; simpl.
  - destruct (f en.1 en.2) eqn:Ef; intros [= <- <-]; split; eauto; discriminate.
  - intros [= <- <-]. split; [done|discriminate].
Qed.

Lemma WF_assoc_Some c k n v :
  WF c -> (n, (k, v)) ∈ order (queue c) -> assoc k (view c) = Some v.
Proof.
  intros HW Hin. apply assoc_complete; [by apply WF_NoDup_keys|].
  unfold view. apply list_elem_of_fmap. exists (n, (k, v)). auto.
Qed.

Lemma WF_assoc_None c k : WF c -> items c !! k = None -> assoc k (view c) = None.
Proof.
  intros (Hnd & Hit & _) Hk. apply assoc_None. intros Hin.
  apply list_elem_of_fmap in Hin as [[k' v] [Ek Hin]]. simpl in Ek; subst k'.
  apply list_elem_of_fmap in Hin as [[n e] [Ee Hin]]. simpl in Ee; subst e.
  assert (items c !! k = Some n) by (apply Hit; eauto). congruence.
Qed.

Lemma drop_key_not_in k l : k ∉ map fst l -> drop_key k l = l.
Proof.
  unfold drop_key. induction l as [|[k' v] l IH]; simpl; intros Hk; [done|].
  rewrite filter_cons_True by (simpl; set_solver). f_equal. apply IH. set_solver.
Qed.

Lemma drop_key_last k v l :
  NoDup (map fst (l ++ [(k, v)])) -> drop_key k (l ++ [(k, v)]) = l.
Proof.
  intros Hnd. unfold drop_key. rewrite filter_app. simpl.
  rewrite filter_cons_False by (simpl; tauto). rewrite filter_nil, app_nil_r.
  apply drop_key_not_in. rewrite map_app in Hnd. simpl in Hnd.
  apply NoDup_app in Hnd as (_ & Hd & _). intros Hin. apply (Hd k Hin). left.
Qed.

(** [evict]: removes the back entry from the index and from the list. *)
Lemma evict_ref c :
  WF c ->
  match evict c with
  | (c1, Some e) =>
      WF c1 /\ isShutdown c1 = isShutdown c /\ params c1 = params c /\
      next_id (queue c1) = next_id (queue c) /\ items c1 = delete e.1 (items c) /\
      view c = view c1 ++ [e]
  | (c1, None) => c1 = c /\ view c = []
  end.
Proof.
  intros HW. unfold evict, Back.
  destruct (last (order (queue c))) as [[n [k0 v0]]|] eqn:El.
  - pose proof (last_Some_elem_of _ _ El) as Hin.
    unfold Remove. rewrite (node_value_complete _ _ _ (proj1 HW) Hin).
    destruct (remove_node_WF c (isShutdown c) n k0 v0 HW Hin) as [HW' Hv'].
    split; [done|]. split; [done|]. split; [done|]. split; [done|]. split; [done|].
    rewrite Hv'.
    apply last_Some in El as [o' Eo].
    unfold view. rewrite Eo, map_app.
    change (map snd [(n, (k0, v0))]) with [(k0, v0)].
    change (filter _ (map snd o' ++ [(k0, v0)])) with (drop_key k0 (map snd o' ++ [(k0, v0)])).
    rewrite drop_key_last; [done|].
    replace (map snd o' ++ [(k0, v0)]) with (view c) by (unfold view; rewrite Eo, map_app; done).
    by apply WF_NoDup_keys.
  - apply last_None in El. unfold view. rewrite El. done.
Qed.


Lemma with_order_twice (q : @List K V) o1 o2 : with_order (with_order q o1) o2 = with_order q o2.
Proof. done. Qed.

(** Moving node [n] of key [k] to the front with the value [v]. *)
Lemma WF_replace_head c b n k v0 v :
  WF c -> (n, (k, v0)) ∈ order (queue c) ->
  WF (mkCache b (items c) (with_order (queue c) ((n, (k, v)) :: unlink n (order (queue c))))) /\
  view (mkCache b (items c) (with_order (queue c) ((n, (k, v)) :: unlink n (order (queue c)))))
    = (k, v) :: drop_key k (view c).
Proof.
  intros HW Hin. pose proof HW as (Hnd & Hit & Hlt). split.
  - split; [|split].
    + simpl. constructor; [apply not_in_unlink|by apply NoDup_unlink].
    + simpl. intros k' m. rewrite Hit. split.
      * intros [v1 Hv1]. destruct (decide (m = n)) as [->|Hne].
        -- assert (k' = k) as ->.
           { apply (node_value_complete _ _ _ Hnd) in Hin, Hv1. congruence. }
           exists v. left.
        -- exists v1. right. apply unlink_elem. done.
      * intros [v' Hv']. apply elem_of_cons in Hv' as [E|Hv'].
        -- injection E as -> -> ->. eauto.
        -- apply unlink_elem in Hv' as [_ Hv']. eauto.
    + simpl. intros m e Hm. apply elem_of_cons in Hm as [E|Hm].
      * injection E as -> _. eauto.
      * apply unlink_elem in Hm as [_ Hm]. eauto.
  - unfold view at 1. simpl. f_equal. apply (WF_unlink_view c n k v0 HW Hin).
Qed.

Lemma view_length c : length (view c) = length (order (queue c)).
Proof. unfold view. apply length_map. Qed.

Local Ltac finish_ref :=
  split; [done|repeat split; try done; unfold invocations; repeat case_match; done].

(** [Get] on an active cache. *)
Lemma Get_ref c k :
  WF c -> isShutdown c = false ->
  WF (st (Get c k)) /\ isShutdown (st (Get c k)) = false /\ params (st (Get c k)) = params c /\
  view (st (Get c k)) = abs_touch k (view c) /\
  evicted (Get c k) = [] /\ invoked (Get c k) = [] /\
  ret (Get c k) = Returned (assoc k (view c), None).
Proof.
  intros HW Hsd. unfold Get, abs_touch. rewrite Hsd.
  destruct (items c !! k) as [n|] eqn:Ek.
  - destruct (MoveToFront_spec c k n HW Ek) as (v & Hin & EM). rewrite EM.
    rewrite (WF_assoc_Some c k n v HW Hin).
    destruct (WF_replace_head c false n k v v HW Hin) as [HW' Hv'].
    cbn [order with_order]. simpl node_value. rewrite decide_True by done.
    simpl. try rewrite Hsd in *. finish_ref.
  - rewrite (WF_assoc_None c k HW Ek). simpl. rewrite Hsd. finish_ref.
Qed.

(** [Put] on an active cache. *)
Lemma Put_ref c k v :
  WF c -> isShutdown c = false ->
  WF (st (Put c k v)) /\ isShutdown (st (Put c k v)) = false /\
  params (st (Put c k v)) = params c /\
  view (st (Put c k v)) = (abs_put (capacity (queue c)) k v (view c)).1 /\
  evicted (Put c k v) = (abs_put (capacity (queue c)) k v (view c)).2 /\
  invoked (Put c k v) = invocations (onEvict (queue c)) (evicted (Put c k v)).
Proof.
  intros HW Hsd. unfold Put, abs_put. rewrite Hsd.
  destruct (items c !! k) as [n|] eqn:Ek.
  - destruct (MoveToFront_spec c k n HW Ek) as (v0 & Hin & EM). rewrite EM.
    rewrite (WF_assoc_Some c k n v0 HW Hin).
    destruct (WF_replace_head c false n k v0 v HW Hin) as [HW' Hv'].
    cbn [order with_order]. simpl set_value. rewrite decide_True by done.
    rewrite set_value_not_in by apply not_in_unlink.
    rewrite with_order_twice. simpl. try rewrite Hsd in *. finish_ref.
  - rewrite (WF_assoc_None c k HW Ek).
    unfold Size, Capacity. rewrite <- view_length.
    destruct (Z.of_nat (length (view c)) =? capacity (queue c)) eqn:Ecap.
    + pose proof (evict_ref c HW) as Hev.
      destruct (evict c) as [c1 [e|]] eqn:Eev.
      * destruct Hev as (HW1 & Hsd1 & Hp1 & _ & Hit1 & Hv1).
        assert (items c1 !! k = None) as Ek1 by (rewrite Hit1; apply lookup_delete_None; auto).
        destruct (push_front_WF c1 (isShutdown c1) k v HW1 Ek1) as [HW2 Hv2].
        rewrite Hv1, last_snoc, removelast_last.
        unfold PushFront in *. simpl in *.
        match goal with |- context [OnEvict ?q e] => destruct (OnEvict q e) as [inv o] eqn:EO end.
        apply OnEvict_spec in EO as [-> _]. simpl in *.
        rewrite Hsd in Hsd1. unfold params in Hp1. injection Hp1 as Hc1 Hcb1.
        rewrite Hv2, Hc1, Hcb1, Hsd1. finish_ref.
      * destruct Hev as [-> Hv0]. rewrite Hv0. simpl.
        destruct (push_front_WF c false k v HW Ek) as [HW2 Hv2].
        unfold PushFront in *. simpl in *. rewrite Hsd, Hv2, Hv0. finish_ref.
    + destruct (push_front_WF c false k v HW Ek) as [HW2 Hv2].
      unfold PushFront in *. simpl in *. rewrite Hsd, Hv2. finish_ref.
Qed.

(** [Delete] on an active cache. *)
Lemma Delete_ref c k :
  WF c -> isShutdown c = false ->
  WF (st (Delete c k)) /\ isShutdown (st (Delete c k)) = false /\
  params (st (Delete c k)) = params c /\
  view (st (Delete c k)) = (abs_delete k (view c)).1 /\
  evicted (Delete c k) = (abs_delete k (view c)).2 /\
  invoked (Delete c k) = invocations (onEvict (queue c)) (evicted (Delete c k)).
Proof.
  intros HW Hsd. unfold Delete, abs_delete. rewrite Hsd.
  destruct (items c !! k) as [n|] eqn:Ek.
  - pose proof HW as (Hnd & Hit & _). apply Hit in Ek as Hin. destruct Hin as [v Hin].
    rewrite (WF_assoc_Some c k n v HW Hin).
    destruct (remove_node_WF c false n k v HW Hin) as [HW' Hv'].
    unfold Remove. rewrite (node_value_complete _ _ _ Hnd Hin).
    match goal with |- context [OnEvict ?q (k, v)] => destruct (OnEvict q (k, v)) as [inv o] eqn:EO end.
    apply OnEvict_spec in EO as [-> _]. simpl in *. finish_ref.
  - rewrite (WF_assoc_None c k HW Ek). simpl. rewrite Hsd. finish_ref.
Qed.


Lemma invocations_app cb l1 l2 :
  invocations cb (l1 ++ l2) = invocations cb l1 ++ invocations cb l2.
Proof. unfold invocations. by destruct cb. Qed.

(** The eviction loop of [reset]: the evicted entries are the back of the
    list, back first; it empties the list unless a callback panics. *)
Lemma reset_loop_ref fuel c :
  WF c ->
  let '(c', evs, inv, o) := reset_loop fuel c in
  WF c' /\ isShutdown c' = isShutdown c /\ params c' = params c /\
  view c = view c' ++ rev evs /\ inv = invocations (onEvict (queue c)) evs /\
  (o = Returned tt -> (length (view c) < fuel)%nat -> view c' = []).
Proof.
  revert c. induction fuel as [|f IH]; intros c HW; simpl.
  - split; [done|]. split; [done|]. split; [done|]. split; [by rewrite app_nil_r|].
    split; [unfold invocations; by case_match|]. intros _ Hl. lia.
  - pose proof (evict_ref c HW) as Hev. destruct (evict c) as [c1 [e|]].
    + destruct Hev as (HW1 & Hsd1 & Hp1 & _ & _ & Hv1).
      destruct (OnEvict (queue c1) e) as [inv0 o0] eqn:EO.
      apply OnEvict_spec in EO as [Einv _].
      assert (onEvict (queue c1) = onEvict (queue c)) as Ecb by (unfold params in Hp1; congruence).
      rewrite Ecb in Einv. destruct o0 as [[]|].
      * specialize (IH c1 HW1). destruct (reset_loop f c1) as [[[c'' evs] invs] o'].
        destruct IH as (HW'' & Hsd'' & Hp'' & Hv'' & Hinv'' & Hret'').
        split; [done|]. split; [congruence|]. split; [congruence|]. split.
        { rewrite Hv1, Hv''. simpl. by rewrite app_assoc. }
        split.
        { rewrite Einv, Hinv'', Ecb. rewrite <- invocations_app. done. }
        intros Ho Hlen. apply Hret''; [done|].
        rewrite Hv1, length_app in Hlen. simpl in Hlen. lia.
      * split; [done|]. split; [done|]. split; [done|]. split; [done|]. split; [done|].
        discriminate.
    + destruct Hev as [-> Hv0]. split; [done|]. split; [done|]. split; [done|].
      split; [by rewrite app_nil_r|]. split; [unfold invocations; by case_match|]. done.
Qed.

Lemma reset_ref c :
  WF c ->
  let '(c', evs, inv, o) := reset c in
  WF c' /\ isShutdown c' = isShutdown c /\ params c' = params c /\
  view c = view c' ++ rev evs /\ inv = invocations (onEvict (queue c)) evs /\
  (o = Returned tt -> view c' = []).
Proof.
  intros HW. unfold reset. pose proof (reset_loop_ref (S (length (order (queue c)))) c HW) as Hr.
  destruct (reset_loop _ c) as [[[c' evs] inv] o].
  destruct Hr as (? & ? & ? & ? & ? & Hret). do 5 (split; [done|]).
  intros Ho. apply Hret; [done|]. rewrite view_length. lia.
Qed.

(** [Reset] on an active cache. *)
Lemma Reset_ref c :
  WF c -> isShutdown c = false ->
  WF (st (Reset c)) /\ isShutdown (st (Reset c)) = false /\
  params (st (Reset c)) = params c /\
  view c = view (st (Reset c)) ++ rev (evicted (Reset c)) /\
  invoked (Reset c) = invocations (onEvict (queue c)) (evicted (Reset c)) /\
  (ret (Reset c) <> Panicked -> view (st (Reset c)) = []).
Proof.
  intros HW Hsd. unfold Reset. rewrite Hsd.
  pose proof (reset_ref c HW) as Hr. destruct (reset c) as [[[c' evs] inv] o].
  destruct Hr as (? & ? & ? & ? & ? & Hret). simpl.
  do 5 (split; [first [done|congruence]|]). intros Ho. apply Hret. destruct o as [[]|]; done.
Qed.

(** [Shutdown] on an active cache. *)
Lemma Shutdown_ref c :
  WF c -> isShutdown c = false ->
  WF (st (Shutdown c)) /\ isShutdown (st (Shutdown c)) = true /\
  params (st (Shutdown c)) = params c /\
  view c = view (st (Shutdown c)) ++ rev (evicted (Shutdown c)) /\
  invoked (Shutdown c) = invocations (onEvict (queue c)) (evicted (Shutdown c)) /\
  (ret (Shutdown c) <> Panicked -> view (st (Shutdown c)) = []).
Proof.
  intros HW Hsd. unfold Shutdown. rewrite Hsd.
  assert (WF (mkCache true (items c) (queue c))) as HW1 by apply HW.
  pose proof (reset_ref _ HW1) as Hr.
  destruct (reset (mkCache true (items c) (queue c))) as [[[c' evs] inv] o].
  destruct Hr as (HW' & Hsd' & Hp' & Hv' & Hinv & Hret). simpl in *.
  destruct o as [[]|]; simpl.
  - split.
    + split; [constructor|]. split; [|set_solver]. intros k n. simpl. rewrite lookup_empty. set_solver.
    + do 2 (split; [done|]). split; [|done].
      change (view c = [] ++ rev evs). rewrite <- (Hret eq_refl). done.
  - do 5 (split; [first [done|congruence]|]). congruence.
Qed.


(** *** Association-list facts *)

Lemma assoc_app k l1 l2 :
  assoc k (l1 ++ l2) = match assoc k l1 with Some v => Some v | None => assoc k l2 end.
Proof.
  induction l1 as [|[k' v'] l1 IH]; simpl; [done|]. by case_decide.
Qed.

Lemma assoc_drop_key k' k l :
  assoc k' (drop_key k l) = if decide (k' = k) then None else assoc k' l.
Proof.
  unfold drop_key. induction l as [|[k1 v1] l IH]; simpl.
  - by case_decide.
  - rewrite filter_cons. simpl. destruct (decide (k1 <> k)) as [Hne|Heq]; simpl.
    + rewrite IH. repeat case_decide; subst; done.
    + rewrite IH. apply dec_stable in Heq. subst. repeat case_decide; subst; done.
Qed.

Lemma assoc_abs_touch k' k l : assoc k' (abs_touch k l) = assoc k' l.
Proof.
  unfold abs_touch. destruct (assoc k l) eqn:E; [|done]. simpl.
  rewrite assoc_drop_key. repeat case_decide; subst; done.
Qed.

Lemma keys_drop_key k l : map fst (drop_key k l) = filter (fun k' => k' <> k) (map fst l).
Proof.
  unfold drop_key. induction l as [|[k1 v1] l IH]; [done|].
  simpl. rewrite !filter_cons. simpl. repeat case_decide; simpl; rewrite ?IH; tauto.
Qed.

Lemma NoDup_drop_key k l : NoDup (map fst l) -> NoDup (map fst (drop_key k l)).
Proof. rewrite keys_drop_key. apply NoDup_filter. Qed.

Lemma elem_of_keys_drop_key k' k l : k' ∈ map fst (drop_key k l) <-> k' <> k /\ k' ∈ map fst l.
Proof. rewrite keys_drop_key, list_elem_of_filter. done. Qed.

Lemma assoc_In_keys k v l : assoc k l = Some v -> k ∈ map fst l.
Proof. intros Ha%assoc_In. apply list_elem_of_fmap. exists (k, v). done. Qed.

(** Filtering out the entries whose key survives. *)
Lemma filter_removed (keep : list K) l1 l2 :
  (forall e, e ∈ l1 -> e.1 ∈ keep) -> (forall e, e ∈ l2 -> e.1 ∉ keep) ->
  filter (fun e : @Entry K V => e.1 ∉ keep) (l1 ++ l2) = l2.
Proof.
  intros H1 H2. rewrite filter_app.
  assert (filter (fun e : @Entry K V => e.1 ∉ keep) l1 = []) as ->.
  { induction l1 as [|x l1 IH]; [done|]. rewrite filter_cons_False.
    - apply IH. intros e He. apply H1. by right.
    - intros Hn. apply Hn, H1. left. }
  simpl. induction l2 as [|x l2 IH]; [done|]. rewrite filter_cons_True.
  - f_equal. apply IH. intros e He. apply H2. by right.
  - apply H2. left.
Qed.

(** *** Event-log facts *)

Lemma last_fate_app k r1 r2 :
  last_fate k (r1 ++ r2) = match last_fate k r1 with Some r => Some r | None => last_fate k r2 end.
Proof.
  induction r1 as [|ev r1 IH]; simpl; [done|].
  destruct ev; rewrite ?IH; try done; by case_decide.
Qed.

Lemma last_fate_evicts k evs :
  last_fate k (map evict_event evs) = if decide (k ∈ map fst evs) then Some None else None.
Proof.
  induction evs as [|[k1 v1] evs IH]; simpl; [done|].
  rewrite IH. repeat case_decide; subst; set_solver.
Qed.

Lemma touch_age_app k r1 r2 :
  touch_age k (r1 ++ r2) =
    match touch_age k r1 with Some a => Some a | None => Nat.add (length r1) <$> touch_age k r2 end.
Proof.
  induction r1 as [|ev r1 IH]; simpl.
  - by destruct (touch_age k r2).
  - destruct (touches k ev); [done|]. rewrite IH.
    destruct (touch_age k r1), (touch_age k r2); done.
Qed.

Lemma touch_age_evicts k evs : touch_age k (map evict_event evs) = None.
Proof. induction evs as [|e evs IH]; simpl; [done|]. by rewrite IH. Qed.

Lemma rev_events c op :
  rev (events c op) = op_event op (ret (exec c op)) :: map evict_event (rev (evicted (exec c op))).
Proof. unfold events. rewrite rev_app_distr, map_rev. done. Qed.


Lemma NoDup_of_keys (l : list (@Entry K V)) : NoDup (map fst l) -> NoDup l.
Proof.
  induction l as [|x l IH]; simpl; intros Hnd; [constructor|].
  apply NoDup_cons in Hnd as [Hx Hnd]. constructor; [|auto].
  intros Hin. apply Hx. apply list_elem_of_fmap. eauto.
Qed.

Lemma keys_assoc k l : k ∈ map fst l <-> exists v, assoc k l = Some v.
Proof.
  split.
  - intros Hk. destruct (assoc k l) eqn:E; [eauto|]. apply assoc_None in E. done.
  - intros [v Hv]. by eapply assoc_In_keys.
Qed.

Lemma key_in_view (e : @Entry K V) l : e ∈ l -> e.1 ∈ map fst l.
Proof. intros He. apply list_elem_of_fmap. eauto. Qed.

(** The removed entries, as a set. *)
Lemma removed_perm (keep : list K) l evs :
  NoDup (map fst l) -> NoDup evs ->
  (forall e, e ∈ evs <-> e ∈ l /\ e.1 ∉ keep) ->
  evs ≡ₚ filter (fun e : @Entry K V => e.1 ∉ keep) l.
Proof.
  intros Hnd Hev Hiff. apply NoDup_Permutation; [done| |].
  - apply NoDup_filter. by apply NoDup_of_keys.
  - intros e. rewrite Hiff, list_elem_of_filter. tauto.
Qed.

Lemma removed_split (keep : list K) l1 l2 :
  NoDup (map fst (l1 ++ l2)) -> (forall k, k ∈ keep <-> k ∈ map fst l1) ->
  l2 = filter (fun e : @Entry K V => e.1 ∉ keep) (l1 ++ l2).
Proof.
  intros Hnd Hk. symmetry. apply filter_removed.
  - intros e He. apply Hk. by apply key_in_view.
  - intros e He Hin. apply Hk in Hin. rewrite map_app in Hnd.
    apply NoDup_app in Hnd as (_ & Hd & _). apply (Hd e.1 Hin). by apply key_in_view.
Qed.


Lemma no_removed (keep : list K) l :
  (forall e, e ∈ l -> e.1 ∈ keep) -> filter (fun e : @Entry K V => e.1 ∉ keep) l = [].
Proof.
  intros H1. rewrite <- (app_nil_r l). apply filter_removed; [|set_solver].
  intros e He. by apply H1.
Qed.

Lemma exec_shutdown c op :
  isShutdown c = true ->
  st (exec c op) = c /\ evicted (exec c op) = [] /\ invoked (exec c op) = [].
Proof.
  intros Hsd. destruct op; simpl; unfold Get, Put, Delete, Reset, Shutdown; rewrite Hsd; done.
Qed.

(** The entries an operation removes, whatever the cache's mode. *)
Lemma exec_removed c op :
  WF c ->
  WF (st (exec c op)) /\ params (st (exec c op)) = params c /\
  evicted (exec c op) ≡ₚ
    (filter (fun e : @Entry K V => e.1 ∉ map fst (view (st (exec c op)))) (view c)) /\
  invoked (exec c op) = invocations (onEvict (queue c)) (evicted (exec c op)).
Proof.
  intros HW. pose proof (WF_NoDup_keys c HW) as Hnd.
  destruct (isShutdown c) eqn:Hsd.
  { destruct (exec_shutdown c op Hsd) as (-> & -> & ->). do 2 (split; [done|]).
    split; [|by unfold invocations; case_match]. rewrite no_removed; [done|].
    intros e He. by apply key_in_view. }
  destruct op as [k|k v|k| |]; simpl.
  - destruct (Get_ref c k HW Hsd) as (HW' & _ & Hp & Hv & Hev & Hinv & _).
    rewrite Hv, Hev, Hinv. do 2 (split; [done|]). split; [|by unfold invocations; case_match].
    rewrite no_removed; [done|]. intros e He. apply keys_assoc. rewrite assoc_abs_touch.
    apply keys_assoc. by apply key_in_view.
  - destruct (Put_ref c k v HW Hsd) as (HW' & _ & Hp & Hv & Hev & Hinv).
    rewrite Hv, Hev, <- Hev, Hinv. do 2 (split; [done|]). split; [|done].
    rewrite Hev. unfold abs_put. destruct (assoc k (view c)) as [v0|] eqn:Ek.
    + rewrite no_removed; [done|]. intros [k1 v1] He. simpl.
      destruct (decide (k1 = k)) as [->|Hne]; [left|right].
      apply elem_of_keys_drop_key. split; [done|]. by apply (key_in_view (k1, v1)).
    + case_match.
      * destruct (last (view c)) as [e0|] eqn:El.
        -- apply last_Some in El as [r Er]. rewrite Er, removelast_last.
           rewrite Er in Hnd, Ek. simpl. apply removed_perm; [done|apply NoDup_singleton|].
           apply assoc_None in Ek. rewrite map_app in Hnd, Ek.
           apply NoDup_app in Hnd as (_ & Hd & _).
           intros e. rewrite list_elem_of_singleton, elem_of_app, list_elem_of_singleton.
           split.
           ++ intros ->. split; [by right|]. rewrite elem_of_cons. intros [E|E].
              ** apply Ek. rewrite <- E. apply elem_of_app. right. left.
              ** apply (Hd e0.1 E). left.
           ++ intros [[Hr | ->] Hk]; [|done]. exfalso. apply Hk. right. by apply key_in_view.
        -- apply last_None in El. by rewrite El.
      * rewrite no_removed; [done|]. intros e He. right. by apply key_in_view.
  - destruct (Delete_ref c k HW Hsd) as (HW' & _ & Hp & Hv & Hev & Hinv).
    rewrite Hv, Hev, <- Hev, Hinv. do 2 (split; [done|]). split; [|done].
    rewrite Hev. unfold abs_delete. destruct (assoc k (view c)) as [v0|] eqn:Ek; simpl.
    + apply removed_perm; [done|apply NoDup_singleton|]. intros [k1 v1].
      rewrite list_elem_of_singleton, elem_of_keys_drop_key. split.
      * intros [= -> ->]. split; [by apply assoc_In|]. tauto.
      * intros [Hin Hk]. simpl in Hk. assert (k1 = k) as -> by (destruct (decide (k1 = k)); [done|]; exfalso; apply Hk; split; [done|by apply (key_in_view (k1, v1))]).
        apply (assoc_complete _ _ _ Hnd) in Hin. congruence.
    + rewrite no_removed; [done|]. intros e He. by apply key_in_view.
  - destruct (Reset_ref c HW Hsd) as (HW' & _ & Hp & Hv & Hinv & _).
    do 2 (split; [done|]). split; [|done].
    rewrite Hv. rewrite <- removed_split.
    + apply Permutation_rev.
    + by rewrite <- Hv.
    + done.
  - destruct (Shutdown_ref c HW Hsd) as (HW' & _ & Hp & Hv & Hinv & _).
    do 2 (split; [done|]). split; [|done].
    rewrite Hv. rewrite <- removed_split.
    + apply Permutation_rev.
    + by rewrite <- Hv.
    + done.
Qed.


(** On an active cache, every operation but [Shutdown] changes the stored
    value of a key exactly as its events decide. *)
Lemma exec_fate c op :
  WF c -> isShutdown c = false -> op <> OShutdown ->
  isShutdown (st (exec c op)) = false /\
  forall k', assoc k' (view (st (exec c op))) =
    match last_fate k' (rev (events c op)) with Some r => r | None => assoc k' (view c) end.
Proof.
  intros HW Hsd Hop. pose proof (WF_NoDup_keys c HW) as Hnd.
  rewrite rev_events. destruct op as [k|k v|k| |]; simpl.
  - destruct (Get_ref c k HW Hsd) as (_ & Hsd' & _ & Hv & Hev & _).
    split; [done|]. intros k'. rewrite Hv, Hev. simpl. apply assoc_abs_touch.
  - destruct (Put_ref c k v HW Hsd) as (_ & Hsd' & _ & Hv & Hev & _).
    split; [done|]. intros k'. rewrite Hv, Hev, last_fate_evicts.
    unfold abs_put. destruct (assoc k (view c)) as [v0|] eqn:Ek.
    + simpl. case_decide; [done|]. rewrite assoc_drop_key. by rewrite !decide_False.
    + case_match.
      * destruct (last (view c)) as [e0|] eqn:El.
        -- apply last_Some in El as [r Er]. rewrite Er, removelast_last. simpl.
           case_decide; [done|]. rewrite Er in Hnd. rewrite map_app in Hnd.
           apply NoDup_app in Hnd as (_ & Hd & _). case_decide as Hk'.
           ++ apply list_elem_of_singleton in Hk'. subst k'. apply assoc_None.
              intros Hin. apply (Hd _ Hin). left.
           ++ rewrite assoc_app. destruct (assoc k' r); [done|]. simpl.
              destruct e0 as [k0 v0']. rewrite decide_False; [done|]. intros ->. apply Hk'. left.
        -- apply last_None in El. rewrite El. simpl. by case_decide.
      * simpl. by case_decide.
  - destruct (Delete_ref c k HW Hsd) as (_ & Hsd' & _ & Hv & Hev & _).
    split; [done|]. intros k'. rewrite Hv, Hev, last_fate_evicts. unfold abs_delete.
    destruct (assoc k (view c)) as [v0|] eqn:Ek; simpl.
    + rewrite assoc_drop_key. case_decide; [done|]. rewrite decide_False; [done|]. set_solver.
    + case_decide; subst; done.
  - destruct (Reset_ref c HW Hsd) as (_ & Hsd' & _ & Hv & _ & _).
    split; [done|]. intros k'. rewrite last_fate_evicts.
    pose proof Hnd as Hnd'. rewrite Hv, map_app in Hnd'.
    apply NoDup_app in Hnd' as (_ & Hd & _). rewrite Hv, assoc_app. case_decide as Hk'.
    + assert (assoc k' (view (st (Reset c))) = None) as -> by
        (apply assoc_None; intros Hin; exact (Hd _ Hin Hk')). done.
    + destruct (assoc k' (view (st (Reset c)))); [done|]. symmetry. by apply assoc_None.
  - done.
Qed.


(** *** Recency of the entries *)

Lemma SS_sublist {A} (R : A -> A -> Prop) xs ys :
  xs `sublist_of` ys -> StronglySorted R ys -> StronglySorted R xs.
Proof.
  induction 1 as [|x xs ys Hs IH|x xs ys Hs IH]; intros HS; [constructor| |].
  - apply StronglySorted_inv in HS as [HS HF]. constructor; [auto|].
    rewrite Forall_forall in HF |- *. intros y Hy. apply HF. by eapply elem_of_sublist.
  - apply StronglySorted_inv in HS as [HS _]. auto.
Qed.

Lemma SS_impl {A} (R R' : A -> A -> Prop) zs :
  (forall x y, x ∈ zs -> y ∈ zs -> R x y -> R' x y) -> StronglySorted R zs -> StronglySorted R' zs.
Proof.
  induction zs as [|x zs IH]; intros Himp HS; [constructor|].
  apply StronglySorted_inv in HS as [HS HF]. constructor.
  - apply IH; [|done]. intros; apply Himp; auto; by right.
  - rewrite Forall_forall in HF |- *. intros y Hy. apply Himp; [left|by right|by apply HF].
Qed.

Lemma SS_last {A} (R : A -> A -> Prop) r x :
  StronglySorted R (r ++ [x]) -> forall y, y ∈ r -> R y x.
Proof.
  induction r as [|z r IH]; simpl; intros HS y Hy; [set_solver|].
  apply StronglySorted_inv in HS as [HS HF]. apply elem_of_cons in Hy as [->|Hy].
  - rewrite Forall_forall in HF. apply HF. apply elem_of_app. right. left.
  - by apply IH.
Qed.

Lemma touches_same k1 k2 ev : touches k1 ev = true -> touches k2 ev = true -> k1 = k2.
Proof.
  destruct ev as [k f| k v| | | |]; simpl; try discriminate;
    [destruct f; [|discriminate]|]; intros H1 H2;
    apply bool_decide_eq_true in H1, H2; congruence.
Qed.

(** The age of a key after the events of one operation. *)
Lemma touch_age_step k log ev ope :
  touch_age k (rev (log ++ map evict_event ev ++ [ope])) =
    if touches k ope then Some O
    else (fun a => S (length ev + a)) <$> touch_age k (rev log).
Proof.
  rewrite !rev_app_distr. simpl. destruct (touches k ope); [done|].
  rewrite <- map_rev, touch_age_app, touch_age_evicts, length_map, length_rev.
  by destruct (touch_age k (rev log)).
Qed.


Lemma age_sorted_keep log ev ope l l' :
  age_sorted log l -> l' `sublist_of` l -> (forall e, e ∈ l' -> touches e.1 ope = false) ->
  age_sorted (log ++ map evict_event ev ++ [ope]) l'.
Proof.
  intros [HS Hsome] Hsub Hnt. split.
  - apply (SS_impl (fun e1 e2 : @Entry K V => age_lt log e1.1 e2.1)).
    + intros x y Hx Hy (a1 & a2 & E1 & E2 & Hlt). exists (S (length ev + a1)), (S (length ev + a2)).
      rewrite !touch_age_step, Hnt, Hnt, E1, E2 by done. split; [done|]. split; [done|]. lia.
    + by apply (SS_sublist _ _ _ Hsub).
  - intros e He. rewrite touch_age_step, Hnt by done.
    destruct (Hsome e (elem_of_sublist _ _ _ He Hsub)) as [a Ea]. rewrite Ea. by eexists.
Qed.

Lemma age_sorted_front log ev ope k v l l' :
  age_sorted log l -> l' `sublist_of` l -> touches k ope = true ->
  (forall e, e ∈ l' -> e.1 <> k) ->
  age_sorted (log ++ map evict_event ev ++ [ope]) ((k, v) :: l').
Proof.
  intros HA Hsub Hk Hne.
  assert (forall e, e ∈ l' -> touches e.1 ope = false) as Hnt.
  { intros e He. destruct (touches e.1 ope) eqn:Et; [|done].
    exfalso. apply (Hne e He). by apply (touches_same _ _ ope). }
  destruct (age_sorted_keep log ev ope l l' HA Hsub Hnt) as [HS Hsome].
  split.
  - constructor; [done|]. rewrite Forall_forall. intros e He.
    destruct (Hsome e He) as [a Ea]. exists O, a. split; [simpl; by rewrite touch_age_step, Hk|].
    split; [done|]. rewrite touch_age_step, Hnt in Ea by done.
    destruct (touch_age e.1 (rev log)); simpl in Ea; [|discriminate]. injection Ea as <-. lia.
  - intros e He. apply elem_of_cons in He as [->|He]; [|by apply Hsome].
    simpl. rewrite touch_age_step, Hk. by eexists.
Qed.


Lemma drop_key_sublist k l : drop_key k l `sublist_of` l.
Proof. apply sublist_filter. Qed.

Lemma drop_key_ne k l e : e ∈ drop_key k l -> e.1 <> k.
Proof. unfold drop_key. rewrite list_elem_of_filter. tauto. Qed.

(** Every operation but [Shutdown] keeps the entries in recency order. *)
Lemma exec_age c log op :
  WF c -> isShutdown c = false -> op <> OShutdown -> age_sorted log (view c) ->
  age_sorted (log ++ events c op) (view (st (exec c op))).
Proof.
  intros HW Hsd Hop HA. unfold events.
  destruct op as [k|k v|k| |]; simpl.
  - destruct (Get_ref c k HW Hsd) as (_ & _ & _ & Hv & _ & _ & Hr).
    rewrite Hv, Hr. unfold abs_touch. destruct (assoc k (view c)) as [v|] eqn:Ek.
    + apply age_sorted_front with (l := view c); [done|apply drop_key_sublist| |apply drop_key_ne].
      simpl. by apply bool_decide_eq_true.
    + by apply age_sorted_keep with (l := view c).
  - destruct (Put_ref c k v HW Hsd) as (_ & _ & _ & Hv & _ & _).
    rewrite Hv. assert (touches k (EvPut k v) = true) as Ht by (simpl; by apply bool_decide_eq_true).
    unfold abs_put. destruct (assoc k (view c)) as [v0|] eqn:Ek.
    + apply age_sorted_front with (l := view c); [done|apply drop_key_sublist|done|apply drop_key_ne].
    + apply assoc_None in Ek. case_match.
      * destruct (last (view c)) as [e0|] eqn:El.
        -- apply last_Some in El as [r Er]. rewrite Er, removelast_last.
           apply age_sorted_front with (l := view c); [done| |done|].
           ++ rewrite Er. apply sublist_inserts_r. done.
           ++ intros e He Hk. apply Ek. rewrite <- Hk, Er. apply key_in_view. apply elem_of_app. by left.
        -- apply age_sorted_front with (l := view c); [done|apply sublist_nil_l|done|set_solver].
      * apply age_sorted_front with (l := view c); [done|done|done|].
        intros e He Hk. apply Ek. rewrite <- Hk. by apply key_in_view.
  - destruct (Delete_ref c k HW Hsd) as (_ & _ & _ & Hv & _ & _).
    rewrite Hv. unfold abs_delete. destruct (assoc k (view c)); simpl.
    + by apply age_sorted_keep with (l := view c); [|apply drop_key_sublist|].
    + by apply age_sorted_keep with (l := view c).
  - destruct (Reset_ref c HW Hsd) as (_ & _ & _ & Hv & _ & _).
    apply age_sorted_keep with (l := view c); [done| |done].
    rewrite Hv. apply sublist_inserts_r. done.
  - done.
Qed.


(** *** Sessions from [New] *)

Lemma New_spec cap cb c0 :
  New cap cb = Some c0 ->
  WF c0 /\ isShutdown c0 = false /\ params c0 = (int_of_uint cap, cb) /\ view c0 = [].
Proof.
  unfold New. case_match; [discriminate|]. intros [= <-].
  split; [|done]. split; [constructor|]. split; [|set_solver].
  intros k n. simpl. rewrite lookup_empty. set_solver.
Qed.

Lemma run_cons c op ops :
  run c (op :: ops) = ((run (st (exec c op)) ops).1, events c op ++ (run (st (exec c op)) ops).2).
Proof. simpl. by destruct (run (st (exec c op)) ops). Qed.

Lemma run_WF c ops : WF c -> WF (run c ops).1 /\ params (run c ops).1 = params c.
Proof.
  revert c. induction ops as [|op ops IH]; intros c HW; [done|].
  rewrite run_cons. simpl. destruct (exec_removed c op HW) as (HW' & Hp & _).
  destruct (IH _ HW') as [HW'' Hp'']. split; [done|]. congruence.
Qed.

Lemma split_last {A} (l pre post : list A) (x a : A) :
  l ++ [x] = pre ++ a :: post ->
  (post = [] /\ a = x /\ l = pre) \/ (exists post', post = post' ++ [x] /\ l = pre ++ a :: post').
Proof.
  destruct post as [|y post'] using rev_ind; intros E.
  - left. apply app_inj_tail in E as [-> ->]. done.
  - right. exists post'. rewrite app_comm_cons, app_assoc in E.
    apply app_inj_tail in E as [-> ->]. done.
Qed.

Lemma last_fate_cons k ev r :
  last_fate k (ev :: r) =
    if decides k ev then Some (match ev with EvPut _ v => Some v | _ => None end)
    else last_fate k r.
Proof. destruct ev; simpl; try done; by case_bool_decide; case_decide. Qed.

(** The stored value of a key is the value of its last [Put], unless a
    deletion or an eviction of the key came after it. *)
Lemma fate_put k v log :
  match last_fate k (rev log) with Some r => r | None => None end = Some v <->
  exists pre post, log = pre ++ EvPut k v :: post /\ Forall (fun ev => decides k ev = false) post.
Proof.
  induction log as [|ev l IH] using rev_ind.
  - simpl. split; [discriminate|]. intros (pre & post & E & _). by apply app_cons_not_nil in E.
  - rewrite rev_app_distr. cbn [rev app]. rewrite (last_fate_cons k ev (rev l)).
    destruct (decides k ev) eqn:Ed.
    + split.
      * destruct ev as [| k' v'| | | |]; try discriminate. simpl in Ed.
        apply bool_decide_eq_true in Ed as ->. intros [= ->]. exists l, []. done.
      * intros (pre & post & E & HF). apply split_last in E as [(-> & <- & ->)|(post' & -> & ->)].
        -- done.
        -- apply Forall_app in HF as [_ HF]. inversion HF. congruence.
    + rewrite IH. split.
      * intros (pre & post & -> & HF). exists pre, (post ++ [ev]). split.
        -- by rewrite <- app_assoc.
        -- apply Forall_app. split; [done|]. by constructor.
      * intros (pre & post & E & HF). apply split_last in E as [(_ & Ha & _)|(post' & -> & ->)].
        -- subst ev. unfold decides in Ed. rewrite bool_decide_eq_true_2 in Ed by done. discriminate.
        -- exists pre, post'. split; [done|]. by apply Forall_app in HF as [HF _].
Qed.



Lemma active_inv_step p c log op :
  active_inv p c log -> op <> OShutdown ->
  active_inv p (st (exec c op)) (log ++ events c op).
Proof.
  intros (HW & Hsd & Hp & Hfate & HA) Hop.
  destruct (exec_removed c op HW) as (HW' & Hp' & _).
  destruct (exec_fate c op HW Hsd Hop) as [Hsd' Hf'].
  split; [done|]. split; [done|]. split; [congruence|]. split.
  - intros k. rewrite Hf', rev_app_distr, last_fate_app.
    destruct (last_fate k (rev (events c op))); [done|]. apply Hfate.
  - by apply exec_age.
Qed.

Lemma active_inv_run p c log ops :
  active_inv p c log -> Forall (fun op => op <> OShutdown) ops ->
  active_inv p (run c ops).1 (log ++ (run c ops).2).
Proof.
  revert c log. induction ops as [|op ops IH]; intros c log HI Hops.
  - simpl. by rewrite app_nil_r.
  - apply Forall_cons in Hops as [Hop Hops]. rewrite run_cons. simpl.
    rewrite app_assoc. apply IH; [|done]. by apply active_inv_step.
Qed.

Lemma active_inv_New cap cb c0 :
  New cap cb = Some c0 -> active_inv (int_of_uint cap, cb) c0 [].
Proof.
  intros HN. destruct (New_spec cap cb c0 HN) as (HW & Hsd & Hp & Hv).
  split; [done|]. split; [done|]. split; [done|]. rewrite Hv. split; [done|].
  split; [constructor|set_solver].
Qed.


Lemma int_of_uint_nonzero cap : 0 < cap < 2^64 -> int_of_uint cap <> 0.
Proof. unfold int_of_uint. intros Hc. case_match; lia. Qed.

Lemma NoDup_keys_front (r : list (@Entry K V)) e : NoDup (map fst (r ++ [e])) -> NoDup (map fst r) /\ e.1 ∉ map fst r.
Proof.
  rewrite map_app. intros Hnd. apply NoDup_app in Hnd as (Hr & Hd & _). split; [done|].
  intros Hin. apply (Hd _ Hin). left.
Qed.

Lemma evict_isShutdown c : isShutdown (evict c).1 = isShutdown c.
Proof.
  unfold evict. destruct (Back (queue c)) as [[n [k v]]|]; [|done]. by destruct (Remove _ _).
Qed.

Lemma reset_loop_isShutdown fuel c :
  isShutdown (reset_loop fuel c).1.1.1 = isShutdown c.
Proof.
  revert c. induction fuel as [|f IH]; intros c; [done|]. simpl.
  pose proof (evict_isShutdown c) as He.
  destruct (evict c) as [c' [en|]]; [|done]. simpl in He.
  destruct (OnEvict (queue c') en) as [inv [u|]]; [|done].
  specialize (IH c'). destruct (reset_loop f c') as [[[c'' evs] invs] o']. simpl in *. congruence.
Qed.

(** After [Shutdown], whatever the callbacks did, the cache is shut down. *)
Lemma Shutdown_isShutdown c : isShutdown (st (Shutdown c)) = true.
Proof.
  unfold Shutdown. destruct (isShutdown c) eqn:Hs; [done|].
  unfold reset.
  pose proof (reset_loop_isShutdown (S (length (order (queue (mkCache true (items c) (queue c))))))
    (mkCache true (items c) (queue c))) as Hr.
  revert Hr. destruct (reset_loop (S (length (order (queue (mkCache true (items c) (queue c))))))
    (mkCache true (items c) (queue c))) as [[[c2 evs] inv] [u|]]; simpl; done.
Qed.

(** *** Bounded size *)

Lemma length_drop_key_lt k v l : assoc k l = Some v -> (length (drop_key k l) < length l)%nat.
Proof.
  intros Ha%assoc_In. unfold drop_key. apply (length_filter_lt _ _ (k, v)); [done|].
  simpl. tauto.
Qed.

Lemma length_drop_key_le k l : (length (drop_key k l) <= length l)%nat.
Proof. apply length_filter. Qed.

Lemma length_abs_touch_le k l : (length (abs_touch k l) <= length l)%nat.
Proof.
  unfold abs_touch. destruct (assoc k l) as [v|] eqn:Ha; [|done].
  apply length_drop_key_lt in Ha. simpl. lia.
Qed.

Lemma length_abs_put_le cap k v l :
  0 < cap -> Z.of_nat (length l) <= cap ->
  Z.of_nat (length (abs_put cap k v l).1) <= cap.
Proof.
  intros Hc Hl. unfold abs_put. destruct (assoc k l) as [v0|] eqn:Ha.
  - apply length_drop_key_lt in Ha. simpl. lia.
  - destruct (Z.of_nat (length l) =? cap) eqn:Ec.
    + destruct (last l) as [e|] eqn:El; simpl; [|lia].
      apply last_Some in El as [l' ->]. rewrite removelast_last.
      rewrite length_app in Hl. simpl in Hl. lia.
    + apply Z.eqb_neq in Ec. simpl. lia.
Qed.

Lemma length_abs_delete_le k l : (length (abs_delete k l).1 <= length l)%nat.
Proof.
  unfold abs_delete. destruct (assoc k l); [apply length_drop_key_le|done].
Qed.

(** One operation keeps at most [capacity] entries. *)
Lemma exec_size c op :
  WF c -> 0 < capacity (queue c) -> Z.of_nat (length (view c)) <= capacity (queue c) ->
  Z.of_nat (length (view (st (exec c op)))) <= capacity (queue (st (exec c op))).
Proof.
  intros HW Hc Hl.
  destruct (isShutdown c) eqn:Hsd.
  { destruct (exec_shutdown c op Hsd) as [-> _]. done. }
  destruct op as [k|k v|k| |]; simpl.
  - destruct (Get_ref c k HW Hsd) as (_ & _ & Hp & Hv & _).
    injection Hp as -> _. rewrite Hv. pose proof (length_abs_touch_le k (view c)). lia.
  - destruct (Put_ref c k v HW Hsd) as (_ & _ & Hp & Hv & _).
    injection Hp as -> _. rewrite Hv. by apply length_abs_put_le.
  - destruct (Delete_ref c k HW Hsd) as (_ & _ & Hp & Hv & _).
    injection Hp as -> _. rewrite Hv. pose proof (length_abs_delete_le k (view c)). lia.
  - destruct (Reset_ref c HW Hsd) as (_ & _ & Hp & Hv & _).
    injection Hp as -> _. rewrite Hv, length_app in Hl. lia.
  - destruct (Shutdown_ref c HW Hsd) as (_ & _ & Hp & Hv & _).
    injection Hp as -> _. rewrite Hv, length_app in Hl. lia.
Qed.

Lemma run_size c ops :
  WF c -> 0 < capacity (queue c) -> Z.of_nat (length (view c)) <= capacity (queue c) ->
  Z.of_nat (length (view (run c ops).1)) <= capacity (queue (run c ops).1).
Proof.
  revert c. induction ops as [|op ops IH]; intros c HW Hc Hl; [done|].
  rewrite run_cons. simpl. destruct (exec_removed c op HW) as (HW' & Hp & _).
  apply IH; [done| |by apply exec_size].
  unfold params in Hp. injection Hp as -> _. done.
Qed.

Lemma evict_onEvict (c : @Cache K _ _ V) : onEvict (queue (evict c).1) = onEvict (queue c).
Proof. unfold evict, Remove. repeat case_match; simplify_eq; done. Qed.

Lemma reset_loop_no_panic fuel (c : @Cache K _ _ V) :
  onEvict (queue c) = None -> (reset_loop fuel c).2 <> Panicked.
Proof.
  revert c. induction fuel as [|f IH]; intros c Hn; simpl; [discriminate|].
  pose proof (evict_onEvict c) as Ho.
  destruct (evict c) as [c1 [e|]]; simpl in Ho; [|discriminate].
  unfold OnEvict at 1. rewrite Ho, Hn. simpl.
  specialize (IH c1 ltac:(congruence)).
  destruct (reset_loop f c1) as [[[c'' evs] invs] o']. done.
Qed.

Lemma length_drop_key_one k v (l : list (@Entry K V)) :
  NoDup (map fst l) -> assoc k l = Some v -> length (drop_key k l) = (length l - 1)%nat.
Proof.
  induction l as [|[k' v'] l IH]; [discriminate|]. intros Hnd Ha. simpl in Hnd, Ha.
  apply NoDup_cons in Hnd as [Hk' Hnd].
  pose proof (drop_key_not_in k l) as Hnk. unfold drop_key in *. rewrite filter_cons.
  destruct (decide (k = k')) as [->|Hne].
  - rewrite decide_False by (intros Hc; by apply Hc). rewrite Hnk by done. simpl. lia.
  - rewrite decide_True by done. simpl. rewrite (IH Hnd Ha).
    apply assoc_In, key_in_view in Ha. destruct l; [set_solver|]. simpl. lia.
Qed.

Lemma assoc_cons_ne k k' (v' : V) (l : list (@Entry K V)) :
  k <> k' -> assoc k ((k', v') :: l) = assoc k l.
Proof. intros Hne. simpl. by rewrite decide_False. Qed.

Lemma abs_put_keeps_head cap k' (v' : V) k v (rest : list (@Entry K V)) :
  k' <> k -> rest <> [] -> assoc k (abs_put cap k' v' ((k, v) :: rest)).1 = Some v.
Proof.
  intros Hne Hr. destruct rest as [|e rest]; [done|]. unfold abs_put.
  rewrite assoc_cons_ne by done.
  destruct (assoc k' (e :: rest)) eqn:Ea.
  - cbn [fst]. rewrite assoc_cons_ne by done. rewrite assoc_drop_key, decide_False by done. simpl. by case_decide.
  - case_match; [|cbn [fst]; rewrite assoc_cons_ne by done; simpl; by case_decide].
    change (last ((k, v) :: e :: rest)) with (last (e :: rest)).
    change (removelast ((k, v) :: e :: rest)) with ((k, v) :: removelast (e :: rest)).
    destruct (last (e :: rest)) eqn:El; [|by apply last_None in El].
    cbn [fst]. rewrite assoc_cons_ne by done. simpl. by case_decide.
Qed.

Lemma seq_visit_prefix {S} (fn : S -> K -> V -> S * bool) s (o : list (@Node K V)) :
  (seq_visit fn s o).2 `prefix_of` map snd o /\
  ((forall s k v, (fn s k v).2 = true) -> (seq_visit fn s o).2 = map snd o) /\
  forall n e o', o = (n, e) :: o' -> exists vs, (seq_visit fn s o).2 = e :: vs.
Proof.
  revert s. induction o as [|[n [k v]] o IH]; intros s; simpl.
  - split; [done|]. split; [done|]. intros ? ? ? [=].
  - destruct (fn s k v) as [s' []] eqn:Ef.
    + destruct (IH s') as (Hp & Ha & _). destruct (seq_visit fn s' o) as [s'' vs]. simpl in *.
      split; [by apply prefix_cons|]. split; [intros Hall; by rewrite Ha|].
      intros ? ? ? [= <- <- <-]. by eexists.
    + simpl. split; [apply prefix_cons, prefix_nil|]. split.
      * intros Hall. specialize (Hall s k v). rewrite Ef in Hall. discriminate.
      * intros ? ? ? [= <- <- <-]. by eexists.
Qed.

End LruFacts.


Section LruClaims.
Context {K : Type} `{Countable K} {V : Type}.

(** C1: on a cache built by [New] with a capacity [0 < cap < 2^64] and run
    through any session of [Get], [Put], [Delete] and [Reset] calls, [Get k]
    always succeeds, and returns [(v, true)] exactly when the log holds a
    [Put k v] after which no [Put], [Delete] or eviction of [k] happened.
    When the cache is full ([Size = Capacity]), [Put] of a key that [Get]
    does not find evicts exactly one entry [(k0, v0)], which was stored and
    is gone afterwards; every other stored key was touched (put or found by
    [Get]) more recently than [k0], and is still found with its value. *)
Theorem Get_latest_Put_and_Put_evicts_lru (cap : Z) (cb : option (@CBFunc K V))
    (c0 : @Cache K _ _ V) (ops : list Op) :
  0 < cap < 2^64 -> New cap cb = Some c0 -> Forall (fun op => op <> OShutdown) ops ->
  let c := (run c0 ops).1 in
  let log := (run c0 ops).2 in
  (forall k, exists r, ret (Get c k) = Returned (r, None)) /\
  (forall k v, ret (Get c k) = Returned (Some v, None) <->
     exists pre post, log = pre ++ EvPut k v :: post /\
       Forall (fun ev => decides k ev = false) post) /\
  (forall k v, Size (queue c) = Capacity (queue c) -> ret (Get c k) = Returned (None, None) ->
     exists k0 v0, evicted (Put c k v) = [(k0, v0)] /\
       ret (Get c k0) = Returned (Some v0, None) /\
       ret (Get (st (Put c k v)) k0) = Returned (None, None) /\
       forall k1 v1, k1 <> k0 -> ret (Get c k1) = Returned (Some v1, None) ->
         age_lt log k1 k0 /\ ret (Get (st (Put c k v)) k1) = Returned (Some v1, None)).
Proof.
  intros Hcap HN Hops c log.
  pose proof (active_inv_run _ _ _ ops (active_inv_New cap cb c0 HN) Hops) as HI.
  simpl in HI. fold c log in HI. destruct HI as (HW & Hsd & Hp & Hfate & HA).
  pose proof (WF_NoDup_keys c HW) as Hnd.
  assert (forall k, ret (Get c k) = Returned (assoc k (view c), None)) as HG
    by (intros k; apply (Get_ref c k HW Hsd)).
  split; [|split].
  - intros k. rewrite HG. eauto.
  - intros k v. rewrite HG, <- fate_put, <- Hfate. split; [by intros [= ->]|by intros ->].
  - intros k v Hfull Hk. rewrite HG in Hk. injection Hk as Hk.
    destruct (Put_ref c k v HW Hsd) as (HW' & Hsd' & _ & Hv & Hev & _).
    assert (forall k', ret (Get (st (Put c k v)) k') = Returned (assoc k' (view (st (Put c k v))), None))
      as HG' by (intros k'; apply (Get_ref _ k' HW' Hsd')).
    unfold abs_put in Hv, Hev. rewrite Hk in Hv, Hev.
    unfold Size, Capacity in Hfull. rewrite <- view_length in Hfull.
    rewrite Hfull, Z.eqb_refl in Hv, Hev.
    destruct (last (view c)) as [[k0 v0]|] eqn:El.
    2:{ exfalso. apply last_None in El. rewrite El in Hfull. simpl in Hfull.
        unfold params in Hp. injection Hp as Hc _.
        apply (int_of_uint_nonzero cap Hcap). lia. }
    apply last_Some in El as [r Er].
    rewrite Er in Hnd. apply NoDup_keys_front in Hnd as [Hndr Hk0r]. simpl in Hk0r.
    apply assoc_None in Hk. rewrite Er in Hk.
    assert (k0 <> k) as Hk0k.
    { intros ->. apply Hk. rewrite map_app. apply elem_of_app. right. left. }
    exists k0, v0. split; [done|]. split; [|split].
    + rewrite HG. f_equal. f_equal. apply assoc_complete; [by apply WF_NoDup_keys|].
      rewrite Er. apply elem_of_app. right. left.
    + rewrite HG', Hv, Er, removelast_last. simpl. rewrite decide_False by done.
      f_equal. f_equal. by apply assoc_None.
    + intros k1 v1 Hk1 Hg. rewrite HG in Hg. injection Hg as Hg.
      apply assoc_In in Hg. rewrite Er in Hg. apply elem_of_app in Hg as [Hg|Hg].
      2:{ apply list_elem_of_singleton in Hg. congruence. }
      split.
      * destruct HA as [HS _]. rewrite Er in HS. apply (SS_last _ _ _ HS _ Hg).
      * rewrite HG', Hv, Er, removelast_last. simpl. rewrite decide_False.
        -- f_equal. f_equal. by apply assoc_complete.
        -- intros ->. apply Hk. rewrite map_app. apply elem_of_app. left. by apply (key_in_view (k, v1)).
Qed.


(** C2: on a cache built by [New] with the callback [cb], after any session
    of operations (including [Shutdown]), each further operation removes a
    set of entries, and the entries it hands to the eviction path are
    exactly the entries of the cache whose key is gone afterwards, each
    once; when [cb] is [Some f] the callback is invoked once per removed
    entry, with its key and value, in that order (and never when [cb] is
    [None]). [Put] of a new key on a full active cache first runs [evict]:
    the back entry leaves the index and the list, and only then is the new
    entry pushed at the front. *)
Theorem removals_invoke_callback_once (cap : Z) (cb : option (@CBFunc K V))
    (c0 : @Cache K _ _ V) (ops : list Op) (op : Op) :
  New cap cb = Some c0 ->
  let c := (run c0 ops).1 in
  evicted (exec c op) ≡ₚ
    (filter (fun e : @Entry K V => e.1 ∉ map fst (view (st (exec c op)))) (view c)) /\
  (forall f, cb = Some f -> invoked (exec c op) = evicted (exec c op)) /\
  (cb = None -> invoked (exec c op) = []) /\
  (forall k v, isShutdown c = false -> items c !! k = None ->
     Size (queue c) = Capacity (queue c) -> view c <> [] ->
     exists c1 e, evict c = (c1, Some e) /\ last (view c) = Some e /\
       items c1 !! e.1 = None /\ (e.1 ∉ map fst (view c1)) /\
       view c = view c1 ++ [e] /\
       st (Put c k v) =
         mkCache false (<[k := next_id (queue c1)]> (items c1)) (PushFront (queue c1) k v).1 /\
       evicted (Put c k v) = [e]).
Proof.
  intros HN c. destruct (New_spec cap cb c0 HN) as (HW0 & _ & Hp0 & _).
  destruct (run_WF c0 ops HW0) as [HW Hp]. fold c in HW, Hp.
  assert (onEvict (queue c) = cb) as Hcb by (unfold params in Hp, Hp0; congruence).
  destruct (exec_removed c op HW) as (_ & _ & Hperm & Hinv).
  rewrite Hcb in Hinv. split; [done|]. split; [|split].
  - intros f ->. done.
  - intros ->. done.
  - intros k v Hsd Hk Hfull Hne. pose proof (evict_ref c HW) as Hev.
    destruct (evict c) as [c1 [e|]] eqn:Eev; [|destruct Hev as [_ Hv0]; done].
    destruct Hev as (HW1 & Hsd1 & _ & _ & Hit1 & Hv1).
    exists c1, e. split; [done|]. split; [by rewrite Hv1, last_snoc|].
    split; [rewrite Hit1; apply lookup_delete_eq|]. split.
    { pose proof (WF_NoDup_keys c HW) as Hnd. rewrite Hv1 in Hnd.
      by apply NoDup_keys_front in Hnd as [_ ?]. }
    split; [done|].
    unfold Put. rewrite Hsd, Hk. unfold Size, Capacity in *. rewrite Hfull, Z.eqb_refl, Eev.
    unfold PushFront. simpl. rewrite Hsd1, Hsd.
    match goal with |- context [OnEvict ?q e] => destruct (OnEvict q e) end. done.
Qed.

(** C4 (as the code has it): [Delete k] on a cache that has been [Shutdown]
    changes nothing (no entry removed, no callback invoked, state unchanged)
    and returns [(false, ShutdownError)], i.e. it is reported as a failure. *)
Theorem Delete_after_Shutdown_is_error (c : @Cache K _ _ V) (k : K) :
  let s := st (Shutdown c) in
  Delete s k = mkStep s [] [] (Returned (false, Some ShutdownError)).
Proof. cbv zeta. unfold Delete. by rewrite Shutdown_isShutdown. Qed.

(** C10: on a cache that has been [Shutdown], [Put k v] returns [nil]
    (no error), leaves the state unchanged, evicts nothing and invokes no
    callback, while [Get], [Delete], [Size], [Capacity], [Reset] and
    [Traverse] all return a [ShutdownError] (also with the state unchanged). *)
Theorem Put_after_Shutdown_returns_nil (c : @Cache K _ _ V) (k : K) (v : V)
    {S : Type} (fn : S -> K -> V -> S * bool) (x : S) :
  let s := st (Shutdown c) in
  isShutdown s = true /\
  Put s k v = mkStep s [] [] (Returned None) /\
  Get s k = mkStep s [] [] (Returned (None, Some ShutdownError)) /\
  Delete s k = mkStep s [] [] (Returned (false, Some ShutdownError)) /\
  CacheSize s = (0, Some ShutdownError) /\
  CacheCapacity s = (0, Some ShutdownError) /\
  Reset s = mkStep s [] [] (Returned (Some ShutdownError)) /\
  Traverse s fn x = (x, [], Some ShutdownError).
Proof.
  cbv zeta. pose proof (Shutdown_isShutdown c) as Hs.
  unfold Put, Get, Delete, CacheSize, CacheCapacity, Reset, Traverse. rewrite Hs.
  repeat split.
Qed.

(** Size bound (capacities below [2^63]): on a cache built by [New] with
    [0 < cap < 2^63] and run through any session, [Size <= Capacity] and
    [Capacity = cap]; while the cache is active, [Cache.Size] and
    [Cache.Capacity] report these values without error. *)
Theorem Size_le_Capacity (cap : Z) (cb : option (@CBFunc K V))
    (c0 : @Cache K _ _ V) (ops : list Op) :
  0 < cap < 2^63 -> New cap cb = Some c0 ->
  let c := (run c0 ops).1 in
  Size (queue c) <= Capacity (queue c) /\ Capacity (queue c) = cap /\
  (isShutdown c = false ->
   CacheSize c = (Size (queue c), None) /\ CacheCapacity c = (cap, None)).
Proof.
  intros Hc HN. cbv zeta.
  destruct (New_spec cap cb c0 HN) as (HW & _ & Hp & Hv).
  assert (int_of_uint cap = cap) as Ecap by (unfold int_of_uint; case_match; lia).
  injection Hp as Hc0 _. rewrite Ecap in Hc0.
  destruct (run_WF c0 ops HW) as [_ Hp']. unfold params in Hp'. injection Hp' as Hc' _.
  pose proof (run_size c0 ops HW ltac:(lia) ltac:(rewrite Hv; simpl; lia)) as Hs.
  unfold Size, Capacity, CacheSize, CacheCapacity. rewrite <- view_length.
  split; [done|]. split; [congruence|]. intros Hsd. rewrite Hsd, view_length. split; [done|]. unfold Capacity. congruence.
Qed.

End LruClaims.

Section LruExtras.
Context {K : Type} `{Countable K} {V : Type}.

(** X7: on a reachable active cache, [Reset] returns no error, leaves the
    cache active and empty, and evicts every entry exactly once, from the
    least to the most recently used, invoking the callback on each in that
    order; without a callback it cannot panic. *)
Theorem Reset_evicts_all_lru_first (cap : Z) (cb : option (@CBFunc K V))
    (c0 : @Cache K _ _ V) (ops : list Op) :
  New cap cb = Some c0 ->
  let c := (run c0 ops).1 in
  isShutdown c = false ->
  (cb = None -> ret (Reset c) <> Panicked) /\
  (ret (Reset c) <> Panicked ->
   ret (Reset c) = Returned None /\ isShutdown (st (Reset c)) = false /\
   view (st (Reset c)) = [] /\ evicted (Reset c) = rev (view c) /\
   invoked (Reset c) = invocations cb (rev (view c))).
Proof.
  intros HN c Hsd. destruct (New_spec cap cb c0 HN) as (HW0 & _ & Hp0 & _).
  destruct (run_WF c0 ops HW0) as [HW Hp]. fold c in HW, Hp.
  assert (onEvict (queue c) = cb) as Hcb by (unfold params in Hp, Hp0; congruence).
  destruct (Reset_ref c HW Hsd) as (_ & Hsd' & _ & Hv & Hinv & Hemp).
  split.
  - intros Hn. unfold Reset, reset. rewrite Hsd.
    pose proof (reset_loop_no_panic (S (length (order (queue c)))) c ltac:(congruence)) as Hnp.
    destruct (reset_loop _ c) as [[[c' evs] inv] o]. simpl in *. by destruct o.
  - intros Hnp. specialize (Hemp Hnp). rewrite Hemp in Hv. simpl in Hv.
    assert (evicted (Reset c) = rev (view c)) as Hev by (rewrite Hv; symmetry; apply rev_involutive).
    split_and!; try done.
    + revert Hnp. unfold Reset. rewrite Hsd. destruct (reset c) as [[[c' evs] inv] o].
      simpl. by destruct o.
    + rewrite Hinv, Hcb, Hev. done.
Qed.

(** X8: on a reachable active cache, [Shutdown] marks the cache shut down,
    a second [Shutdown] does nothing, and (unless a callback panicked) it
    empties the cache evicting every entry least recently used first;
    without a callback it cannot panic. *)
Theorem Shutdown_evicts_all_and_is_final (cap : Z) (cb : option (@CBFunc K V))
    (c0 : @Cache K _ _ V) (ops : list Op) :
  New cap cb = Some c0 ->
  let c := (run c0 ops).1 in
  isShutdown c = false ->
  isShutdown (st (Shutdown c)) = true /\
  Shutdown (st (Shutdown c)) = mkStep (st (Shutdown c)) [] [] (Returned tt) /\
  (cb = None -> ret (Shutdown c) <> Panicked) /\
  (ret (Shutdown c) <> Panicked ->
   ret (Shutdown c) = Returned tt /\ view (st (Shutdown c)) = [] /\
   evicted (Shutdown c) = rev (view c) /\
   invoked (Shutdown c) = invocations cb (rev (view c))).
Proof.
  intros HN c Hsd. destruct (New_spec cap cb c0 HN) as (HW0 & _ & Hp0 & _).
  destruct (run_WF c0 ops HW0) as [HW Hp]. fold c in HW, Hp.
  assert (onEvict (queue c) = cb) as Hcb by (unfold params in Hp, Hp0; congruence).
  destruct (Shutdown_ref c HW Hsd) as (_ & Hsd' & _ & Hv & Hinv & Hemp).
  split; [done|]. split; [unfold Shutdown at 1; by rewrite Hsd'|]. split.
  - intros Hn. unfold Shutdown, reset. rewrite Hsd.
    pose proof (reset_loop_no_panic (S (length (order (queue (mkCache true (items c) (queue c))))))
                  (mkCache true (items c) (queue c)) ltac:(simpl; congruence)) as Hnp.
    destruct (reset_loop _ _) as [[[c' evs] inv] o]. simpl in *. by destruct o.
  - intros Hnp. specialize (Hemp Hnp). rewrite Hemp in Hv. simpl in Hv.
    assert (evicted (Shutdown c) = rev (view c)) as Hev by (rewrite Hv; symmetry; apply rev_involutive).
    split_and!; try done.
    + revert Hnp. unfold Shutdown. rewrite Hsd. destruct (reset _) as [[[c' evs] inv] o].
      simpl. by destruct o as [[]|].
    + rewrite Hinv, Hcb, Hev. done.
Qed.

(** X9: on a reachable active cache, [Delete k] evicts exactly the entry of
    [k] if there is one, removes only that key (a later [Get k] misses and
    [Get] of any other key answers as before), returns [(false, nil)] for an
    absent key and [(true, nil)] for a present one unless the callback
    panics; without a callback it cannot panic. *)
Theorem Delete_removes_only_key (cap : Z) (cb : option (@CBFunc K V))
    (c0 : @Cache K _ _ V) (ops : list Op) (k : K) :
  New cap cb = Some c0 ->
  let c := (run c0 ops).1 in
  isShutdown c = false ->
  evicted (Delete c k) = match assoc k (view c) with Some v => [(k, v)] | None => [] end /\
  view (st (Delete c k)) = drop_key k (view c) /\
  ret (Get (st (Delete c k)) k) = Returned (None, None) /\
  (forall k', k' <> k -> ret (Get (st (Delete c k)) k') = ret (Get c k')) /\
  (assoc k (view c) = None -> ret (Delete c k) = Returned (false, None)) /\
  (is_Some (assoc k (view c)) -> ret (Delete c k) <> Panicked ->
     ret (Delete c k) = Returned (true, None)) /\
  (cb = None -> ret (Delete c k) <> Panicked).
Proof.
  intros HN c Hsd. destruct (New_spec cap cb c0 HN) as (HW0 & _ & Hp0 & _).
  destruct (run_WF c0 ops HW0) as [HW Hp]. fold c in HW, Hp.
  assert (onEvict (queue c) = cb) as Hcb by (unfold params in Hp, Hp0; congruence).
  destruct (Delete_ref c k HW Hsd) as (HW' & Hsd' & _ & Hv & Hev & _).
  assert (view (st (Delete c k)) = drop_key k (view c)) as Hv'.
  { rewrite Hv. unfold abs_delete. destruct (assoc k (view c)) eqn:Ea; [done|].
    symmetry. apply drop_key_not_in. by apply assoc_None. }
  assert (forall k', ret (Get (st (Delete c k)) k') = Returned (assoc k' (view (st (Delete c k))), None))
    as HG' by (intros k'; apply (Get_ref _ k' HW' Hsd')).
  assert (forall k', ret (Get c k') = Returned (assoc k' (view c), None))
    as HG by (intros k'; apply (Get_ref _ k' HW Hsd)).
  assert (match assoc k (view c) with
          | Some _ => ret (Delete c k) = Returned (true, None) \/
                      (ret (Delete c k) = Panicked /\ cb <> None)
          | None => ret (Delete c k) = Returned (false, None)
          end) as Hret.
  { unfold Delete. rewrite Hsd. destruct (items c !! k) as [n|] eqn:Ek.
    - pose proof HW as (Hnd & Hit & _). apply Hit in Ek as Hin. destruct Hin as [v Hin].
      rewrite (WF_assoc_Some c k n v HW Hin).
      unfold Remove. rewrite (node_value_complete _ _ _ Hnd Hin).
      match goal with |- context [OnEvict ?q (k, v)] => destruct (OnEvict q (k, v)) as [inv o] eqn:EO end.
      apply OnEvict_spec in EO as [_ Ho]. simpl in Ho. simpl.
      destruct o as [[]|]; [by left|right]. split; [done|].
      destruct (Ho eq_refl) as (f & Ef & _). rewrite <- Hcb, Ef. done.
    - rewrite (WF_assoc_None c k HW Ek). done. }
  split_and!.
  - rewrite Hev. unfold abs_delete. by destruct (assoc k (view c)).
  - done.
  - rewrite HG', Hv', assoc_drop_key. by rewrite decide_True.
  - intros k' Hk'. rewrite HG', HG, Hv', assoc_drop_key. by rewrite decide_False.
  - intros Ea. by rewrite Ea in Hret.
  - intros [v Ea] Hnp. rewrite Ea in Hret. by destruct Hret as [?|[? _]].
  - intros Hn. destruct (assoc k (view c)); [|by rewrite Hret].
    destruct Hret as [->|[_ ?]]; done.
Qed.

(** X10: on a reachable active cache, [Put k v] on a key already present or
    while the cache is below capacity returns no error, evicts nothing and
    invokes no callback; afterwards [Get k] answers [v], every other key
    answers as before, and the size grows by one exactly when [k] was new. *)
Theorem Put_existing_or_room_never_evicts (cap : Z) (cb : option (@CBFunc K V))
    (c0 : @Cache K _ _ V) (ops : list Op) (k : K) (v : V) :
  New cap cb = Some c0 ->
  let c := (run c0 ops).1 in
  isShutdown c = false ->
  (is_Some (assoc k (view c)) \/ Size (queue c) < Capacity (queue c)) ->
  ret (Put c k v) = Returned None /\ evicted (Put c k v) = [] /\ invoked (Put c k v) = [] /\
  ret (Get (st (Put c k v)) k) = Returned (Some v, None) /\
  (forall k', k' <> k -> ret (Get (st (Put c k v)) k') = ret (Get c k')) /\
  Size (queue (st (Put c k v))) =
    Size (queue c) + match assoc k (view c) with Some _ => 0 | None => 1 end.
Proof.
  intros HN c Hsd Hcase. destruct (New_spec cap cb c0 HN) as (HW0 & _ & Hp0 & _).
  destruct (run_WF c0 ops HW0) as [HW Hp]. fold c in HW, Hp.
  destruct (Put_ref c k v HW Hsd) as (HW' & Hsd' & _ & Hv & Hev & Hinv).
  assert (forall k', ret (Get (st (Put c k v)) k') = Returned (assoc k' (view (st (Put c k v))), None))
    as HG' by (intros k'; apply (Get_ref _ k' HW' Hsd')).
  assert (forall k', ret (Get c k') = Returned (assoc k' (view c), None))
    as HG by (intros k'; apply (Get_ref _ k' HW Hsd)).
  pose proof (WF_NoDup_keys c HW) as Hnd.
  unfold Size, Capacity in *. rewrite <- !view_length.
  assert ((abs_put (capacity (queue c)) k v (view c)).1 =
            (k, v) :: drop_key k (view c) /\ (abs_put (capacity (queue c)) k v (view c)).2 = [])
    as [Ha1 Ha2].
  { unfold abs_put. destruct (assoc k (view c)) eqn:Ea; [done|].
    rewrite drop_key_not_in by (by apply assoc_None).
    destruct Hcase as [[? ?]|Hlt]; [congruence|]. rewrite <- view_length in Hlt.
    rewrite (proj2 (Z.eqb_neq _ _)) by lia. done. }
  rewrite Ha1 in Hv. rewrite Ha2 in Hev. rewrite Hev in Hinv.
  split_and!.
  - unfold Put. rewrite Hsd. destruct (items c !! k) as [n|] eqn:Ek.
    + destruct (MoveToFront_spec c k n HW Ek) as (v0 & Hin & EM). by rewrite EM.
    + assert ((Size (queue c) =? Capacity (queue c)) = false) as Ef.
      { apply Z.eqb_neq. unfold Size, Capacity.
        destruct Hcase as [[v1 Ea]|Hlt]; [|lia].
        rewrite (WF_assoc_None c k HW Ek) in Ea. discriminate. }
      rewrite Ef. simpl. done.
  - done.
  - rewrite Hinv. unfold invocations. by case_match.
  - rewrite HG', Hv. simpl. by rewrite decide_True.
  - intros k' Hk'. rewrite HG', HG, Hv. simpl. rewrite decide_False by done.
    rewrite assoc_drop_key. by rewrite decide_False.
  - rewrite Hv. simpl. destruct (assoc k (view c)) eqn:Ea.
    + rewrite (length_drop_key_one k v0 _ Hnd Ea).
      apply assoc_In, key_in_view in Ea. destruct (view c); [set_solver|]. simpl. lia.
    + rewrite drop_key_not_in by (by apply assoc_None). lia.
Qed.

(** X11: on a reachable active cache holding at least two entries, a [Get k]
    hit makes [k] most recently used, so a following [Put] of another key
    never evicts it: [Get k] still answers the same value. *)
Theorem Get_hit_survives_next_Put (cap : Z) (cb : option (@CBFunc K V))
    (c0 : @Cache K _ _ V) (ops : list Op) (k k' : K) (v v' : V) :
  New cap cb = Some c0 ->
  let c := (run c0 ops).1 in
  isShutdown c = false -> ret (Get c k) = Returned (Some v, None) -> k' <> k ->
  2 <= Size (queue c) ->
  ret (Get (st (Put (st (Get c k)) k' v')) k) = Returned (Some v, None).
Proof.
  intros HN c Hsd Hk Hne H2. destruct (New_spec cap cb c0 HN) as (HW0 & _ & Hp0 & _).
  destruct (run_WF c0 ops HW0) as [HW Hp]. fold c in HW, Hp.
  destruct (Get_ref c k HW Hsd) as (HW1 & Hsd1 & _ & Hv1 & _ & _ & Hr1).
  rewrite Hr1 in Hk. injection Hk as Ea.
  set (c1 := st (Get c k)) in *.
  destruct (Put_ref c1 k' v' HW1 Hsd1) as (HW2 & Hsd2 & _ & Hv2 & _ & _).
  rewrite (proj2 (proj2 (proj2 (proj2 (proj2 (proj2 (Get_ref _ k HW2 Hsd2))))))).
  do 2 f_equal. rewrite Hv2, Hv1. unfold abs_touch. rewrite Ea.
  pose proof (WF_NoDup_keys c HW) as Hnd.
  assert (1 <= length (drop_key k (view c)))%nat as Hlen.
  { rewrite (length_drop_key_one k v _ Hnd Ea). unfold Size in H2. rewrite <- view_length in H2. lia. }
  set (rest := drop_key k (view c)) in *.
  assert (rest <> []) as Hrest by (intros E; rewrite E in Hlen; simpl in Hlen; lia).
  assert (assoc k ((k, v) :: rest) = Some v) as Hk by (simpl; by rewrite decide_True).
  by apply abs_put_keeps_head.
Qed.

(** X18: on a reachable cache, [Traverse] after [Shutdown] returns a
    [ShutdownError] and calls [fn] on nothing; on an active cache it returns
    no error and calls [fn] on a prefix of the entries, most recently used
    first, on all of them when [fn] never returns [false], and right after
    [Put k v] the first call is on [(k, v)]. *)
Theorem Traverse_lists_mru_first {S : Type} (cap : Z) (cb : option (@CBFunc K V))
    (c0 : @Cache K _ _ V) (ops : list Op) (fn : S -> K -> V -> S * bool) (s : S) :
  New cap cb = Some c0 ->
  let c := (run c0 ops).1 in
  (isShutdown c = true -> Traverse c fn s = (s, [], Some ShutdownError)) /\
  (isShutdown c = false ->
     (Traverse c fn s).2 = None /\ (Traverse c fn s).1.2 `prefix_of` view c /\
     ((forall s k v, (fn s k v).2 = true) -> (Traverse c fn s).1.2 = view c) /\
     forall k v, exists vs, (Traverse (st (Put c k v)) fn s).1.2 = (k, v) :: vs).
Proof.
  intros HN c. destruct (New_spec cap cb c0 HN) as (HW0 & _).
  destruct (run_WF c0 ops HW0) as [HW _]. fold c in HW.
  split; [intros Hsd; unfold Traverse; by rewrite Hsd|]. intros Hsd.
  assert (forall c', isShutdown c' = false ->
            (Traverse c' fn s).2 = None /\ (Traverse c' fn s).1.2 = (seq_visit fn s (order (queue c'))).2)
    as HT.
  { intros c' Hs'. unfold Traverse. rewrite Hs'. by destruct (seq_visit fn s _). }
  destruct (HT c Hsd) as [Hn Hv]. destruct (seq_visit_prefix fn s (order (queue c))) as (Hp & Ha & _).
  split; [done|]. split; [rewrite Hv; exact Hp|]. split; [intros Hall; rewrite Hv; by apply Ha|].
  intros k v. destruct (Put_ref c k v HW Hsd) as (_ & Hsd' & _ & Hview & _).
  destruct (HT _ Hsd') as [_ Hv'].
  assert (exists vs, view (st (Put c k v)) = (k, v) :: vs) as [vs0 Hvs].
  { rewrite Hview. unfold abs_put. repeat case_match; by eexists. }
  unfold view in Hvs. destruct (order (queue (st (Put c k v)))) as [|[n e] o] eqn:Eo; [discriminate|].
  simpl in Hvs. injection Hvs as -> _.
  destruct (seq_visit_prefix fn s (order (queue (st (Put c k v))))) as (_ & _ & Hh).
  rewrite Hv'. pose proof (Hh n (k, v) o Eo) as Hx. rewrite Eo in Hx. exact Hx.
Qed.

End LruExtras.

Lemma removals_invoke_callback_once_witness :
  New (K:=nat) (V:=nat) 1 None = Some (mkCache false ∅ (mkList [] 0 1 None)) /\
  evicted (exec (run (mkCache false ∅ (mkList [] 0 1 None)) [OPut 1%nat 10%nat]).1 (OPut 2%nat 20%nat))
    ≡ₚ [(1%nat, 10%nat)].
Proof.
  split; [reflexivity|].
  pose proof (removals_invoke_callback_once (K:=nat) (V:=nat) 1 None
    (mkCache false ∅ (mkList [] 0 1 None)) [OPut 1%nat 10%nat] (OPut 2%nat 20%nat) eq_refl) as HT.
  cbv zeta in HT. destruct HT as (HP & _). etrans; [exact HP|]. vm_compute. reflexivity.
Defined.

Lemma Get_latest_Put_and_Put_evicts_lru_witness :
  0 < 2 < 2^64 /\
  New (K:=nat) (V:=nat) 2 None = Some (mkCache false ∅ (mkList [] 0 2 None)) /\
  Forall (fun op => op <> OShutdown) [OPut 1%nat 10%nat; OPut 2%nat 20%nat] /\
  ret (Get (run (mkCache false ∅ (mkList [] 0 2 None)) [OPut 1%nat 10%nat; OPut 2%nat 20%nat]).1 1%nat)
    = Returned (Some 10%nat, None).
Proof.
  split; [lia|]. split; [reflexivity|]. split; [repeat constructor; discriminate|].
  pose proof (Get_latest_Put_and_Put_evicts_lru (K:=nat) (V:=nat) 2 None
    (mkCache false ∅ (mkList [] 0 2 None)) [OPut 1%nat 10%nat; OPut 2%nat 20%nat]
    ltac:(lia) eq_refl ltac:(repeat constructor; discriminate)) as HT.
  cbv zeta in HT. destruct HT as (_ & H2 & _). apply H2.
  exists [], [EvPut 2%nat 20%nat]. split; [reflexivity|].
  repeat constructor.
Defined.

(** C4 counterexample: a one-entry cache is shut down, then [Delete 1]
    returns [(false, ShutdownError)]: the error is not [nil]. *)
Lemma Delete_after_Shutdown_counterexample :
  let c0 := mkCache false ∅ (mkList [] 0 1 None) in
  let s := st (Shutdown (st (Put (K:=nat) (V:=nat) c0 1%nat 10%nat))) in
  ret (Delete s 1%nat) = Returned (false, Some ShutdownError) /\
  (Some ShutdownError : option cache_error) <> None.
Proof. split; [vm_compute; reflexivity|discriminate]. Qed.

(** C5 failing input: [New] with capacity [2^63] stores [int(2^63) = -2^63]
    as the capacity, so [Size = Capacity] never holds, [Put] never evicts and
    [Size] exceeds [Capacity] from the first [Put] on. *)
Lemma Size_exceeds_Capacity_at_2_63 :
  New (K:=nat) (V:=nat) (2^63) None = Some (mkCache false ∅ (mkList [] 0 (-2^63) None)) /\
  let c := (run (mkCache false ∅ (mkList [] 0 (-2^63) None))
              [OPut 1%nat 10%nat; OPut 2%nat 20%nat; OPut 3%nat 30%nat]).1 in
  CacheSize c = (3, None) /\ CacheCapacity c = (-2^63, None) /\
  (CacheCapacity c).1 < (CacheSize c).1.
Proof. split; [reflexivity|]. cbv zeta. repeat split; vm_compute; reflexivity. Qed.

Lemma Size_le_Capacity_witness :
  0 < 2 < 2^63 /\
  New (K:=nat) (V:=nat) 2 None = Some (mkCache false ∅ (mkList [] 0 2 None)) /\
  Size (queue (run (mkCache false ∅ (mkList [] 0 2 None))
                 [OPut 1%nat 10%nat; OPut 2%nat 20%nat; OPut 3%nat 30%nat]).1) <= 2.
Proof.
  split; [lia|]. split; [reflexivity|].
  pose proof (Size_le_Capacity (K:=nat) (V:=nat) 2 None (mkCache false ∅ (mkList [] 0 2 None))
    [OPut 1%nat 10%nat; OPut 2%nat 20%nat; OPut 3%nat 30%nat] ltac:(lia) eq_refl) as HT.
  cbv zeta in HT. destruct HT as (H1 & H2 & _). rewrite <- H2. exact H1.
Defined.

Lemma Reset_evicts_all_lru_first_witness :
  New (K:=nat) (V:=nat) 2 None = Some (mkCache false ∅ (mkList [] 0 2 None)) /\
  isShutdown (run (mkCache false ∅ (mkList [] 0 2 None)) [OPut 1%nat 10%nat; OPut 2%nat 20%nat]).1 = false /\
  evicted (Reset (run (mkCache false ∅ (mkList [] 0 2 None)) [OPut 1%nat 10%nat; OPut 2%nat 20%nat]).1)
    = [(1%nat, 10%nat); (2%nat, 20%nat)].
Proof.
  assert (Hs : isShutdown (run (mkCache false ∅ (mkList [] 0 2 None)) [OPut 1%nat 10%nat; OPut 2%nat 20%nat]).1 = false)
    by (vm_compute; reflexivity).
  split; [reflexivity|]. split; [exact Hs|].
  pose proof (Reset_evicts_all_lru_first (K:=nat) (V:=nat) 2 None (mkCache false ∅ (mkList [] 0 2 None))
    [OPut 1%nat 10%nat; OPut 2%nat 20%nat] eq_refl Hs) as HT.
  cbv zeta in HT. destruct HT as [Hn Hp]. destruct (Hp (Hn eq_refl)) as (_ & _ & _ & Hev & _).
  rewrite Hev. vm_compute. reflexivity.
Defined.

Lemma Shutdown_evicts_all_and_is_final_witness :
  New (K:=nat) (V:=nat) 2 None = Some (mkCache false ∅ (mkList [] 0 2 None)) /\
  isShutdown (run (mkCache false ∅ (mkList [] 0 2 None)) [OPut 1%nat 10%nat; OPut 2%nat 20%nat]).1 = false /\
  evicted (Shutdown (run (mkCache false ∅ (mkList [] 0 2 None)) [OPut 1%nat 10%nat; OPut 2%nat 20%nat]).1)
    = [(1%nat, 10%nat); (2%nat, 20%nat)].
Proof.
  assert (Hs : isShutdown (run (mkCache false ∅ (mkList [] 0 2 None)) [OPut 1%nat 10%nat; OPut 2%nat 20%nat]).1 = false)
    by (vm_compute; reflexivity).
  split; [reflexivity|]. split; [exact Hs|].
  pose proof (Shutdown_evicts_all_and_is_final (K:=nat) (V:=nat) 2 None (mkCache false ∅ (mkList [] 0 2 None))
    [OPut 1%nat 10%nat; OPut 2%nat 20%nat] eq_refl Hs) as HT.
  cbv zeta in HT. destruct HT as (_ & _ & Hn & Hp). destruct (Hp (Hn eq_refl)) as (_ & _ & Hev & _).
  rewrite Hev. vm_compute. reflexivity.
Defined.

Lemma Delete_removes_only_key_witness :
  New (K:=nat) (V:=nat) 2 None = Some (mkCache false ∅ (mkList [] 0 2 None)) /\
  isShutdown (run (mkCache false ∅ (mkList [] 0 2 None)) [OPut 1%nat 10%nat; OPut 2%nat 20%nat]).1 = false /\
  ret (Delete (run (mkCache false ∅ (mkList [] 0 2 None)) [OPut 1%nat 10%nat; OPut 2%nat 20%nat]).1 1%nat)
    = Returned (true, None).
Proof.
  assert (Hs : isShutdown (run (mkCache false ∅ (mkList [] 0 2 None)) [OPut 1%nat 10%nat; OPut 2%nat 20%nat]).1 = false)
    by (vm_compute; reflexivity).
  split; [reflexivity|]. split; [exact Hs|].
  pose proof (Delete_removes_only_key (K:=nat) (V:=nat) 2 None (mkCache false ∅ (mkList [] 0 2 None))
    [OPut 1%nat 10%nat; OPut 2%nat 20%nat] 1%nat eq_refl Hs) as HT.
  cbv zeta in HT. destruct HT as (_ & _ & _ & _ & _ & Hp & Hn).
  apply Hp; [vm_compute; eexists; reflexivity|]. apply Hn. reflexivity.
Defined.

Lemma Put_existing_or_room_never_evicts_witness :
  New (K:=nat) (V:=nat) 2 None = Some (mkCache false ∅ (mkList [] 0 2 None)) /\
  isShutdown (run (mkCache false ∅ (mkList [] 0 2 None)) [OPut 1%nat 10%nat; OPut 2%nat 20%nat]).1 = false /\
  evicted (Put (run (mkCache false ∅ (mkList [] 0 2 None)) [OPut 1%nat 10%nat; OPut 2%nat 20%nat]).1
             1%nat 11%nat) = [].
Proof.
  assert (Hs : isShutdown (run (mkCache false ∅ (mkList [] 0 2 None)) [OPut 1%nat 10%nat; OPut 2%nat 20%nat]).1 = false)
    by (vm_compute; reflexivity).
  split; [reflexivity|]. split; [exact Hs|].
  apply (Put_existing_or_room_never_evicts (K:=nat) (V:=nat) 2 None (mkCache false ∅ (mkList [] 0 2 None))
    [OPut 1%nat 10%nat; OPut 2%nat 20%nat] 1%nat 11%nat eq_refl Hs).
  left. vm_compute. eexists; reflexivity.
Defined.

Lemma Get_hit_survives_next_Put_witness :
  New (K:=nat) (V:=nat) 2 None = Some (mkCache false ∅ (mkList [] 0 2 None)) /\
  ret (Get (st (Put (st (Get (run (mkCache false ∅ (mkList [] 0 2 None))
                                   [OPut 1%nat 10%nat; OPut 2%nat 20%nat]).1 1%nat)) 3%nat 30%nat)) 1%nat)
    = Returned (Some 10%nat, None).
Proof.
  split; [reflexivity|].
  apply (Get_hit_survives_next_Put (K:=nat) (V:=nat) 2 None (mkCache false ∅ (mkList [] 0 2 None))
    [OPut 1%nat 10%nat; OPut 2%nat 20%nat] 1%nat 3%nat 10%nat 30%nat eq_refl);
    [vm_compute; reflexivity | vm_compute; reflexivity | lia | vm_compute; discriminate].
Defined.

Lemma Traverse_lists_mru_first_witness :
  New (K:=nat) (V:=nat) 2 None = Some (mkCache false ∅ (mkList [] 0 2 None)) /\
  (Traverse (run (mkCache false ∅ (mkList [] 0 2 None)) [OPut 1%nat 10%nat; OPut 2%nat 20%nat]).1
     (fun n (_ _ : nat) => (S n, true)) 0%nat).1.2 = [(2%nat, 20%nat); (1%nat, 10%nat)].
Proof.
  split; [reflexivity|].
  destruct (Traverse_lists_mru_first (K:=nat) (V:=nat) 2 None (mkCache false ∅ (mkList [] 0 2 None))
    [OPut 1%nat 10%nat; OPut 2%nat 20%nat] (fun n (_ _ : nat) => (S n, true)) 0%nat eq_refl) as [_ HT].
  destruct (HT ltac:(vm_compute; reflexivity)) as (_ & _ & Hall & _).
  rewrite (Hall (fun _ _ _ => eq_refl)). vm_compute. reflexivity.
Defined.

End LruSpec.

(** * Proofs about the shard router *)
Module ShardSpec.
Import Shard.

Section RouterFacts.
Context {K : Type} `{Countable K} {V : Type} {S : Type}.
Implicit Types (fn : S -> K -> V -> S * bool) (l : list (K * V)).

Lemma continues_visit fn s l s1 :
  continues fn s l = Some s1 -> visit_in_order fn s l = (s1, l).
Proof.
  revert s. induction l as [|[k v] l IH]; intros s; simpl; [congruence|].
  destruct (fn s k v) as [s' []]; [|discriminate].
  intros Hc. by rewrite (IH s' Hc).
Qed.

Lemma visit_app fn s l1 l2 :
  visit_in_order fn s (l1 ++ l2) =
  match continues fn s l1 with
  | Some s1 => let '(s2, vs) := visit_in_order fn s1 l2 in (s2, l1 ++ vs)
  | None => visit_in_order fn s l1
  end.
Proof.
  revert s. induction l1 as [|[k v] l1 IH]; intros s; simpl.
  - by destruct (visit_in_order fn s l2).
  - destruct (fn s k v) as [s' []]; [|done].
    rewrite IH. destruct (continues fn s' l1) as [s1|].
    + by destruct (visit_in_order fn s1 l2).
    + by destruct (visit_in_order fn s' l1).
Qed.

Lemma visit_stop_wrapper fn s b l :
  visit_in_order (stop_wrapper fn) (s, b) l =
  let '(s', vs) := visit_in_order fn s l in
  ((s', match continues fn s l with Some _ => b | None => true end), vs).
Proof.
  revert s. induction l as [|[k v] l IH]; intros s; simpl; [done|].
  destruct (fn s k v) as [s' []]; simpl.
  - rewrite IH. by destruct (visit_in_order fn s' l).
  - done.
Qed.

Lemma seq_visit_visit {S'} (g : S' -> K -> V -> S' * bool) x (o : list (@Lru.Node K V)) :
  Lru.seq_visit g x o = visit_in_order g x (map snd o).
Proof.
  revert x. induction o as [|[n [k v]] o IH]; intros x; simpl; [done|].
  destruct (g x k v) as [x' []]; [|done]. by rewrite IH.
Qed.

Lemma shard_Traverse_visit fn s (sh : ShardSlot K V) :
  shard_Traverse sh (stop_wrapper fn) (s, false) =
  let '(s', vs) := visit_in_order fn s (slot_entries sh) in
  ((s', match continues fn s (slot_entries sh) with Some _ => false | None => true end), vs).
Proof.
  destruct sh as [c|]; simpl; [|done].
  unfold Lru.Traverse. destruct (Lru.isShutdown c); [done|].
  rewrite seq_visit_visit, visit_stop_wrapper.
  by destruct (visit_in_order fn s _).
Qed.

Lemma traverse_shards_visit fn s (shs : list (ShardSlot K V)) :
  traverse_shards fn s shs = visit_in_order fn s (concat (map slot_entries shs)).
Proof.
  revert s. induction shs as [|sh shs IH]; intros s; simpl; [done|].
  rewrite shard_Traverse_visit, visit_app.
  destruct (continues fn s (slot_entries sh)) as [s1|] eqn:Ec.
  - rewrite (continues_visit _ _ _ _ Ec), IH.
    by destruct (visit_in_order fn s1 _).
  - by destruct (visit_in_order fn s (slot_entries sh)).
Qed.

End RouterFacts.


(** ** Shard-count derivation *)

Lemma u64_id x : 0 <= x < 2 ^ 64 -> u64 x = x.
Proof. intros. unfold u64. by apply Z.mod_small. Qed.

Lemma nextPowerOfTwo_nonneg n : 0 <= nextPowerOfTwo n.
Proof.
  unfold nextPowerOfTwo, u64. case_match; [lia|].
  apply Z.mod_pos_bound. lia.
Qed.

Lemma nextPowerOfTwo_le1 n : n <= 1 -> nextPowerOfTwo n = 1.
Proof. intros Hn. unfold nextPowerOfTwo. case_match; lia. Qed.

(** Below [2^63], [nextPowerOfTwo] is [2^b] for the least [b] with
    [n <= 2^b]. *)
Lemma nextPowerOfTwo_exact n :
  1 < n <= 2 ^ 63 ->
  exists b, 1 <= b <= 63 /\ nextPowerOfTwo n = 2 ^ b /\ n <= 2 ^ b /\ 2 ^ b < 2 * n.
Proof.
  intros Hn. unfold nextPowerOfTwo.
  destruct (n <=? 1) eqn:E; [lia|].
  rewrite (u64_id (n - 1)) by lia. unfold bitsLen.
  destruct (n - 1 =? 0) eqn:E0; [lia|].
  pose proof (Z.log2_spec (n - 1) ltac:(lia)) as [Hlo Hhi].
  assert (Z.log2 (n - 1) < 63) as Hb by (apply Z.log2_lt_pow2; lia).
  pose proof (Z.log2_nonneg (n - 1)).
  rewrite Z.shiftl_1_l.
  assert (2 ^ (Z.log2 (n - 1) + 1) <= 2 ^ 63) as Hp by (apply Z.pow_le_mono_r; lia).
  rewrite u64_id by (split; [apply Z.pow_nonneg; lia|]; change (2 ^ 64) with (2 * 2 ^ 63); lia).
  exists (Z.log2 (n - 1) + 1). split; [lia|]. split; [done|].
  rewrite <- Z.add_1_r in Hhi.
  assert (2 ^ (Z.log2 (n - 1) + 1) = 2 * 2 ^ Z.log2 (n - 1)) by (rewrite Z.pow_add_r by lia; lia).
  lia.
Qed.

Lemma nextPowerOfTwo_pow2 j : 0 <= j <= 63 -> nextPowerOfTwo (2 ^ j) = 2 ^ j.
Proof.
  intros Hj. destruct (Z.eq_dec j 0) as [->|Hj0]; [reflexivity|].
  assert (2 ^ 1 <= 2 ^ j) by (apply Z.pow_le_mono_r; lia).
  assert (2 ^ j <= 2 ^ 63) by (apply Z.pow_le_mono_r; lia).
  destruct (nextPowerOfTwo_exact (2 ^ j)) as (b & Hb & -> & Hlo & Hhi); [simpl in *; lia|].
  assert (j <= b) by (apply (Z.pow_le_mono_r_iff 2); lia).
  assert (b < j + 1).
  { apply (Z.pow_lt_mono_r_iff 2); try lia. rewrite Z.pow_add_r by lia. simpl. lia. }
  f_equal. lia.
Qed.

Lemma nextPowerOfTwo_small m :
  0 <= m <= 256 -> exists j, 0 <= j <= 8 /\ nextPowerOfTwo m = 2 ^ j.
Proof.
  intros Hm. destruct (Z.le_gt_cases m 1) as [Hle|Hgt].
  - exists 0. rewrite nextPowerOfTwo_le1 by done. split; [lia|reflexivity].
  - destruct (nextPowerOfTwo_exact m) as (b & Hb & -> & Hlo & Hhi); [lia|].
    exists b. split; [|done]. split; [lia|].
    destruct (Z.le_gt_cases b 8) as [|Hb8]; [done|].
    assert (2 ^ 9 <= 2 ^ b) by (apply Z.pow_le_mono_r; lia). simpl in *. lia.
Qed.

(** The capped value [min (2^b) 256] is a fixed point of [nextPowerOfTwo]. *)
Lemma nextPowerOfTwo_min_256 b :
  0 <= b <= 63 -> nextPowerOfTwo (Z.min (2 ^ b) 256) = Z.min (2 ^ b) 256.
Proof.
  intros Hb. destruct (Z.le_gt_cases b 8) as [Hb8|Hb8].
  - assert (2 ^ b <= 2 ^ 8) by (apply Z.pow_le_mono_r; lia).
    rewrite Z.min_l by (simpl in *; lia). by apply nextPowerOfTwo_pow2.
  - assert (2 ^ 8 <= 2 ^ b) by (apply Z.pow_le_mono_r; lia).
    rewrite Z.min_r by (simpl in *; lia). reflexivity.
Qed.

Lemma ceil_div_mul a b : 0 < b -> 0 <= a -> a <= b * ceil_div a b.
Proof.
  intros Hb Ha. unfold ceil_div.
  pose proof (Z.div_mod (a + b - 1) b ltac:(lia)).
  pose proof (Z.mod_pos_bound (a + b - 1) b Hb). lia.
Qed.


(** [computeMaxshards] without an explicit minimum, as a closed formula. *)
Lemma computeMaxshards_0 capacity tps cpu :
  computeMaxshards capacity tps 0 cpu =
  nextPowerOfTwo (Z.min (nextPowerOfTwo
    (Z.max (if 0 <? tps then u64 (capacity + tps - 1) / tps else 0)
           (u64 ((if cpu =? 0 then 1 else cpu) * 4)))) 256).
Proof.
  unfold computeMaxshards. rewrite Z.eqb_refl. cbv zeta.
  do 3 f_equal. destruct (Z.gtb_spec (u64 ((if cpu =? 0 then 1 else cpu) * 4))
    (if 0 <? tps then u64 (capacity + tps - 1) / tps else 0)); lia.
Qed.

(** Without overflow, the raw count is [max (ceil (capacity / tps)) (max cpu 1 * 4)]. *)
Lemma computeMaxshards_raw capacity tps cpu :
  0 <= capacity -> 0 <= tps -> 0 <= cpu ->
  capacity + tps - 1 < 2 ^ 64 -> Z.max cpu 1 * 4 < 2 ^ 64 ->
  Z.max (if 0 <? tps then u64 (capacity + tps - 1) / tps else 0)
        (u64 ((if cpu =? 0 then 1 else cpu) * 4)) =
  Z.max (if 0 <? tps then ceil_div capacity tps else 0) (Z.max cpu 1 * 4).
Proof.
  intros Hc Ht Hcpu Hov Hov'. f_equal.
  - destruct (Z.ltb_spec 0 tps); [|done]. unfold ceil_div. by rewrite u64_id by lia.
  - rewrite u64_id; destruct (Z.eqb_spec cpu 0); subst; lia.
Qed.

Lemma computeMaxshards_round capacity tps cpu :
  0 <= capacity -> 0 <= tps -> 0 <= cpu ->
  capacity + tps - 1 < 2 ^ 64 -> Z.max cpu 1 * 4 < 2 ^ 64 ->
  let raw := Z.max (if 0 <? tps then ceil_div capacity tps else 0) (Z.max cpu 1 * 4) in
  raw <= 2 ^ 63 ->
  exists b, 1 <= b <= 63 /\ raw <= 2 ^ b /\ 2 ^ b < 2 * raw /\
    computeMaxshards capacity tps 0 cpu = Z.min (2 ^ b) 256.
Proof.
  intros Hc Ht Hcpu Hov Hov' raw Hraw.
  rewrite computeMaxshards_0, computeMaxshards_raw by done. fold raw.
  destruct (nextPowerOfTwo_exact raw) as (b & Hb & -> & Hlo & Hhi); [lia|].
  exists b. split; [done|]. split; [done|]. split; [done|].
  apply nextPowerOfTwo_min_256. lia.
Qed.


(** C6 (as the code has it): without an explicit minimum, the shard count
    is always a power of two between [1] and [256].  When
    [capacity + targetPerShard - 1] and [max cpuCount 1 * 4] do not overflow
    [uint] and [raw = max (ceil (capacity / targetPerShard)) (max cpuCount 1 * 4)]
    is at most [2^63], the count is [raw] rounded up to a power of two and
    capped at [256].  [ceil (capacity / count) <= targetPerShard] holds when
    [targetPerShard > 0], nothing overflows and
    [ceil (capacity / targetPerShard) <= 256], i.e. when the cap of 256 does
    not cut the count below the one the capacity asks for. *)
Theorem computeMaxshards_pow2_capped (capacity tps cpu : Z) :
  0 <= capacity < 2 ^ 64 -> 0 <= tps < 2 ^ 64 -> 0 <= cpu < 2 ^ 64 ->
  let r := computeMaxshards capacity tps 0 cpu in
  let raw := Z.max (if 0 <? tps then ceil_div capacity tps else 0) (Z.max cpu 1 * 4) in
  (exists j, 0 <= j <= 8 /\ r = 2 ^ j) /\
  (capacity + tps - 1 < 2 ^ 64 -> Z.max cpu 1 * 4 < 2 ^ 64 -> raw <= 2 ^ 63 ->
   exists p, round_up_pow2 raw p /\ r = Z.min p 256) /\
  (0 < tps -> capacity + tps - 1 < 2 ^ 64 -> Z.max cpu 1 * 4 <= 2 ^ 63 ->
   ceil_div capacity tps <= 256 -> ceil_div capacity r <= tps).
Proof.
  intros Hc Ht Hcpu r raw. split; [|split].
  - unfold r. rewrite computeMaxshards_0. apply nextPowerOfTwo_small.
    match goal with |- context [nextPowerOfTwo ?x] =>
      pose proof (nextPowerOfTwo_nonneg x) end. lia.
  - intros Hov Hov' Hraw.
    destruct (computeMaxshards_round capacity tps cpu ltac:(lia) ltac:(lia) ltac:(lia) Hov Hov' Hraw)
      as (b & Hb & Hlo & Hhi & Hr).
    exists (2 ^ b). split; [|done]. split; [exists b; split; [lia|done]|]. split; [done|lia].
  - intros Htps Hov Hov' Hceil.
    assert (raw <= 2 ^ 63) as Hraw.
    { unfold raw. destruct (Z.ltb_spec 0 tps); [|lia]. simpl. lia. }
    destruct (computeMaxshards_round capacity tps cpu ltac:(lia) ltac:(lia) ltac:(lia) Hov
      ltac:(simpl in *; lia) Hraw) as (b & Hb & Hlo & Hhi & Hr).
    fold r in Hr.
    assert (ceil_div capacity tps <= raw) as Hcr.
    { unfold raw. destruct (Z.ltb_spec 0 tps); lia. }
    assert (ceil_div capacity tps <= r) as Hle by lia.
    assert (0 < r) as Hpos.
    { rewrite Hr. pose proof (Z.pow_pos_nonneg 2 b ltac:(lia) ltac:(lia)). lia. }
    pose proof (ceil_div_mul capacity tps Htps ltac:(lia)) as Hm.
    assert (capacity <= tps * r) by nia.
    unfold ceil_div. apply Z.lt_succ_r. apply Z.div_lt_upper_bound; [done|]. nia.
Qed.

Section RouterClaims.
Context {K : Type} `{Countable K} {V : Type}.

(** C7: on a router that is not shut down, [Traverse] calls [fn] on the
    entries of the shards in slot order, each shard's entries from the most
    recently used (front of its list) on, threading the visitor's state,
    and stops entirely after the first entry on which [fn] returns [false]:
    when [fn] returns [true] on every entry of [pre] and [false] on the next
    entry [(k, v)], the visited entries are exactly [pre ++ [(k, v)]], so no
    entry of that shard or of any later shard is visited. *)
Theorem Traverse_in_order_and_stops {S : Type} (c : Router K V)
    (fn : S -> K -> V -> S * bool) (s : S) :
  isShutdown c = false ->
  Traverse c fn s = visit_in_order fn s (concat (map slot_entries (shards c))) /\
  (forall pre k v post s1 s2,
     concat (map slot_entries (shards c)) = pre ++ (k, v) :: post ->
     continues fn s pre = Some s1 -> fn s1 k v = (s2, false) ->
     Traverse c fn s = (s2, pre ++ [(k, v)])).
Proof.
  intros Hsd. unfold Traverse. rewrite Hsd, traverse_shards_visit.
  split; [done|]. intros pre k v post s1 s2 -> Hc Hf.
  rewrite visit_app, Hc. simpl. by rewrite Hf.
Qed.

End RouterClaims.

Section ConstructionExtras.
Context {K : Type} `{Countable K} {V E : Type}.

Lemma make_shards_ok (cm : nat -> ShardSlot K V + E) i n l :
  make_shards cm i n = inl l ->
  length l = n /\ forall j s, l !! j = Some s -> cm (i + j)%nat = inl s.
Proof.
  revert i l. induction n as [|n IH]; intros i l; simpl.
  - intros [= <-]. split; [done|]. intros j s Hj. by rewrite lookup_nil in Hj.
  - destruct (cm i) as [s0|e] eqn:Ec; [|discriminate].
    destruct (make_shards cm (S i) n) as [l'|e] eqn:Em; [|discriminate].
    intros [= <-]. destruct (IH _ _ Em) as [Hl Hs]. split; [simpl; lia|].
    intros [|j] s Hj; simpl in Hj.
    + injection Hj as <-. by rewrite Nat.add_0_r.
    + rewrite <- Nat.add_succ_comm. by apply Hs.
Qed.

Lemma nextPowerOfTwo_pos_pow2 m :
  0 <= m <= 2 ^ 63 -> 1 <= nextPowerOfTwo m <= 2 ^ 63 /\ is_pow2 (nextPowerOfTwo m) /\
    (m <> 0 -> round_up_pow2 m (nextPowerOfTwo m)).
Proof.
  intros Hm. destruct (Z.le_gt_cases m 1) as [Hle|Hgt].
  - rewrite nextPowerOfTwo_le1 by done. split; [simpl; lia|]. split; [by exists 0|].
    intros Hm0. split; [by exists 0|]. lia.
  - destruct (nextPowerOfTwo_exact m) as (b & Hb & -> & Hlo & Hhi); [lia|].
    assert (2 ^ 0 <= 2 ^ b) by (apply Z.pow_le_mono_r; lia).
    assert (2 ^ b <= 2 ^ 63) by (apply Z.pow_le_mono_r; lia).
    split; [simpl in *; lia|]. split; [exists b; split; [lia|done]|].
    intros _. split; [exists b; split; [lia|done]|]. lia.
Qed.

Lemma computeMaxshards_pos_pow2 capacity tps m cpu :
  0 <= m <= 2 ^ 63 ->
  1 <= computeMaxshards capacity tps m cpu <= 2 ^ 63 /\ is_pow2 (computeMaxshards capacity tps m cpu) /\
  (m <> 0 -> round_up_pow2 m (computeMaxshards capacity tps m cpu)).
Proof.
  intros Hm. destruct (Z.eq_dec m 0) as [->|Hm0].
  - rewrite computeMaxshards_0.
    match goal with |- context [nextPowerOfTwo (Z.min ?x 256)] =>
      pose proof (nextPowerOfTwo_nonneg (Z.max (if 0 <? tps then u64 (capacity + tps - 1) / tps else 0)
           (u64 ((if cpu =? 0 then 1 else cpu) * 4)))) end.
    destruct (nextPowerOfTwo_pos_pow2 (Z.min (nextPowerOfTwo (Z.max (if 0 <? tps then u64 (capacity + tps - 1) / tps else 0)
           (u64 ((if cpu =? 0 then 1 else cpu) * 4)))) 256)) as (H1 & H2 & _); [lia|].
    split; [done|]. split; [done|]. done.
  - unfold computeMaxshards. rewrite (proj2 (Z.eqb_neq _ _) Hm0). by apply nextPowerOfTwo_pos_pow2.
Qed.

(** X12: with a positive capacity below [2^64], a minimum of at most [2^63]
    and both functions set, [toOptions] succeeds with [maxShards] the value of
    [computeMaxshards], a power of two [>= 1] (the least one [>= MinShards]
    when a minimum is given); the shard function gets [maxShards], and every
    [cacherMaker] call gets [perShardCapacity], which is [ceil (Capacity /
    maxShards)] when [Capacity + maxShards - 1] fits in [uint] and wraps to
    0 otherwise. *)
Theorem toOptions_per_shard_capacity (o : Options K V E) cpu sf cm :
  0 < Capacity o < 2 ^ 64 -> 0 <= MinShards o <= 2 ^ 63 ->
  ShardsFn o = Some sf -> CacherMaker o = Some cm ->
  let ms := computeMaxshards (Capacity o) (TargetPerShard o) (MinShards o) cpu in
  exists per,
    toOptions o cpu = Returned (inl (mkoptions ms (fun k => sf k ms) (fun n => cm n per))) /\
    1 <= ms /\ is_pow2 ms /\
    (MinShards o <> 0 -> round_up_pow2 (MinShards o) ms) /\
    (Capacity o + ms - 1 < 2 ^ 64 -> per = ceil_div (Capacity o) ms /\ Capacity o <= per * ms < Capacity o + ms) /\
    (2 ^ 64 <= Capacity o + ms - 1 -> per = 0).
Proof.
  intros Hc Hm Hs Hcm ms.
  destruct (computeMaxshards_pos_pow2 (Capacity o) (TargetPerShard o) (MinShards o) cpu Hm) as (H1 & Hp & Hr).
  fold ms in H1, Hp, Hr.
  exists (u64 (Capacity o + ms - 1) / ms). split.
  { unfold toOptions. rewrite (proj2 (Z.eqb_neq _ _)) by lia. rewrite Hs, Hcm. fold ms.
    rewrite (proj2 (Z.eqb_neq _ _)) by lia. reflexivity. }
  split_and!; try done; try lia.
  - intros Hov. rewrite u64_id by lia. unfold ceil_div. split; [done|].
    pose proof (Z.div_mod (Capacity o + ms - 1) ms ltac:(lia)).
    pose proof (Z.mod_pos_bound (Capacity o + ms - 1) ms ltac:(lia)). lia.
  - intros Hov. unfold u64. rewrite (Z.mod_eq _ (2 ^ 64)) by lia.
    assert ((Capacity o + ms - 1) / 2 ^ 64 = 1) as -> by (symmetry; apply Z.div_unique with (Capacity o + ms - 1 - 2 ^ 64); lia).
    apply Z.div_small. lia.
Qed.

Lemma nextPowerOfTwo_wraps m : 2 ^ 63 < m < 2 ^ 64 -> nextPowerOfTwo m = 0.
Proof.
  intros Hm. unfold nextPowerOfTwo. rewrite (proj2 (Z.leb_gt _ _)) by lia.
  rewrite (u64_id (m - 1)) by lia. unfold bitsLen. rewrite (proj2 (Z.eqb_neq _ _)) by lia.
  rewrite (Z.log2_unique (m - 1) 63) by lia. rewrite Z.shiftl_1_l. reflexivity.
Qed.

(** X13: a [MinShards] strictly between [2^63] and [2^64] makes
    [nextPowerOfTwo] wrap to 0, so [toOptions], and hence [New], panics on
    the division computing [perShardCapacity] (with a nonzero capacity and
    both functions set). *)
Theorem New_panics_above_2_63_MinShards (o : Options K V E) cpu :
  2 ^ 63 < MinShards o < 2 ^ 64 -> Capacity o <> 0 ->
  is_Some (ShardsFn o) -> is_Some (CacherMaker o) ->
  toOptions o cpu = Panicked /\ New o cpu = Panicked.
Proof.
  intros Hm Hc [sf Hs] [cm Hcm].
  assert (toOptions o cpu = Panicked) as Ht.
  { unfold toOptions. rewrite (proj2 (Z.eqb_neq _ _)) by done. rewrite Hs, Hcm.
    unfold computeMaxshards. rewrite (proj2 (Z.eqb_neq (MinShards o) 0)) by lia.
    rewrite nextPowerOfTwo_wraps by done. reflexivity. }
  split; [done|]. unfold New. by rewrite Ht.
Qed.

(** X14: a router that [New] returns has [maxShards = computeMaxshards ...]
    shards, [maxShards > 0], and the [i]-th shard is the result of the
    [i]-th [cacherMaker] call; for a shard function with values in [uint],
    every key goes to shard [ShardsFn(k, maxShards) mod maxShards], and the
    shard lookup of [Get], [Put] and [Delete] never indexes out of range. *)
Theorem New_router_routes_in_range (o : Options K V E) cpu sf cm (c : Router K V) :
  ShardsFn o = Some sf -> CacherMaker o = Some cm -> (forall k m, 0 <= sf k m) ->
  New o cpu = Returned (inl c) ->
  maxShards c = computeMaxshards (Capacity o) (TargetPerShard o) (MinShards o) cpu /\
  0 < maxShards c /\ length (shards c) = Z.to_nat (maxShards c) /\
  (exists per, forall n s, shards c !! n = Some s -> cm n per = inl s) /\
  forall k, keyToShardIndex c k = Returned (sf k (maxShards c) mod maxShards c) /\
            exists s, shard_of c k = Returned s.
Proof.
  intros Hs Hcm Hf. unfold New, toOptions. rewrite Hs, Hcm.
  destruct (Capacity o =? 0); [discriminate|].
  set (ms := computeMaxshards (Capacity o) (TargetPerShard o) (MinShards o) cpu).
  destruct (Z.eqb_spec ms 0) as [|Hms]; [discriminate|].
  unfold newCache. simpl. rewrite (proj2 (Z.eqb_neq _ _)) by done.
  destruct (make_shards _ 0 (Z.to_nat ms)) as [shs|e] eqn:Em; [|discriminate].
  intros [= <-]. simpl. destruct (make_shards_ok _ _ _ _ Em) as [Hl Hsh].
  assert (0 < ms) as Hpos.
  { pose proof (nextPowerOfTwo_nonneg (if MinShards o =? 0 then
      Z.min (nextPowerOfTwo (if (u64 ((if cpu =? 0 then 1 else cpu) * 4)) >?
        (if 0 <? TargetPerShard o then u64 (Capacity o + TargetPerShard o - 1) / TargetPerShard o else 0)
        then u64 ((if cpu =? 0 then 1 else cpu) * 4)
        else (if 0 <? TargetPerShard o then u64 (Capacity o + TargetPerShard o - 1) / TargetPerShard o else 0))) 256
      else MinShards o)) as Hn.
    unfold ms, computeMaxshards in *. cbv zeta in *. lia. }
  split_and!; [done|done|done| |].
  - exists (u64 (Capacity o + ms - 1) / ms). intros n s Hn. exact (Hsh n s Hn).
  - intros k. specialize (Hf k ms).
    assert (keyToShardIndex (mkRouter (fun k0 => sf k0 ms) ms shs) k = Returned (sf k ms mod ms)) as HK.
    { unfold keyToShardIndex. simpl. destruct (Z.geb_spec (sf k ms) ms).
      - by rewrite (proj2 (Z.eqb_neq _ _)) by done.
      - rewrite Z.mod_small by lia. done. }
    split; [done|]. unfold shard_of. rewrite HK.
    pose proof (Z.mod_pos_bound (sf k ms) ms Hpos).
    destruct (lookup_lt_is_Some_2 shs (Z.to_nat (sf k ms mod ms))) as [s Hsome]; [lia|].
    cbn [shards]. rewrite Hsome. by exists s.
Qed.

End ConstructionExtras.

Lemma Traverse_in_order_and_stops_witness :
  isShutdown witness_router = false /\
  Traverse witness_router witness_visitor 0%nat = (1%nat, [(1%nat, 10%nat)]).
Proof.
  split; [reflexivity|].
  destruct (Traverse_in_order_and_stops witness_router witness_visitor 0%nat eq_refl) as [_ HS].
  apply (HS [] 1%nat 10%nat [(2%nat, 20%nat)] 0%nat 1%nat); reflexivity.
Defined.


(** C6 counterexample: capacity 1000, targetPerShard 1, one CPU.  The
    capacity asks for 1000 shards (the CPU floor, 4, does not dominate), the
    count is capped at 256, and [ceil (1000 / 256) = 4 > 1]. *)
Lemma computeMaxshards_cap_counterexample :
  computeMaxshards 1000 1 0 1 = 256 /\ ceil_div 1000 1 = 1000 /\ 1 * 4 < 1000 /\
  ceil_div 1000 (computeMaxshards 1000 1 0 1) = 4 /\ 1 < 4.
Proof. vm_compute. repeat split; reflexivity. Qed.

Lemma computeMaxshards_pow2_capped_witness :
  0 <= 1000 < 2 ^ 64 /\ 0 <= 100 < 2 ^ 64 /\ 0 <= 2 < 2 ^ 64 /\
  ceil_div 1000 (computeMaxshards 1000 100 0 2) <= 100.
Proof.
  split; [lia|]. split; [lia|]. split; [lia|].
  destruct (computeMaxshards_pow2_capped 1000 100 2 ltac:(lia) ltac:(lia) ltac:(lia)) as (_ & _ & H3).
  apply H3; vm_compute; reflexivity || discriminate.
Defined.

Lemma toOptions_per_shard_capacity_witness :
  exists per, toOptions (witness_options 0) 1 =
    Returned (inl (mkoptions 4 (fun k => Z.of_nat k) (fun n => witness_maker n per))) /\ per = 3.
Proof.
  destruct (toOptions_per_shard_capacity (witness_options 0) 1 (fun k _ => Z.of_nat k) witness_maker
    ltac:(simpl; lia) ltac:(simpl; lia) eq_refl eq_refl) as (per & Ht & _ & _ & _ & Hc & _).
  exists per. split; [exact Ht|]. destruct (Hc ltac:(vm_compute; reflexivity)) as [-> _].
  vm_compute. reflexivity.
Defined.

Lemma New_panics_above_2_63_MinShards_witness :
  New (witness_options (2 ^ 63 + 1)) 1 = Panicked.
Proof.
  apply (New_panics_above_2_63_MinShards (witness_options (2 ^ 63 + 1)) 1);
    [simpl; lia | simpl; lia | eexists; reflexivity | eexists; reflexivity].
Defined.

Lemma New_router_routes_in_range_witness :
  exists c, New (witness_options 0) 1 = Returned (inl c) /\ keyToShardIndex c 6%nat = Returned 2.
Proof.
  eexists. assert (HN : New (witness_options 0) 1 = Returned (inl _)) by (vm_compute; reflexivity).
  split; [exact HN|].
  destruct (New_router_routes_in_range (witness_options 0) 1 (fun k _ => Z.of_nat k) witness_maker _
    eq_refl eq_refl (fun k _ => Nat2Z.is_nonneg k) HN) as (Hms & _ & _ & _ & Hk).
  rewrite (proj1 (Hk 6%nat)), Hms. vm_compute. reflexivity.
Defined.

End ShardSpec.

(** * Proofs about the heap and the expiry map *)
Module ExpirySpec.
Import Expiry.

(** ** Heap order of the time heap *)

(** The parent index [(k - 1) / 2] used by [up]. *)
Definition parent (k : nat) : nat := ((k - 1) / 2)%nat.

(** The first [n] elements of [d] satisfy the heap property. *)
Definition heap_upto (n : nat) (d : list Z) : Prop :=
  forall k, (0 < k < n)%nat -> d !!! parent k <= d !!! k.

Definition heap_ordered (d : list Z) : Prop := heap_upto (length d) d.

(** The loop invariant of [up] at index [j]: every edge but the one into
    [j] is ordered, and the parent of [j] is below the children of [j]. *)
Definition up_inv (d : list Z) (j : nat) : Prop :=
  (forall k, (0 < k < length d)%nat -> k <> j -> d !!! parent k <= d !!! k) /\
  ((0 < j)%nat -> forall c, (0 < c < length d)%nat -> parent c = j -> d !!! parent j <= d !!! c).

(** The loop invariant of [down] at index [i] over the first [n] elements:
    every edge out of another node than [i] is ordered, and the parent of
    [i] is below the children of [i]. *)
Definition down_inv (n : nat) (d : list Z) (i : nat) : Prop :=
  (forall k, (0 < k < n)%nat -> parent k <> i -> d !!! parent k <= d !!! k) /\
  ((0 < i)%nat -> forall c, (0 < c < n)%nat -> parent c = i -> d !!! parent i <= d !!! c).

Section ExpiryDefs.
Context {K : Type} `{Countable K}.

(** Events of client calls, as opposed to the worker's. *)
Definition client_event (e : @Event K _ _) : bool :=
  match e with EvRegister _ _ _ | EvUnregister _ _ => true | _ => false end.

(** Every detaching of a bucket [b] at time [t] happens at or after [b], and
    takes exactly the keys whose latest event on [b] is a registration. *)
Definition fires_ok (log : list (@Event K _ _)) : Prop :=
  forall pre t b s post, log = pre ++ EvFire t b s :: post ->
    b <= t /\ forall k, k ∈ s <-> registered k b (rev pre) = true.

(** Every report follows the detaching of its bucket, no earlier than it,
    with only client events in between. *)
Definition reports_ok (log : list (@Event K _ _)) : Prop :=
  forall pre t b s post, log = pre ++ EvReport t b s :: post ->
    exists pre1 t1 mid, pre = pre1 ++ EvFire t1 b s :: mid /\ b <= t1 <= t /\
      Forall (fun e => client_event e = true) mid.

(** The invariant of a running expiry map with its event log. *)
Definition inv (r : @ExpiryMap K _ _) (log : list (@Event K _ _)) : Prop :=
  (forall b k, in_bucket (expiryTimes r) b k <-> registered k b (rev log) = true) /\
  Forall (fun s => s = ∅) (setPool r) /\
  (forall b s, expiryTimes r !! b = Some s -> s <> ∅ /\ b ∈ timeHeap r) /\
  (pc r = PWait -> forall f, timer r = Some f ->
     exists h0, timeHeap r !! 0%nat = Some h0 /\ h0 <= f) /\
  (pc r = PExpire -> exists h0, timeHeap r !! 0%nat = Some h0 /\ h0 <= now r) /\
  (forall b s, pc r = PReport b s ->
     exists pre t mid, log = pre ++ EvFire t b s :: mid /\ b <= t <= now r /\
       Forall (fun e => client_event e = true) mid) /\
  fires_ok log /\ reports_ok log /\
  (forall k T b, EvRegister k T b ∈ log -> b = normalize (bucketSize r) T).

(** What a report of a key set promises: each key [k] reported for bucket
    [b] at time [t] was detached by the worker at [t1] with [b <= t1 <= t],
    and that detaching is the one the report belongs to: only client calls
    come between the two;
    before that, [k] had been registered into [b]; every registration of [k]
    into [b] had [b] as its rounded-up deadline, not before the requested
    one; and an [Unregister] of [k] from [b] before the detaching was
    followed by a new registration of [k] into [b]. *)
Definition reports_after_deadline (d : Z) (log : list (@Event K _ _)) : Prop :=
  forall pre t b s post k, log = pre ++ EvReport t b s :: post -> k ∈ s ->
    exists pre1 t1 mid, pre = pre1 ++ EvFire t1 b s :: mid /\ b <= t1 <= t /\
      Forall (fun e => client_event e = true) mid /\
      (exists T, EvRegister k T b ∈ pre1) /\
      (forall T, EvRegister k T b ∈ log ->
         b = normalize d T /\ T <= b /\ (0 < d -> b < T + d /\ b mod d = 0)) /\
      (forall x y, pre1 = x ++ EvUnregister b k :: y -> exists T, EvRegister k T b ∈ y).

End ExpiryDefs.

(** ** Heap: [Push] and [Pop] move elements without losing any *)
Section HeapFacts.
Context {T : Type} (less : T -> T -> bool).
Implicit Types (l : list T).

Lemma swap_perm l i j : Heap.swap l i j ≡ₚ l.
Proof.
  unfold Heap.swap. destruct (l !! i) as [a|] eqn:Ei; [|done].
  destruct (l !! j) as [b|] eqn:Ej; [|done]. by apply Permutation_insert_swap.
Qed.

Lemma swap_lookup_ne l i j k : k <> i -> k <> j -> Heap.swap l i j !! k = l !! k.
Proof.
  intros Hi Hj. unfold Heap.swap.
  destruct (l !! i), (l !! j); try done.
  rewrite !list_lookup_insert_ne by done. done.
Qed.

Lemma up_loop_perm f l j : Heap.up_loop less f l j ≡ₚ l.
Proof.
  revert l j. induction f as [|f IH]; intros l j; simpl; [done|].
  case_match; [done|]. by rewrite IH, swap_perm.
Qed.

Lemma down_loop_spec f l i n :
  (Heap.down_loop less f l i n).1 ≡ₚ l /\
  forall k, (n <= k)%nat -> (Heap.down_loop less f l i n).1 !! k = l !! k.
Proof.
  revert l i. induction f as [|f IH]; intros l i; cbn [Heap.down_loop]; [split; [done|auto]|].
  destruct (n <=? 2 * i + 1)%nat eqn:En; [simpl; split; [done|auto]|]. apply Nat.leb_gt in En.
  set (j := if (2 * i + 1 + 1 <? n)%nat && Heap.lessIndex less l (2 * i + 1 + 1) (2 * i + 1)
            then (2 * i + 1 + 1)%nat else (2 * i + 1)%nat).
  assert (i < j < n)%nat as Hj.
  { unfold j. destruct (2 * i + 1 + 1 <? n)%nat eqn:E2; simpl.
    - apply Nat.ltb_lt in E2. case_match; lia.
    - lia. }
  destruct (negb (Heap.lessIndex less l j i)); [simpl; split; [done|auto]|].
  destruct (IH (Heap.swap l i j) j) as [Hp Hk]. split.
  - by rewrite Hp, swap_perm.
  - intros k Hnk. rewrite Hk by done. apply swap_lookup_ne; lia.
Qed.

Lemma Push_perm l x : Heap.Push less l x ≡ₚ l ++ [x].
Proof. apply up_loop_perm. Qed.

(** [Pop] removes the root [data[0]] and returns it. *)
Lemma Pop_spec l l' x : Heap.Pop less l = Some (l', x) -> l !! 0%nat = Some x /\ l ≡ₚ x :: l'.
Proof.
  unfold Heap.Pop. destruct l as [|y l0] eqn:El; [discriminate|]. rewrite <- El.
  assert (length l = S (length l - 1)) as Hlen by (rewrite El; simpl; lia).
  assert (l !! 0%nat = Some y) as E0 by (rewrite El; done).
  set (n := (length l - 1)%nat) in *.
  unfold Heap.down. destruct (down_loop_spec n (Heap.swap l 0 n) 0 n) as [Hp Hk].
  destruct (Heap.down_loop less n (Heap.swap l 0 n) 0 n) as [d2 i2] eqn:Ed. simpl in *.
  destruct (d2 !! n) as [z|] eqn:Ez; [|discriminate]. intros [= <- <-].
  assert (Heap.swap l 0 n !! n = l !! 0%nat) as Hsw.
  { unfold Heap.swap. destruct (lookup_lt_is_Some_2 l n ltac:(lia)) as [b Eb].
    rewrite E0, Eb. rewrite list_lookup_insert_eq; [done|]. rewrite length_insert. lia. }
  pose proof Ez as Ez'. rewrite Hk in Ez' by lia. rewrite Hsw in Ez'. split; [done|].
  assert (d2 ≡ₚ l) as Hpl by (rewrite Hp; apply swap_perm).
  assert (length d2 = S n) as Hl2 by (rewrite Hpl; done).
  etrans; [symmetry; exact Hpl|]. rewrite <- (take_ge d2 (S n)) at 1 by lia.
  rewrite (take_S_r d2 n z Ez). by rewrite Permutation_app_comm.
Qed.

End HeapFacts.

(** [Push] with [timeHeapLessThan] never makes the root later. *)
Lemma up_loop_head f l j h0 :
  l !! 0%nat = Some h0 ->
  exists h0', Heap.up_loop timeHeapLessThan f l j !! 0%nat = Some h0' /\ h0' <= h0.
Proof.
  revert l j h0. induction f as [|f IH]; intros l j h0 E0; cbn [Heap.up_loop].
  { exists h0. split; [done|lia]. }
  destruct ((((j - 1) / 2 =? j)%nat || negb (Heap.lessIndex timeHeapLessThan l j ((j - 1) / 2))))
    eqn:Eb.
  { exists h0. split; [done|lia]. }
  apply orb_false_iff in Eb as [Eij Hlt]. apply negb_false_iff in Hlt.
  apply Nat.eqb_neq in Eij.
  set (i := ((j - 1) / 2)%nat) in *.
  assert (j <> 0%nat) as Hj0 by (intros ->; apply Eij; reflexivity).
  unfold Heap.lessIndex in Hlt.
  destruct (l !! j) as [b|] eqn:Ej; [|discriminate].
  destruct (l !! i) as [a|] eqn:Ei; [|discriminate].
  unfold timeHeapLessThan in Hlt. apply Z.ltb_lt in Hlt.
  assert (Heap.swap l i j = <[j := a]> (<[i := b]> l)) as Hsw by (unfold Heap.swap; by rewrite Ei, Ej).
  destruct (decide (i = 0%nat)) as [Hi0|Hi0].
  - rewrite Hi0 in Ei. rewrite E0 in Ei. injection Ei as ->.
    destruct (IH (Heap.swap l i j) i b) as (h0' & Hh & Hle).
    { rewrite Hsw, list_lookup_insert_ne by lia. rewrite Hi0.
      apply list_lookup_insert_eq. by apply lookup_lt_is_Some_1. }
    exists h0'. split; [done|lia].
  - destruct (IH (Heap.swap l i j) i h0) as (h0' & Hh & Hle).
    { rewrite swap_lookup_ne by lia. done. }
    exists h0'. split; [done|lia].
Qed.

Lemma Push_head l x h0 :
  l !! 0%nat = Some h0 ->
  exists h0', Heap.Push timeHeapLessThan l x !! 0%nat = Some h0' /\ h0' <= h0.
Proof.
  intros E0. apply up_loop_head. rewrite lookup_app_l; [done|].
  by apply lookup_lt_is_Some_1.
Qed.


Lemma parent_spec k : (0 < k)%nat -> (k = 2 * parent k + 1 \/ k = 2 * parent k + 2)%nat.
Proof.
  intros Hk. unfold parent.
  pose proof (Nat.div_mod (k - 1) 2 ltac:(lia)). pose proof (Nat.mod_upper_bound (k - 1) 2 ltac:(lia)).
  lia.
Qed.

Lemma swap_length (d : list Z) i j : length (Heap.swap d i j) = length d.
Proof. unfold Heap.swap. destruct (d !! i), (d !! j); [rewrite !length_insert|..]; done. Qed.

Lemma swap_total (d : list Z) i j k :
  (i < length d)%nat -> (j < length d)%nat ->
  Heap.swap d i j !!! k = d !!! (if decide (k = i) then j else if decide (k = j) then i else k).
Proof.
  intros Hi Hj. unfold Heap.swap.
  rewrite !list_lookup_lookup_total_lt by done.
  rewrite !list_lookup_total_insert, length_insert.
  repeat case_decide; subst; intuition congruence.
Qed.

Local Ltac simpl_dec :=
  repeat first [rewrite decide_True by lia | rewrite decide_False by lia].

Lemma lessIndex_total (d : list Z) i j :
  (i < length d)%nat -> (j < length d)%nat ->
  Heap.lessIndex timeHeapLessThan d i j = (d !!! i <? d !!! j).
Proof.
  intros Hi Hj. unfold Heap.lessIndex. rewrite !list_lookup_lookup_total_lt by done. done.
Qed.

Lemma up_loop_heap f (d : list Z) j :
  (j < f)%nat -> (j < length d)%nat -> up_inv d j ->
  heap_ordered (Heap.up_loop timeHeapLessThan f d j) /\
  length (Heap.up_loop timeHeapLessThan f d j) = length d.
Proof.
  revert d j. induction f as [|f IH]; intros d j Hf Hj [Ha Hb]; [lia|]. cbn [Heap.up_loop].
  change ((j - 1) / 2)%nat with (parent j).
  destruct ((parent j =? j)%nat || negb (Heap.lessIndex timeHeapLessThan d j (parent j))) eqn:Estop.
  - split; [|done]. intros k Hk. destruct (decide (k = j)) as [->|Hkj]; [|by apply Ha].
    pose proof (parent_spec j ltac:(lia)).
    apply orb_true_iff in Estop as [E|E]; [apply Nat.eqb_eq in E; lia|].
    apply negb_true_iff in E. rewrite lessIndex_total in E by lia. apply Z.ltb_ge in E. lia.
  - apply orb_false_iff in Estop as [E1 E2]. apply Nat.eqb_neq in E1. apply negb_false_iff in E2.
    assert (0 < j)%nat as Hj0 by (destruct j; [done|lia]).
    pose proof (parent_spec j Hj0) as Hpj.
    rewrite lessIndex_total in E2 by lia. apply Z.ltb_lt in E2.
    set (i := parent j) in *.
    destruct (IH (Heap.swap d i j) i) as [Hh Hl];
      [lia|rewrite swap_length; lia| |rewrite swap_length in Hl; split; [done|lia]].
    unfold up_inv. rewrite swap_length. split.
    + intros k Hk Hki. rewrite !swap_total by lia.
      destruct (decide (k = 0%nat)) as [->|Hk0]; [lia|].
      pose proof (parent_spec k ltac:(lia)) as Hpk.
      destruct (decide (k = j)) as [->|Hkj].
      { fold i. simpl_dec. lia. }
      destruct (Nat.eq_dec (parent k) j) as [Epk|Epk].
      { rewrite Epk. simpl_dec. exact (Hb Hj0 k ltac:(lia) Epk). }
      destruct (Nat.eq_dec (parent k) i) as [Epk'|Epk'].
      { rewrite Epk'. simpl_dec. specialize (Ha k ltac:(lia) Hkj). rewrite Epk' in Ha. lia. }
      simpl_dec. apply Ha; lia.
    + intros Hi0 c Hc Epc. rewrite !swap_total by lia.
      pose proof (parent_spec i Hi0) as Hpi. pose proof (parent_spec c ltac:(lia)) as Hpc.
      destruct (decide (c = j)) as [->|Hcj].
      { simpl_dec. apply Ha; lia. }
      simpl_dec. pose proof (Ha i ltac:(lia) ltac:(lia)). pose proof (Ha c ltac:(lia) ltac:(lia)).
      rewrite Epc in *. lia.
Qed.

Lemma down_loop_heap f (d : list Z) i n :
  (n <= length d)%nat -> (n <= i + f)%nat -> down_inv n d i ->
  heap_upto n (Heap.down_loop timeHeapLessThan f d i n).1 /\
  length (Heap.down_loop timeHeapLessThan f d i n).1 = length d.
Proof.
  revert d i. induction f as [|f IH]; intros d i Hn Hf [Ha Hb]; cbn [Heap.down_loop].
  { split; [|done]. intros k Hk. pose proof (parent_spec k ltac:(lia)). apply Ha; lia. }
  destruct (n <=? 2 * i + 1)%nat eqn:En.
  { apply Nat.leb_le in En. split; [|done]. intros k Hk. pose proof (parent_spec k ltac:(lia)).
    apply Ha; lia. }
  apply Nat.leb_gt in En.
  set (j := if (2 * i + 1 + 1 <? n)%nat && Heap.lessIndex timeHeapLessThan d (2 * i + 1 + 1) (2 * i + 1)
            then (2 * i + 1 + 1)%nat else (2 * i + 1)%nat).
  assert ((j = 2 * i + 1 \/ j = 2 * i + 2)%nat /\ (j < n)%nat /\
          forall c, (0 < c < n)%nat -> parent c = i -> d !!! j <= d !!! c) as (Hj & Hjn & Hjmin).
  { unfold j. destruct (2 * i + 1 + 1 <? n)%nat eqn:E2; cbn [andb].
    - apply Nat.ltb_lt in E2. rewrite lessIndex_total by lia.
      destruct (d !!! (2 * i + 1 + 1)%nat <? d !!! (2 * i + 1)%nat) eqn:El;
        [apply Z.ltb_lt in El|apply Z.ltb_ge in El]; cbn [andb];
        (split; [lia|split; [lia|]]); intros c Hc Epc; pose proof (parent_spec c ltac:(lia)) as Hpc;
        rewrite Epc in Hpc; destruct Hpc as [->| ->]; replace (2 * i + 2)%nat with (2 * i + 1 + 1)%nat by lia; lia.
    - apply Nat.ltb_ge in E2. split; [lia|split; [lia|]]. intros c Hc Epc.
      pose proof (parent_spec c ltac:(lia)) as Hpc. rewrite Epc in Hpc. destruct Hpc as [->| ->]; lia. }
  clearbody j.
  rewrite lessIndex_total by lia.
  destruct (negb (d !!! j <? d !!! i)) eqn:Elt; simpl.
  { apply negb_true_iff, Z.ltb_ge in Elt. split; [|done]. intros k Hk.
    destruct (Nat.eq_dec (parent k) i) as [Epk|Epk]; [|by apply Ha].
    rewrite Epk. pose proof (Hjmin k Hk Epk). lia. }
  apply negb_false_iff, Z.ltb_lt in Elt.
  destruct (IH (Heap.swap d i j) j) as [Hh Hl];
    [rewrite swap_length; lia|lia| |rewrite swap_length in Hl; split; [done|lia]].
  split.
  - intros k Hk Hkj. rewrite !swap_total by lia.
    pose proof (parent_spec k ltac:(lia)) as Hpk.
    destruct (Nat.eq_dec k j) as [->|Hkj'].
    { assert (parent j = i) as -> by (pose proof (parent_spec j ltac:(lia)); lia). simpl_dec. lia. }
    destruct (Nat.eq_dec (parent k) i) as [Epk|Epk].
    { rewrite Epk. simpl_dec. apply Hjmin; lia. }
    destruct (Nat.eq_dec k i) as [->|Hki].
    { simpl_dec. apply Hb; [lia|lia|]. pose proof (parent_spec j ltac:(lia)). lia. }
    simpl_dec. apply Ha; lia.
  - intros Hj0 c Hc Epc. rewrite !swap_total by lia.
    assert (parent j = i) as -> by (pose proof (parent_spec j ltac:(lia)); lia).
    pose proof (parent_spec c ltac:(lia)) as Hpc.
    simpl_dec. pose proof (Ha c ltac:(lia) ltac:(lia)). rewrite Epc in *. lia.
Qed.

Lemma heap_root_min (d : list Z) :
  heap_ordered d -> forall k, (k < length d)%nat -> d !!! 0%nat <= d !!! k.
Proof.
  intros Hd k. induction k as [k IH] using lt_wf_ind. intros Hk.
  destruct (decide (k = 0%nat)) as [->|Hk0]; [lia|].
  pose proof (parent_spec k ltac:(lia)). pose proof (Hd k ltac:(lia)).
  pose proof (IH (parent k) ltac:(lia) ltac:(lia)). lia.
Qed.

Lemma Push_heap_ordered (d : list Z) x :
  heap_ordered d -> heap_ordered (Heap.Push timeHeapLessThan d x).
Proof.
  intros Hd. unfold Heap.Push, Heap.up.
  apply (up_loop_heap (S (length d)) (d ++ [x]) (length d)); rewrite ?length_app; simpl; [lia|lia|].
  unfold up_inv. rewrite length_app. simpl. split.
  - intros k Hk Hkj.
    pose proof (parent_spec k ltac:(lia)).
    rewrite !lookup_total_app_l by lia. apply Hd. lia.
  - intros Hj0 c Hc Epc.
    pose proof (parent_spec c ltac:(lia)). lia.
Qed.

Lemma Pop_heap (d : list Z) :
  heap_ordered d -> d <> [] ->
  exists d' x, Heap.Pop timeHeapLessThan d = Some (d', x) /\ heap_ordered d' /\
    length d' = (length d - 1)%nat /\ Forall (fun y => x <= y) d.
Proof.
  intros Hd Hne. unfold Heap.Pop. revert Hd. destruct d as [|y l0] eqn:El; [done|]. rewrite <- El.
  intros Hd.
  assert (length d = S (length d - 1)) as Hlen by (rewrite El; simpl; lia).
  set (n := (length d - 1)%nat) in *.
  unfold Heap.down.
  destruct (down_loop_heap n (Heap.swap d 0 n) 0 n) as [Hh Hl]; rewrite ?swap_length; [lia|lia| |].
  { split; [|lia]. intros k Hk Hpk. rewrite !swap_total by lia.
    pose proof (parent_spec k ltac:(lia)). simpl_dec. apply Hd. lia. }
  destruct (down_loop_spec timeHeapLessThan n (Heap.swap d 0 n) 0 n) as [Hp Hk].
  destruct (Heap.down_loop timeHeapLessThan n (Heap.swap d 0 n) 0 n) as [d2 i2] eqn:Ed. simpl in *.
  rewrite swap_length in Hl.
  rewrite (list_lookup_lookup_total_lt d2 n) by lia.
  eexists _, _. split; [reflexivity|]. split_and!.
  - unfold heap_ordered. rewrite length_take_le by lia. intros k Hk'.
    pose proof (parent_spec k ltac:(lia)). rewrite !lookup_total_take_lt by lia. by apply Hh.
  - rewrite length_take_le; lia.
  - assert (d2 !! n = d !! 0%nat) as E.
    { rewrite Hk by lia. unfold Heap.swap. rewrite El. simpl.
      destruct (lookup_lt_is_Some_2 (y :: l0) n ltac:(rewrite <- El; lia)) as [b Eb]. rewrite Eb.
      rewrite list_lookup_insert_eq; [done|]. simpl. rewrite ?length_insert. simpl.
      assert (length d = S (length l0)) by (rewrite El; done). lia. }
    rewrite list_lookup_lookup_total_lt in E by lia.
    rewrite list_lookup_lookup_total_lt in E by lia. injection E as E. rewrite E.
    apply Forall_lookup_2. intros k z Hz. pose proof (lookup_lt_Some _ _ _ Hz).
    apply list_lookup_total_correct in Hz. subst z. apply heap_root_min; done.
Qed.
Lemma down_loop_moved f (d : list Z) i n :
  (n <= length d)%nat ->
  ((Heap.down_loop timeHeapLessThan f d i n).2 = i /\ (Heap.down_loop timeHeapLessThan f d i n).1 = d) \/
  ((i < (Heap.down_loop timeHeapLessThan f d i n).2)%nat /\
   exists c, (0 < c < n)%nat /\ parent c = i /\ d !!! c < d !!! i).
Proof.
  revert d i. induction f as [|f IH]; intros d i Hn; cbn [Heap.down_loop]; [by left|].
  destruct (n <=? 2 * i + 1)%nat eqn:En; [by left|]. apply Nat.leb_gt in En.
  set (j := if (2 * i + 1 + 1 <? n)%nat && Heap.lessIndex timeHeapLessThan d (2 * i + 1 + 1) (2 * i + 1)
            then (2 * i + 1 + 1)%nat else (2 * i + 1)%nat).
  assert ((j = 2 * i + 1 \/ j = 2 * i + 2)%nat /\ (j < n)%nat) as [Hj Hjn].
  { unfold j. destruct (2 * i + 1 + 1 <? n)%nat eqn:E2; cbn [andb].
    - apply Nat.ltb_lt in E2. case_match; lia.
    - lia. }
  clearbody j. rewrite lessIndex_total by lia.
  destruct (negb (d !!! j <? d !!! i)) eqn:Elt; [by left|].
  apply negb_false_iff, Z.ltb_lt in Elt. right.
  assert (parent j = i) as Hpj by (pose proof (parent_spec j ltac:(lia)); lia).
  split.
  - destruct (IH (Heap.swap d i j) j) as [[-> _]|[? _]]; [rewrite swap_length; lia|lia|lia].
  - exists j. split; [lia|]. done.
Qed.

Lemma insert_total (d : list Z) i x k :
  (i < length d)%nat -> <[i:=x]> d !!! k = if decide (k = i) then x else d !!! k.
Proof.
  intros Hi. rewrite list_lookup_total_insert.
  repeat case_decide; subst; intuition congruence.
Qed.
Lemma Pop_ordered (d d' : list Z) x :
  heap_ordered d -> Heap.Pop timeHeapLessThan d = Some (d', x) -> heap_ordered d'.
Proof.
  intros Hd Hp. destruct d as [|y l] eqn:El; [discriminate|]. rewrite <- El in *.
  destruct (Pop_heap d Hd ltac:(by rewrite El)) as (d2 & x2 & Hp2 & Ho & _).
  rewrite Hp in Hp2. by injection Hp2 as -> ->.
Qed.


(** X2: [Push] on a heap-ordered time heap keeps it heap-ordered (every
    parent [(k-1)/2] no later than its child [k]) and holds exactly the old
    elements and the new one. *)
Theorem Push_keeps_heap_order (d : list Z) x :
  heap_ordered d ->
  heap_ordered (Heap.Push timeHeapLessThan d x) /\ Heap.Push timeHeapLessThan d x ≡ₚ d ++ [x].
Proof. intros Hd. split; [by apply Push_heap_ordered|apply Push_perm]. Qed.

(** X3: [Pop] on a non-empty heap-ordered time heap does not panic; it
    returns the earliest element, and what remains is heap-ordered and holds
    the other elements. *)
Theorem Pop_returns_minimum (d : list Z) :
  heap_ordered d -> d <> [] ->
  exists d' x, Heap.Pop timeHeapLessThan d = Some (d', x) /\ d ≡ₚ x :: d' /\
    heap_ordered d' /\ Forall (fun y => x <= y) d.
Proof.
  intros Hd Hne. destruct (Pop_heap d Hd Hne) as (d' & x & Hp & Ho & _ & Hm).
  exists d', x. split_and!; try done. by destruct (Pop_spec _ _ _ _ Hp).
Qed.

(** X4: changing the element at a valid index [i] of a heap-ordered time
    heap and calling [Fix(i)] does not panic and restores the heap order,
    keeping the same elements. *)
Theorem Fix_restores_heap_order (d0 : list Z) i x :
  heap_ordered d0 -> (i < length d0)%nat ->
  exists d', Heap.Fix timeHeapLessThan (<[i:=x]> d0) i = Some d' /\ heap_ordered d' /\
    d' ≡ₚ <[i:=x]> d0.
Proof.
  intros Hd Hi. unfold Heap.Fix, Heap.down. rewrite length_insert.
  set (d := <[i:=x]> d0).
  assert (length d = length d0) as Hl by apply length_insert.
  assert (forall k, d !!! k = if decide (k = i) then x else d0 !!! k) as Hk by (intros; by apply insert_total).
  set (n := length d0) in *.
  assert (forall k, (0 < k < n)%nat -> d0 !!! parent k <= d0 !!! k) as Hd' by exact Hd.
  destruct (down_loop_spec timeHeapLessThan n d i n) as [Hp _].
  assert (up_inv d i -> heap_ordered (Heap.up timeHeapLessThan d i)) as Hupo.
  { intros Hu. apply (up_loop_heap (S i) d i); [lia|lia|done]. }
  assert (heap_upto n d -> up_inv d i) as HA.
  { intros Hu. unfold up_inv. rewrite Hl. split.
    - intros k Hk' _. by apply Hu.
    - intros Hi0 c Hc Epc. pose proof (Hu i ltac:(lia)). pose proof (Hu c ltac:(lia)).
      rewrite Epc in *. lia. }
  assert ((i <> 0%nat /\ x < d0 !!! parent i) -> up_inv d i) as HB.
  { intros [Hi0 Hx]. pose proof (parent_spec i ltac:(lia)). unfold up_inv. rewrite Hl. split.
    - intros k Hk' Hki. pose proof (parent_spec k ltac:(lia)). rewrite !Hk.
      rewrite (decide_False _ _ Hki).
      destruct (decide (parent k = i)) as [Epk|Epk].
      + pose proof (Hd' i ltac:(lia)). pose proof (Hd' k ltac:(lia)). rewrite Epk in *. lia.
      + by apply Hd'.
    - intros Hi0' c Hc Epc. pose proof (parent_spec c ltac:(lia)). rewrite !Hk. simpl_dec.
      pose proof (Hd' i ltac:(lia)). pose proof (Hd' c ltac:(lia)). rewrite Epc in *. lia. }
  assert (~ (i <> 0%nat /\ x < d0 !!! parent i) -> down_inv n d i) as HC.
  { intros Hx. split.
    - intros k Hk' Hpk. pose proof (parent_spec k ltac:(lia)). rewrite !Hk.
      rewrite (decide_False _ _ Hpk). destruct (decide (k = i)) as [->|Hki]; [|by apply Hd'].
      destruct (decide (x < d0 !!! parent i)); [|lia]. exfalso. apply Hx. split; [lia|done].
    - intros Hi0 c Hc Epc. pose proof (parent_spec c ltac:(lia)). pose proof (parent_spec i ltac:(lia)).
      rewrite !Hk. simpl_dec.
      pose proof (Hd' i ltac:(lia)). pose proof (Hd' c ltac:(lia)). rewrite Epc in *. lia. }
  destruct (down_loop_moved n d i n ltac:(lia)) as [[Ei Ed]|[Ei (c & Hc & Epc & Hlt)]].
  - destruct (Heap.down_loop timeHeapLessThan n d i n) as [d2 i2] eqn:Edl. simpl in Ei, Ed. subst i2 d2.
    rewrite Nat.ltb_irrefl. replace ((i =? 0)%nat || (i <? n)%nat) with true
      by (symmetry; apply orb_true_iff; right; apply Nat.ltb_lt; lia).
    eexists. split; [reflexivity|]. split; [|apply up_loop_perm].
    apply Hupo.
    destruct (decide (i <> 0%nat /\ x < d0 !!! parent i)) as [Hx|Hx]; [by apply HB|].
    apply HA. destruct (down_loop_heap n d i n ltac:(lia) ltac:(lia) (HC Hx)) as [Hh _].
    by rewrite Edl in Hh.
  - destruct (decide (i <> 0%nat /\ x < d0 !!! parent i)) as [[Hi0 Hx]|Hx].
    { exfalso. pose proof (parent_spec c ltac:(lia)). pose proof (parent_spec i ltac:(lia)).
      rewrite !Hk in Hlt. simpl_dec.
      rewrite decide_False in Hlt by lia. rewrite decide_True in Hlt by done.
      pose proof (Hd' i ltac:(lia)). pose proof (Hd' c ltac:(lia)). rewrite Epc in *. lia. }
    destruct (down_loop_heap n d i n ltac:(lia) ltac:(lia) (HC Hx)) as [Hh Hl2].
    destruct (Heap.down_loop timeHeapLessThan n d i n) as [d2 i2] eqn:Edl. simpl in *.
    replace (i <? i2)%nat with true by (symmetry; apply Nat.ltb_lt; lia).
    eexists. split; [reflexivity|]. split; [|done].
    unfold heap_ordered. rewrite Hl2, Hl. done.
Qed.



Lemma normalize_spec d T :
  (0 < d -> T <= normalize d T < T + d /\ normalize d T mod d = 0) /\
  (d <= 0 -> normalize d T = T).
Proof.
  unfold normalize, truncate. split; intros Hd.
  - destruct (d <=? 0) eqn:E; [lia|].
    pose proof (Z.mod_pos_bound T d Hd). pose proof (Z.mod_pos_bound (T + (d - 1)) d Hd).
    destruct (T - T mod d =? T) eqn:Et.
    + apply Z.eqb_eq in Et. lia.
    + apply Z.eqb_neq in Et.
      pose proof (Z.div_mod T d ltac:(lia)). pose proof (Z.div_mod (T + (d - 1)) d ltac:(lia)).
      assert ((T + (d - 1)) / d = T / d + 1) as Hq.
      { symmetry. apply Z.div_unique with (T mod d - 1); lia. }
      split.
      * rewrite Hq in *. lia.
      * replace (T + (d - 1) - (T + (d - 1)) mod d) with ((T / d + 1) * d) by lia.
        apply Z.mod_mul. lia.
  - destruct (d <=? 0) eqn:E; [|lia]. by rewrite Z.eqb_refl.
Qed.

Section ExpiryFacts.
Context {K : Type} `{Countable K}.
Implicit Types (r : @ExpiryMap K _ _) (log : list (@Event K _ _)).

Lemma fires_ok_snoc log e :
  fires_ok log ->
  (forall t b s, e = EvFire t b s ->
     b <= t /\ forall k, k ∈ s <-> registered k b (rev log) = true) ->
  fires_ok (log ++ [e]).
Proof.
  intros Hf He pre t b s post Heq.
  destruct (LruSpec.split_last _ _ _ _ _ Heq) as [(-> & <- & ->) | (post' & -> & Hl)].
  - by apply He.
  - by apply (Hf pre t b s post').
Qed.

Lemma reports_ok_snoc log e :
  reports_ok log ->
  (forall t b s, e = EvReport t b s ->
     exists pre1 t1 mid, log = pre1 ++ EvFire t1 b s :: mid /\ b <= t1 <= t /\
       Forall (fun e => client_event e = true) mid) ->
  reports_ok (log ++ [e]).
Proof.
  intros Hf He pre t b s post Heq.
  destruct (LruSpec.split_last _ _ _ _ _ Heq) as [(-> & <- & ->) | (post' & -> & Hl)].
  - by apply He.
  - by apply (Hf pre t b s post').
Qed.

Lemma fired_snoc log evs (b : Z) s (P : Z -> Prop) :
  Forall (fun e => client_event e = true) evs ->
  (exists pre t mid, log = pre ++ EvFire t b s :: mid /\ P t /\ Forall (fun e => client_event e = true) mid) ->
  exists pre t mid, log ++ evs = pre ++ EvFire t b s :: mid /\ P t /\ Forall (fun e => client_event e = true) mid.
Proof.
  intros Hevs (pre & t & mid & -> & Hp & Hm). exists pre, t, (mid ++ evs).
  split_and!; [by rewrite <- app_assoc|done|by apply Forall_app].
Qed.

Lemma pool_get_empty (pool : list (gset K)) s pool' :
  Forall (fun s => s = ∅) pool -> pool_get pool = (s, pool') ->
  s = ∅ /\ Forall (fun s => s = ∅) pool'.
Proof.
  destruct pool as [|s0 p]; simpl; intros Hf [= <- <-]; [done|].
  by inversion Hf.
Qed.

(** Registering [k] at deadline [t] records [EvRegister k t b] with the
    rounded deadline [b]. *)
Lemma inv_Register r log k t :
  inv r log ->
  inv (Register r k t).1 (log ++ [EvRegister k t (expiryTime (Register r k t).2)]).
Proof.
  intros (H1 & H2 & H3 & H4 & H5 & H6 & H7 & H8 & H9).
  unfold Register. set (b := normalize (bucketSize r) t).
  assert (forall b' k' (s0 : gset K),
    (forall k'', in_bucket (expiryTimes r) b k'' <-> k'' ∈ s0) ->
    in_bucket (<[b := {[k]} ∪ s0]> (expiryTimes r)) b' k' <->
    registered k' b' (rev (log ++ [EvRegister k t b])) = true) as Hb.
  { intros b' k' s0 Hs0. rewrite rev_unit. unfold in_bucket. simpl.
    case_decide as Hd.
    - destruct Hd as [-> ->]. rewrite lookup_insert_eq. set_solver.
    - destruct (decide (b' = b)) as [->|Hne].
      + rewrite lookup_insert_eq, <- H1, Hs0. assert (k <> k') by tauto. set_solver.
      + rewrite lookup_insert_ne by done. apply H1. }
  assert (fires_ok (log ++ [EvRegister k t b])) as Hf by (apply fires_ok_snoc; [done|discriminate]).
  assert (reports_ok (log ++ [EvRegister k t b])) as Hr by (apply reports_ok_snoc; [done|discriminate]).
  assert (forall k' T b', EvRegister k' T b' ∈ log ++ [EvRegister k t b] ->
            b' = normalize (bucketSize r) T) as Hg.
  { intros k' T b' [Hin|Hin%list_elem_of_singleton]%elem_of_app; [by apply (H9 k')|].
    by injection Hin as -> -> ->. }
  destruct (expiryTimes r !! b) as [s|] eqn:Eb; simpl.
  - split_and!; simpl; try done.
    + intros b' k'. apply Hb. intros k''. unfold in_bucket. by rewrite Eb.
    + intros b' s'. destruct (decide (b' = b)) as [->|Hne].
      * rewrite lookup_insert_eq. intros [= <-]. split; [set_solver|].
        by destruct (H3 b s Eb).
      * rewrite lookup_insert_ne by done. apply H3.
    + intros b' s' Hp. apply fired_snoc; [by repeat constructor|by apply H6].
  - destruct (pool_get (setPool r)) as [s0 pool'] eqn:Ep.
    destruct (pool_get_empty _ _ _ H2 Ep) as [-> Hpool].
    split_and!; simpl; try done.
    + intros b' k'. apply Hb. intros k''. unfold in_bucket. rewrite Eb. set_solver.
    + intros b' s'. assert (forall x, x ∈ timeHeap r ++ [b] ->
        x ∈ Heap.Push timeHeapLessThan (timeHeap r) b) as Hpush.
      { intros x. by rewrite Push_perm. }
      destruct (decide (b' = b)) as [->|Hne].
      * rewrite lookup_insert_eq. intros [= <-]. split; [set_solver|].
        apply Hpush. set_solver.
      * rewrite lookup_insert_ne by done. intros Hs.
        destruct (H3 _ _ Hs) as [Hne' Hin]. split; [done|]. apply Hpush. set_solver.
    + intros Hpc f Hf'. destruct (H4 Hpc f Hf') as (h0 & Eh & Hle).
      destruct (Push_head _ b _ Eh) as (h0' & ? & ?). exists h0'. split; [done|lia].
    + intros Hpc. destruct (H5 Hpc) as (h0 & Eh & Hle).
      destruct (Push_head _ b _ Eh) as (h0' & ? & ?). exists h0'. split; [done|lia].
    + intros b' s' Hp. apply fired_snoc; [by repeat constructor|by apply H6].
Qed.


Lemma inv_Unregister r log h k :
  inv r log -> inv (Unregister r h k) (log ++ [EvUnregister (expiryTime h) k]).
Proof.
  intros (H1 & H2 & H3 & H4 & H5 & H6 & H7 & H8 & H9).
  set (b := expiryTime h).
  assert (fires_ok (log ++ [EvUnregister b k])) as Hf by (apply fires_ok_snoc; [done|discriminate]).
  assert (reports_ok (log ++ [EvUnregister b k])) as Hr by (apply reports_ok_snoc; [done|discriminate]).
  assert (forall k' T b', EvRegister k' T b' ∈ log ++ [EvUnregister b k] ->
            b' = normalize (bucketSize r) T) as Hg.
  { intros k' T b' [Hin|Hin%list_elem_of_singleton]%elem_of_app; [by apply (H9 k')|done]. }
  assert (forall b' k', registered k' b' (rev (log ++ [EvUnregister b k])) =
            if decide (k = k' /\ b = b') then false else registered k' b' (rev log)) as Hreg.
  { intros b' k'. by rewrite rev_unit. }
  unfold Unregister. fold b. destruct (expiryTimes r !! b) as [s|] eqn:Eb.
  - destruct (size (s ∖ {[k]}) =? 0)%nat eqn:Ez.
    + apply Nat.eqb_eq in Ez.
      assert (s ∖ {[k]} = ∅) as He by (apply leibniz_equiv, size_empty_inv; done).
      split_and!; simpl; try done.
      * intros b' k'. rewrite Hreg. unfold in_bucket.
        destruct (decide (b' = b)) as [->|Hne].
        -- rewrite lookup_delete_eq. case_decide as Hd; [done|].
           assert (k <> k') by tauto.
           rewrite <- H1. unfold in_bucket. rewrite Eb. split; [done|].
           intros Hin. assert (k' ∈ s ∖ {[k]}) as Hin' by set_solver. set_solver.
        -- rewrite lookup_delete_ne by done. case_decide as Hd; [destruct Hd; congruence|]. apply H1.
      * rewrite He. case_match; [by constructor|done].
      * intros b' s'. destruct (decide (b' = b)) as [->|Hne].
        -- by rewrite lookup_delete_eq.
        -- rewrite lookup_delete_ne by done. apply H3.
      * intros b' s' Hp. apply fired_snoc; [by repeat constructor|by apply H6].
    + apply Nat.eqb_neq in Ez.
      split_and!; simpl; try done.
      * intros b' k'. rewrite Hreg. unfold in_bucket.
        destruct (decide (b' = b)) as [->|Hne].
        -- rewrite lookup_insert_eq.
           case_decide as Hd; [destruct Hd as [-> _]; set_solver|].
           rewrite <- H1. unfold in_bucket. rewrite Eb.
           assert (k <> k') by tauto. set_solver.
        -- rewrite lookup_insert_ne by done. case_decide as Hd; [destruct Hd; congruence|]. apply H1.
      * intros b' s'. destruct (decide (b' = b)) as [->|Hne].
        -- rewrite lookup_insert_eq. intros [= <-]. split.
           ++ intros He. apply Ez. by rewrite He.
           ++ by destruct (H3 b s Eb).
        -- rewrite lookup_insert_ne by done. apply H3.
      * intros b' s' Hp. apply fired_snoc; [by repeat constructor|by apply H6].
  - split_and!; try done.
    + intros b' k'. rewrite Hreg. case_decide as Hd.
      * destruct Hd as [-> <-]. unfold in_bucket. rewrite Eb. done.
      * apply H1.
    + intros b' s' Hp. apply fired_snoc; [by repeat constructor|by apply H6].
Qed.

Lemma inv_nil r log r' :
  inv r log ->
  expiryTimes r' = expiryTimes r -> setPool r' = setPool r -> bucketSize r' = bucketSize r ->
  (forall b s, expiryTimes r !! b = Some s -> b ∈ timeHeap r') ->
  (pc r' = PWait -> forall f, timer r' = Some f ->
     exists h0, timeHeap r' !! 0%nat = Some h0 /\ h0 <= f) ->
  (pc r' = PExpire -> exists h0, timeHeap r' !! 0%nat = Some h0 /\ h0 <= now r') ->
  (forall b s, pc r' = PReport b s ->
     exists pre t mid, log = pre ++ EvFire t b s :: mid /\ b <= t <= now r' /\
       Forall (fun e => client_event e = true) mid) ->
  inv r' (log ++ []).
Proof.
  intros (H1 & H2 & H3 & H4 & H5 & H6 & H7 & H8 & H9) E1 E2 E3 Hh G4 G5 G6.
  rewrite app_nil_r. split_and!; try done.
  - rewrite E1. apply H1.
  - by rewrite E2.
  - rewrite E1. intros b s Hs. destruct (H3 b s Hs). eauto.
  - rewrite E3. apply H9.
Qed.

Lemma inv_nil_heap r log r' :
  inv r log ->
  expiryTimes r' = expiryTimes r -> setPool r' = setPool r -> bucketSize r' = bucketSize r ->
  timeHeap r' = timeHeap r ->
  (pc r' = PWait -> forall f, timer r' = Some f ->
     exists h0, timeHeap r' !! 0%nat = Some h0 /\ h0 <= f) ->
  (pc r' = PExpire -> exists h0, timeHeap r' !! 0%nat = Some h0 /\ h0 <= now r') ->
  (forall b s, pc r' = PReport b s ->
     exists pre t mid, log = pre ++ EvFire t b s :: mid /\ b <= t <= now r' /\
       Forall (fun e => client_event e = true) mid) ->
  inv r' (log ++ []).
Proof.
  intros Hinv E1 E2 E3 E4. apply (inv_nil r); try done.
  intros b s Hs. rewrite E4. by destruct Hinv as (_ & _ & H3 & _); destruct (H3 b s Hs).
Qed.

Lemma heap_after_pop (heap : list Z) h0 :
  heap !! 0%nat = Some h0 ->
  forall b, b ∈ heap -> b <> h0 ->
  b ∈ match Heap.Pop timeHeapLessThan heap with Some (d, _) => d | None => heap end.
Proof.
  intros E0 b Hb Hne. destruct (Heap.Pop timeHeapLessThan heap) as [[d x]|] eqn:Ep; [|done].
  destruct (Pop_spec _ _ _ _ Ep) as [Ex Hp]. rewrite E0 in Ex. injection Ex as <-.
  rewrite Hp in Hb. apply elem_of_cons in Hb as [?|?]; [done|done].
Qed.

Lemma inv_worker r log w r' evs :
  inv r log -> worker_step r w = Some (r', evs) -> inv r' (log ++ evs).
Proof.
  intros Hinv. pose proof Hinv as (H1 & H2 & H3 & H4 & H5 & H6 & H7 & H8 & H9).
  unfold worker_step. destruct (pc r) as [| | |b s|] eqn:Epc.
  - intros [= <- <-]. unfold setupTimer, Heap.Peep.
    destruct (timeHeap r !! 0%nat) as [e|] eqn:Ee; apply (inv_nil_heap r); simpl; try done.
    intros _ f [= <-]. exists e. split; [done|lia].
  - intros Hw. destruct (waitEvent r w) as [r1|] eqn:Ew; [|discriminate].
    injection Hw as <- <-. unfold waitEvent in Ew. destruct w.
    + destruct (quit r); [|discriminate]. injection Ew as <-.
      apply (inv_nil_heap r); simpl; done.
    + destruct (wakeUp r); [|discriminate]. injection Ew as <-.
      apply (inv_nil_heap r); simpl; done.
    + destruct (timer r) as [f|] eqn:Ef; [|discriminate].
      destruct (f <=? now r) eqn:Efn; [|discriminate]. apply Z.leb_le in Efn.
      injection Ew as <-. apply (inv_nil_heap r); simpl; try done.
      intros _. destruct (H4 eq_refl f eq_refl) as (h0 & ? & ?). exists h0. split; [done|lia].
  - destruct (H5 eq_refl) as (h0 & Eh & Hle).
    unfold getExpiryRecords, Heap.Peep. rewrite Eh.
    pose proof (heap_after_pop _ _ Eh) as Hpop.
    set (heap := match Heap.Pop timeHeapLessThan (timeHeap r) with Some (d, _) => d | None => timeHeap r end) in *.
    destruct (expiryTimes r !! h0) as [s|] eqn:Es.
    + set (ev := EvFire (now r) h0 s).
      assert (fires_ok (log ++ [ev])) as Hf.
      { apply fires_ok_snoc; [done|]. intros t b s' [= <- <- <-]. split; [done|].
        intros k. rewrite <- H1. unfold in_bucket. by rewrite Es. }
      assert (reports_ok (log ++ [ev])) as Hr by (apply reports_ok_snoc; [done|discriminate]).
      assert (forall k' T b', EvRegister k' T b' ∈ log ++ [ev] ->
                b' = normalize (bucketSize r) T) as Hg.
      { intros k' T b' [Hin|Hin%list_elem_of_singleton]%elem_of_app; [by apply (H9 k')|done]. }
      assert (forall b k, in_bucket (delete h0 (expiryTimes r)) b k <->
                registered k b (rev (log ++ [ev])) = true) as G1.
      { intros b k. rewrite rev_unit. simpl. unfold in_bucket.
        case_decide as Hd.
        - subst. by rewrite lookup_delete_eq.
        - rewrite lookup_delete_ne by done. apply H1. }
      assert (forall b s', delete h0 (expiryTimes r) !! b = Some s' -> s' <> ∅ /\ b ∈ heap) as G3.
      { intros b s'. destruct (decide (b = h0)) as [->|Hne]; [by rewrite lookup_delete_eq|].
        rewrite lookup_delete_ne by done. intros Hs. destruct (H3 _ _ Hs) as [? Hb].
        split; [done|]. by apply Hpop. }
      destruct (size s =? 0)%nat; intros [= <- <-]; split_and!; simpl; try done.
      intros b' s' [= -> ->]. exists log, (now r), []. split_and!; [done|lia|lia|done].
    + intros [= <- <-]. apply (inv_nil r); simpl; try done.
      intros b s' Hs'. destruct (decide (b = h0)) as [->|Hne]; [congruence|].
      apply Hpop; [|done]. by destruct (H3 _ _ Hs').
  - intros [= <- Hevs]. destruct (H6 b s eq_refl) as (pre & t & mid & Elog & Hbt & Hmid).
    assert (inv (mkMap (now r) (timeHeap r) (nextExpiryTime r) (bucketSize r) (expiryTimes r)
              (wakeUp r) (quit r) (timer r) PSetup
              (if Z.of_nat (size s) <=? avgSetSize r * 2 then ∅ :: setPool r else setPool r)
              (avgSetSize r) (onExpiry r)) (log ++ [])) as Hi.
    { rewrite app_nil_r. split_and!; simpl; try done. destruct (Z.of_nat (size s) <=? avgSetSize r * 2); [by constructor|done]. }
    subst evs. destruct (onExpiry r); [|done].
    destruct Hi as (G1 & G2 & G3 & G4 & G5 & G6 & G7 & G8 & G9). rewrite app_nil_r in *.
    split_and!; try done.
    + intros b' k'. rewrite rev_unit. apply G1.
    + apply fires_ok_snoc; [done|discriminate].
    + apply reports_ok_snoc; [done|]. intros t' b' s' [= <- <- <-].
      exists pre, t, mid. split_and!; [done|lia|lia|done].
    + intros k' T b' [Hin|Hin%list_elem_of_singleton]%elem_of_app; [by apply (G9 k')|done].
  - discriminate.
Qed.


Lemma inv_step r log a r' evs :
  inv r log -> step r a = Some (r', evs) -> inv r' (log ++ evs).
Proof.
  intros Hinv. pose proof Hinv as (H1 & H2 & H3 & H4 & H5 & H6 & H7 & H8 & H9).
  destruct a as [k t|h k|dt| |w]; simpl.
  - pose proof (inv_Register r log k t Hinv) as Hr.
    destruct (Register r k t) as [r1 h] eqn:Er. intros [= <- <-]. exact Hr.
  - intros [= <- <-]. by apply inv_Unregister.
  - destruct (0 <=? dt) eqn:Edt; [|discriminate]. apply Z.leb_le in Edt.
    intros [= <- <-]. apply (inv_nil_heap r); simpl; try done.
    + intros Hp. destruct (H5 Hp) as (h0 & ? & ?). exists h0. split; [done|lia].
    + intros b s Hp. destruct (H6 b s Hp) as (pre & t & mid & ? & ? & ?).
      exists pre, t, mid. split_and!; [done|lia|lia|done].
  - destruct (quit r); [discriminate|].
    intros [= <- <-]. by apply (inv_nil_heap r).
  - by apply inv_worker.
Qed.

Lemma step_bucketSize r a r' evs :
  step r a = Some (r', evs) -> bucketSize r' = bucketSize r.
Proof.
  destruct a as [k t|h k|dt| |w]; simpl.
  - unfold Register. repeat case_match; intros; simplify_eq; done.
  - unfold Unregister. repeat case_match; intros; simplify_eq; done.
  - case_match; intros; simplify_eq; done.
  - case_match; intros; simplify_eq; done.
  - unfold worker_step. intros Hs. destruct (pc r).
    + injection Hs as <- <-. unfold setupTimer. by case_match.
    + destruct (waitEvent r w) as [r1|] eqn:Ew; simpl in Hs; [|discriminate].
      injection Hs as <- <-. unfold waitEvent in Ew. repeat case_match; simplify_eq; done.
    + unfold getExpiryRecords in Hs. repeat case_match; simplify_eq; done.
    + by injection Hs as <- <-.
    + discriminate.
Qed.

Lemma inv_run acts r log r' evs :
  inv r log -> run_actions r acts = Some (r', evs) ->
  inv r' (log ++ evs) /\ bucketSize r' = bucketSize r.
Proof.
  revert r log evs. induction acts as [|a acts IH]; intros r log evs Hinv; simpl.
  - intros [= <- <-]. by rewrite app_nil_r.
  - destruct (step r a) as [[r1 e1]|] eqn:Es; simpl; [|discriminate].
    destruct (run_actions r1 acts) as [[r2 e2]|] eqn:Er; simpl; [|discriminate].
    intros [= <- <-].
    destruct (IH r1 (log ++ e1) e2 (inv_step _ _ _ _ _ Hinv Es) Er) as [Hi Hb].
    rewrite app_assoc. split; [done|]. rewrite Hb. by apply (step_bucketSize r a r1 e1).
Qed.

Lemma inv_New onExp d t0 : inv (@New K _ _ onExp d t0) [].
Proof.
  split_and!; simpl; try done.
  - intros pre t b s post Hl. by destruct pre.
  - intros pre t b s post Hl. by destruct pre.
  - intros k T b Hin. by apply elem_of_nil in Hin.
Qed.

(** The invariant of every state reachable from [New]. *)
Lemma reachable_inv onExp d t0 acts r log :
  run_actions (@New K _ _ onExp d t0) acts = Some (r, log) -> inv r log /\ bucketSize r = d.
Proof.
  intros Hrun. exact (inv_run acts _ [] r log (inv_New onExp d t0) Hrun).
Qed.

Lemma step_heap (r : @ExpiryMap K _ _) a r' evs :
  heap_ordered (timeHeap r) -> step r a = Some (r', evs) -> heap_ordered (timeHeap r').
Proof.
  intros Hh. destruct a as [k t|h k|dt| |w]; simpl.
  - unfold Register. repeat case_match; intros; simplify_eq; simpl; [done|].
    by apply Push_heap_ordered.
  - unfold Unregister. repeat case_match; intros; simplify_eq; done.
  - case_match; intros; simplify_eq; done.
  - case_match; intros; simplify_eq; done.
  - unfold worker_step. intros Hs. destruct (pc r).
    + injection Hs as <- <-. unfold setupTimer. by case_match.
    + destruct (waitEvent r w) as [r1|] eqn:Ew; simpl in Hs; [|discriminate].
      injection Hs as <- <-. unfold waitEvent in Ew. repeat case_match; simplify_eq; done.
    + unfold getExpiryRecords in Hs.
      destruct (Heap.Peep (timeHeap r)); [|repeat case_match; simplify_eq; done].
      destruct (Heap.Pop timeHeapLessThan (timeHeap r)) as [[d x]|] eqn:Ep.
      * apply Pop_ordered in Ep; [|done]. repeat case_match; simplify_eq; done.
      * repeat case_match; simplify_eq; done.
    + by injection Hs as <- <-.
    + discriminate.
Qed.

Lemma run_heap (r : @ExpiryMap K _ _) acts r' evs :
  heap_ordered (timeHeap r) -> run_actions r acts = Some (r', evs) -> heap_ordered (timeHeap r').
Proof.
  revert r evs. induction acts as [|a acts IH]; intros r evs Hh; simpl.
  - by intros [= <- <-].
  - destruct (step r a) as [[r1 e1]|] eqn:Es; simpl; [|discriminate].
    destruct (run_actions r1 acts) as [[r2 e2]|] eqn:Er; simpl; [|discriminate].
    intros [= <- <-]. apply (IH r1 e2); [|done]. by apply (step_heap r a r1 e1).
Qed.

Lemma elem_of_rev_inv (x : @Event K _ _) l : x ∈ rev l -> x ∈ l.
Proof.
  induction l as [|y l IH]; simpl; [done|].
  intros [Hin|Hin%list_elem_of_singleton]%elem_of_app; apply elem_of_cons; auto.
Qed.

Lemma registered_elem (k : K) b (rl : list (@Event K _ _)) :
  registered k b rl = true -> exists T, EvRegister k T b ∈ rl.
Proof.
  induction rl as [|ev rl IH]; simpl; [discriminate|].
  assert (registered k b rl = true -> exists T, EvRegister k T b ∈ ev :: rl) as Hrest.
  { intros Hr. destruct (IH Hr) as [T HT]. exists T. by apply elem_of_cons; right. }
  destruct ev as [k' T b'|b' k'|t b' s|t b' s]; try case_decide as Hd; try done.
  destruct Hd as [-> ->]. intros _. exists T. by apply elem_of_cons; left.
Qed.

Lemma registered_after_unregister (k : K) b (l rest : list (@Event K _ _)) :
  registered k b (l ++ EvUnregister b k :: rest) = true -> exists T, EvRegister k T b ∈ l.
Proof.
  induction l as [|ev l IH]; simpl.
  - case_decide as Hd; [discriminate|tauto].
  - assert (registered k b (l ++ EvUnregister b k :: rest) = true ->
              exists T, EvRegister k T b ∈ ev :: l) as Hrest.
    { intros Hr. destruct (IH Hr) as [T HT]. exists T. by apply elem_of_cons; right. }
    destruct ev as [k' T b'|b' k'|t b' s|t b' s]; try case_decide as Hd; try done.
    destruct Hd as [-> ->]. intros _. exists T. by apply elem_of_cons; left.
Qed.

Lemma step_pc_done (r : @ExpiryMap K _ _) a r' evs :
  pc r = PDone -> step r a = Some (r', evs) -> pc r' = PDone /\ Forall (fun e => client_event e = true) evs.
Proof.
  intros Hp. destruct a as [k t|h k|dt| |w]; simpl.
  - unfold Register. repeat case_match; intros; simplify_eq; simpl; by repeat constructor.
  - unfold Unregister. repeat case_match; intros; simplify_eq; simpl; by repeat constructor.
  - case_match; intros; simplify_eq; simpl; by repeat constructor.
  - case_match; intros; simplify_eq; simpl; by repeat constructor.
  - unfold worker_step. by rewrite Hp.
Qed.

Lemma step_quit (r : @ExpiryMap K _ _) a r' evs :
  (pc r = PDone -> quit r = true) -> step r a = Some (r', evs) -> (pc r' = PDone -> quit r' = true).
Proof.
  intros Hq. destruct a as [k t|h k|dt| |w]; simpl.
  - unfold Register. repeat case_match; intros; simplify_eq; simpl in *; auto.
  - unfold Unregister. repeat case_match; intros; simplify_eq; simpl in *; auto.
  - case_match; intros; simplify_eq; simpl in *; auto.
  - case_match; intros; simplify_eq; simpl in *; auto.
  - unfold worker_step. intros Hs. destruct (pc r) eqn:Ep.
    + injection Hs as <- <-. unfold setupTimer. by case_match.
    + destruct (waitEvent r w) as [r1|] eqn:Ew; simpl in Hs; [|discriminate].
      injection Hs as <- <-. unfold waitEvent in Ew. repeat case_match; simplify_eq; done.
    + unfold getExpiryRecords in Hs. repeat case_match; simplify_eq; done.
    + by injection Hs as <- <-.
    + discriminate.
Qed.

Lemma run_pc_done (r : @ExpiryMap K _ _) acts r' evs :
  pc r = PDone -> run_actions r acts = Some (r', evs) ->
  pc r' = PDone /\ Forall (fun e => client_event e = true) evs.
Proof.
  revert r evs. induction acts as [|a acts IH]; intros r evs Hp; simpl.
  - intros [= <- <-]. done.
  - destruct (step r a) as [[r1 e1]|] eqn:Es; simpl; [|discriminate].
    destruct (run_actions r1 acts) as [[r2 e2]|] eqn:Er; simpl; [|discriminate].
    intros [= <- <-]. destruct (step_pc_done r a r1 e1 Hp Es) as [Hp1 Hf1].
    destruct (IH r1 e2 Hp1 Er) as [Hp2 Hf2]. split; [done|]. by apply Forall_app.
Qed.

Lemma run_quit (r : @ExpiryMap K _ _) acts r' evs :
  (pc r = PDone -> quit r = true) -> run_actions r acts = Some (r', evs) ->
  (pc r' = PDone -> quit r' = true).
Proof.
  revert r evs. induction acts as [|a acts IH]; intros r evs Hq; simpl.
  - intros [= <- <-]. done.
  - destruct (step r a) as [[r1 e1]|] eqn:Es; simpl; [|discriminate].
    destruct (run_actions r1 acts) as [[r2 e2]|] eqn:Er; simpl; [|discriminate].
    intros [= <- <-]. exact (IH r1 e2 (step_quit r a r1 e1 Hq Es) Er).
Qed.

End ExpiryFacts.


Section ExpiryClaims.
Context {K : Type} `{Countable K}.

(** C8: a key registered with deadline [T] is reported expired only at or
    after the rounded-up bucket boundary [bucket(T)] (the timer delay is
    floored at zero), and a key unregistered from its bucket before the
    bucket fires (and not registered there again) is never reported: the
    detaching each report belongs to (the last worker event before it)
    took the key, it was registered into the bucket before, and every
    earlier [Unregister] of it from that bucket was followed by a new
    registration. *)
Theorem expiry_reports_after_deadline onExp d t0 acts (r : @ExpiryMap K _ _) log :
  run_actions (New onExp d t0) acts = Some (r, log) -> reports_after_deadline d log.
Proof.
  intros Hrun. destruct (reachable_inv _ _ _ _ _ _ Hrun) as [Hinv Hbs].
  destruct Hinv as (_ & _ & _ & _ & _ & _ & H7 & H8 & H9).
  intros pre t b s post k Elog Hk.
  destruct (H8 _ _ _ _ _ Elog) as (pre1 & t1 & mid & Epre & Hb & Hmid).
  assert (log = pre1 ++ EvFire t1 b s :: (mid ++ EvReport t b s :: post)) as Elog'.
  { rewrite Elog, Epre, <- app_assoc. done. }
  destruct (H7 _ _ _ _ _ Elog') as [_ Hfs]. apply Hfs in Hk.
  exists pre1, t1, mid. split_and!; try done; try lia.
  - destruct (registered_elem _ _ _ Hk) as [T HT]. exists T. by apply elem_of_rev_inv.
  - intros T HT. pose proof (H9 _ _ _ HT) as Eb. rewrite Hbs in Eb.
    destruct (normalize_spec d T) as [Hpos Hneg]. rewrite Eb.
    split; [done|]. destruct (Z.lt_ge_cases 0 d) as [Hd|Hd].
    + destruct (Hpos Hd) as [? ?]. split; [lia|]. intros _. split; [lia|done].
    + rewrite (Hneg Hd). split; [lia|intros; lia].
  - intros x y ->. rewrite rev_app_distr in Hk. simpl in Hk. rewrite <- app_assoc in Hk.
    destruct (registered_after_unregister _ _ _ _ Hk) as [T HT].
    exists T. by apply elem_of_rev_inv.
Qed.

(** C9: in every reachable state an existing bucket has a non-empty key set
    and its deadline occurs in the heap. *)
Theorem bucket_nonempty_in_heap onExp d t0 acts (r : @ExpiryMap K _ _) log :
  run_actions (New onExp d t0) acts = Some (r, log) ->
  forall b s, expiryTimes r !! b = Some s -> s <> ∅ /\ b ∈ timeHeap r.
Proof.
  intros Hrun. destruct (reachable_inv _ _ _ _ _ _ Hrun) as [(_ & _ & H3 & _) _].
  exact H3.
Qed.

End ExpiryClaims.

Section ExpiryExtras.
Context {K : Type} `{Countable K}.

(** X5: in every reachable state of the expiry map the time heap is
    heap-ordered, and its root (what [setupTimer] arms the timer for and
    what [getExpiryRecords] detaches next) is no later than any element of
    the heap and than the deadline of any existing bucket. *)
Theorem worker_takes_earliest onExp d t0 acts (r : @ExpiryMap K _ _) log :
  run_actions (@New K _ _ onExp d t0) acts = Some (r, log) ->
  heap_ordered (timeHeap r) /\
  forall h0, Heap.Peep (timeHeap r) = Some h0 ->
    Forall (fun t => h0 <= t) (timeHeap r) /\
    forall b s, expiryTimes r !! b = Some s -> h0 <= b.
Proof.
  intros Hr. assert (heap_ordered (timeHeap r)) as Hh.
  { apply (run_heap (@New K _ _ onExp d t0) acts r log); [|done]. intros k Hk. simpl in Hk. lia. }
  split; [done|]. intros h0 Hp.
  assert (Forall (fun t => h0 <= t) (timeHeap r)) as Hall.
  { apply Forall_lookup_2. intros k z Hz. pose proof (lookup_lt_Some _ _ _ Hz).
    apply list_lookup_total_correct in Hz. subst z. unfold Heap.Peep in Hp.
    rewrite list_lookup_lookup_total_lt in Hp by lia. injection Hp as <-.
    by apply heap_root_min. }
  split; [done|]. intros b s Hs.
  destruct (reachable_inv onExp d t0 acts r log Hr) as [(_ & _ & H3 & _) _].
  destruct (H3 b s Hs) as [_ Hb]. rewrite Forall_forall in Hall. by apply Hall.
Qed.

(** X6: in a reachable state, [Register(k, t)] of a key that is not in the
    bucket of the rounded deadline returns a handle carrying that deadline
    and adds [k] to that bucket; [Unregister] with the handle then gives
    back exactly the bucket map of before. *)
Theorem Register_Unregister_roundtrip onExp d t0 acts (r : @ExpiryMap K _ _) log k t :
  run_actions (@New K _ _ onExp d t0) acts = Some (r, log) ->
  ~ in_bucket (expiryTimes r) (normalize d t) k ->
  let '(r1, h) := Register r k t in
  expiryTime h = normalize d t /\ in_bucket (expiryTimes r1) (expiryTime h) k /\
  expiryTimes (Unregister r1 h k) = expiryTimes r.
Proof.
  intros Hr Hk. destruct (reachable_inv onExp d t0 acts r log Hr) as [(_ & H2 & H3 & _) Hd].
  unfold Register. rewrite Hd. set (b := normalize d t) in *.
  unfold in_bucket in Hk.
  destruct (expiryTimes r !! b) as [s|] eqn:Es.
  - simpl. split; [done|]. unfold in_bucket. rewrite lookup_insert_eq. split; [set_solver|].
    unfold Unregister. simpl. rewrite lookup_insert_eq.
    assert (({[k]} ∪ s) ∖ {[k]} = s) as -> by (apply leibniz_equiv; set_solver).
    destruct (H3 b s Es) as [Hne _].
    destruct (size s =? 0)%nat eqn:Esz.
    { apply Nat.eqb_eq, size_empty_inv, leibniz_equiv in Esz. done. }
    simpl. rewrite insert_insert_eq. by apply insert_id.
  - destruct (pool_get (setPool r)) as [s0 pool] eqn:Ep.
    destruct (pool_get_empty _ _ _ H2 Ep) as [-> _]. simpl.
    split; [done|]. unfold in_bucket. rewrite lookup_insert_eq. split; [set_solver|].
    unfold Unregister. simpl. rewrite lookup_insert_eq.
    assert (({[k]} ∪ ∅) ∖ {[k]} = (∅ : gset K)) as -> by (apply leibniz_equiv; set_solver).
    rewrite size_empty. simpl. rewrite delete_insert_eq. by apply delete_id.
Qed.
(** X15: registering the same key at the same time twice is the same as
    registering it once: the second [Register] finds the bucket, adds
    nothing to it, pushes nothing on the heap and sends no wake-up, and
    returns the same handle. *)
Theorem Register_idempotent (r : @ExpiryMap K _ _) k t :
  Register (Register r k t).1 k t = Register r k t.
Proof.
  unfold Register. set (b := normalize (bucketSize r) t).
  destruct (expiryTimes r !! b) as [s|] eqn:E.
  - simpl. fold b. rewrite lookup_insert_eq. rewrite insert_insert_eq.
    assert ({[k]} ∪ ({[k]} ∪ s) = {[k]} ∪ s) as -> by (apply leibniz_equiv; set_solver). done.
  - destruct (pool_get (setPool r)) as [s0 pool]. simpl. fold b. rewrite lookup_insert_eq.
    rewrite insert_insert_eq.
    assert ({[k]} ∪ ({[k]} ∪ s0) = {[k]} ∪ s0) as -> by (apply leibniz_equiv; set_solver). done.
Qed.

(** X16: a second [Unregister] with the same handle and key changes
    nothing: the bucket is gone or no longer holds the key. *)
Theorem Unregister_idempotent (r : @ExpiryMap K _ _) h k :
  Unregister (Unregister r h k) h k = Unregister r h k.
Proof.
  unfold Unregister at 2 3. destruct (expiryTimes r !! expiryTime h) as [s|] eqn:E.
  - destruct (Nat.eqb_spec (size (s ∖ {[k]})) 0) as [Hz|Hz].
    + unfold Unregister. simpl. by rewrite lookup_delete_eq.
    + unfold Unregister. simpl. rewrite lookup_insert_eq.
      assert (s ∖ {[k]} ∖ {[k]} = s ∖ {[k]}) as -> by (apply leibniz_equiv; set_solver).
      rewrite (proj2 (Nat.eqb_neq _ _) Hz). by rewrite insert_insert_eq.
  - unfold Unregister. by rewrite E.
Qed.

(** X17: in every state reachable from [New], the background goroutine has
    returned only if [quit] is closed (by [Shutdown]); once it has
    returned it stays returned, and later [Register] and [Unregister]
    calls never lead to a bucket being detached or reported. *)
Theorem worker_stops_only_after_Shutdown onExp d t0 acts (r : @ExpiryMap K _ _) log :
  run_actions (@New K _ _ onExp d t0) acts = Some (r, log) ->
  (pc r = PDone -> quit r = true) /\
  (pc r = PDone -> forall acts' r' log', run_actions r acts' = Some (r', log') ->
     pc r' = PDone /\ Forall (fun e => client_event e = true) log').
Proof.
  intros Hrun. split.
  - apply (run_quit (@New K _ _ onExp d t0) acts r log); [simpl; discriminate|exact Hrun].
  - intros Hp acts' r' log' Hr. exact (run_pc_done r acts' r' log' Hp Hr).
Qed.

End ExpiryExtras.

Lemma expiry_reports_after_deadline_witness :
  exists r log,
    run_actions (@New Z _ _ true 30 100)
      [AWorker WTick; ARegister 1 100; ARegister 2 105; ARegister 4 135; AWorker WWake;
       AWorker WTick; AAdvance 50; AWorker WTick; AWorker WTick; AWorker WTick;
       AWorker WTick; AWorker WTick; AWorker WTick] = Some (r, log) /\
    nth_error log 4 = Some (EvReport 150 120 {[1; 2]}) /\
    reports_after_deadline 30 log.
Proof.
  do 2 eexists. split; [vm_compute; reflexivity|]. split; [vm_compute; reflexivity|].
  eapply (expiry_reports_after_deadline true 30 100
    [AWorker WTick; ARegister 1 100; ARegister 2 105; ARegister 4 135; AWorker WWake;
     AWorker WTick; AAdvance 50; AWorker WTick; AWorker WTick; AWorker WTick;
     AWorker WTick; AWorker WTick; AWorker WTick]).
  vm_compute. reflexivity.
Defined.

(** After [Register(1, 10)] and [Unregister] the deadline [10] stays in the
    heap with no bucket; registering again pushes it a second time. *)
Lemma bucket_heap_counterexample :
  option_map (fun p => (timeHeap p.1, expiryTimes p.1 !! 10))
    (run_actions (@New Z _ _ false 1 0) [ARegister 1 10; AUnregister (mkHandle 10) 1])
  = Some ([10], None) /\
  option_map (fun p => (timeHeap p.1, expiryTimes p.1 !! 10))
    (run_actions (@New Z _ _ false 1 0)
       [ARegister 1 10; AUnregister (mkHandle 10) 1; ARegister 1 10])
  = Some ([10; 10], Some {[1]}).
Proof. split; vm_compute; reflexivity. Qed.

Lemma bucket_nonempty_in_heap_witness :
  exists r log,
    run_actions (@New Z _ _ false 30 100) [ARegister 1 100; ARegister 2 105; ARegister 4 135]
      = Some (r, log) /\
    expiryTimes r !! 120 = Some {[1; 2]} /\
    forall b s, expiryTimes r !! b = Some s -> s <> ∅ /\ b ∈ timeHeap r.
Proof.
  do 2 eexists. split; [vm_compute; reflexivity|]. split; [vm_compute; reflexivity|].
  eapply (bucket_nonempty_in_heap false 30 100 [ARegister 1 100; ARegister 2 105; ARegister 4 135]).
  vm_compute. reflexivity.
Defined.

Lemma Push_keeps_heap_order_witness :
  heap_ordered [1; 3; 2] /\ heap_ordered (Heap.Push timeHeapLessThan [1; 3; 2] 0).
Proof.
  assert (heap_ordered [1; 3; 2]) as Hd.
  { intros k Hk. simpl in Hk. destruct k as [|[|[|k]]]; vm_compute; try lia; discriminate. }
  split; [exact Hd|]. exact (proj1 (Push_keeps_heap_order [1; 3; 2] 0 Hd)).
Defined.

Lemma Pop_returns_minimum_witness :
  heap_ordered [1; 3; 2] /\ Heap.Pop timeHeapLessThan [1; 3; 2] = Some ([2; 3], 1) /\
  exists d' x, Heap.Pop timeHeapLessThan [1; 3; 2] = Some (d', x) /\ Forall (fun y => x <= y) [1; 3; 2].
Proof.
  assert (heap_ordered [1; 3; 2]) as Hd.
  { intros k Hk. simpl in Hk. destruct k as [|[|[|k]]]; vm_compute; try lia; discriminate. }
  split; [exact Hd|]. split; [vm_compute; reflexivity|].
  destruct (Pop_returns_minimum [1; 3; 2] Hd ltac:(discriminate)) as (d' & x & Hp & _ & _ & Hm).
  exists d', x. split; [exact Hp|exact Hm].
Defined.

Lemma Fix_restores_heap_order_witness :
  heap_ordered [1; 3; 2; 4] /\ (2 < length [1; 3; 2; 4])%nat /\
  Heap.Fix timeHeapLessThan (<[2%nat := 0]> [1; 3; 2; 4]) 2 = Some [0; 3; 1; 4] /\
  exists d', Heap.Fix timeHeapLessThan (<[2%nat := 0]> [1; 3; 2; 4]) 2 = Some d' /\ heap_ordered d'.
Proof.
  assert (heap_ordered [1; 3; 2; 4]) as Hd.
  { intros k Hk. simpl in Hk. destruct k as [|[|[|[|k]]]]; vm_compute; try lia; discriminate. }
  split; [exact Hd|]. split; [simpl; lia|]. split; [vm_compute; reflexivity|].
  destruct (Fix_restores_heap_order [1; 3; 2; 4] 2 0 Hd ltac:(simpl; lia)) as (d' & Hf & Ho & _).
  exists d'. split; [exact Hf|exact Ho].
Defined.

Lemma worker_takes_earliest_witness :
  exists r log,
    run_actions (@New Z _ _ false 10 0) [ARegister 1 35; ARegister 2 12; ARegister 3 27]
      = Some (r, log) /\
    Heap.Peep (timeHeap r) = Some 20 /\
    heap_ordered (timeHeap r).
Proof.
  do 2 eexists. split; [vm_compute; reflexivity|]. split; [vm_compute; reflexivity|].
  eapply (worker_takes_earliest false 10 0 [ARegister 1 35; ARegister 2 12; ARegister 3 27]).
  vm_compute. reflexivity.
Defined.

Lemma Register_Unregister_roundtrip_witness :
  exists r log,
    run_actions (@New Z _ _ false 10 0) [ARegister 1 35; ARegister 2 12] = Some (r, log) /\
    ~ in_bucket (expiryTimes r) (normalize 10 38) 3 /\
    expiryTimes (Unregister (Register r 3 38).1 (Register r 3 38).2 3) = expiryTimes r.
Proof.
  do 2 eexists. split; [vm_compute; reflexivity|].
  assert (~ in_bucket (expiryTimes (Register (Register (@New Z _ _ false 10 0) 1 35).1 2 12).1)
             (normalize 10 38) 3) as Hk.
  { vm_compute. set_solver. }
  split; [exact Hk|].
  pose proof (Register_Unregister_roundtrip false 10 0 [ARegister 1 35; ARegister 2 12]
    _ _ 3 38 ltac:(vm_compute; reflexivity) Hk) as HT.
  destruct (Register _ 3 38) as [r1 h]. destruct HT as (_ & _ & HT). exact HT.
Defined.

Lemma worker_stops_only_after_Shutdown_witness :
  exists r log, run_actions (@New Z _ _ true 10 0) [ARegister 1 5; AShutdown; AWorker WQuit; AWorker WQuit]
      = Some (r, log) /\ pc r = PDone /\ quit r = true /\
    exists r' log', run_actions r [ARegister 2 7; AUnregister (mkHandle 10) 1] = Some (r', log') /\
      Forall (fun e => client_event e = true) log'.
Proof.
  destruct (run_actions (@New Z _ _ true 10 0) [ARegister 1 5; AShutdown; AWorker WQuit; AWorker WQuit])
    as [[r log]|] eqn:HR; [|vm_compute in HR; discriminate].
  exists r, log. split; [done|].
  assert (Hp : pc r = PDone) by (vm_compute in HR; injection HR as <- _; reflexivity).
  destruct (worker_stops_only_after_Shutdown true 10 0 _ _ _ HR) as [Hq Hd].
  split; [exact Hp|]. split; [exact (Hq Hp)|].
  destruct (run_actions r [ARegister 2 7; AUnregister (mkHandle 10) 1]) as [[r' log']|] eqn:HR2;
    [|vm_compute in HR; injection HR as <- _; vm_compute in HR2; discriminate].
  exists r', log'. split; [done|]. exact (proj2 (Hd Hp _ _ _ HR2)).
Defined.

End ExpirySpec.
